(** * kes log trace: a shallow embedding of [cmd/kes/log.go]

    The development follows the source file top-down in reverse dependency
    order: Go library primitives the file calls ([time.Duration],
    [strings.SplitN], [strings.ReplaceAll], [strings.ToLower], [fmt]'s
    [%d] and [%02d]), then the two row formatters, the table header
    configuration, the two UI loops with their [defer]s, and last
    [logTrace] with its exit status.

    Go [string]s are byte sequences: they are modelled by [string], whose
    characters are the 8-bit [ascii].  Go [int]/[int64] values are modelled
    by [Z], with the 64-bit wrap-around written out where the source
    computes. *)

From Stdlib Require Import ZArith List String Ascii Bool Lia QArith.
From Stdlib Require Import PrimFloat FloatOps SpecFloat.
Import ListNotations.

#[local] Open Scope string_scope.
#[local] Open Scope list_scope.
#[local] Open Scope Z_scope.
#[local] Set Warnings "-inexact-float,-register-all".

(** ** Machine integers *)

Module Int64.

Definition min_int : Z := - 2 ^ 63.
Definition max_int : Z := 2 ^ 63 - 1.

Definition in_range (z : Z) : Prop := min_int <= z <= max_int.

(** Two's-complement reduction of a mathematical integer to 64 bits. *)
Definition wrap (z : Z) : Z := (z + 2 ^ 63) mod 2 ^ 64 - 2 ^ 63.

End Int64.

(** ** [time.Duration] *)

Module Duration.

(** A [Duration] is an [int64] count of nanoseconds. *)
Definition t := Z.

Definition Nanosecond : t := 1.
Definition Microsecond : t := 1000 * Nanosecond.
Definition Millisecond : t := 1000 * Microsecond.
Definition Second : t := 1000 * Millisecond.

(** [func (d Duration) Truncate(m Duration) Duration]:
    [if m <= 0 { return d }; return d - d%m].  Go's [%] truncates toward
    zero, which is [Z.rem]. *)
Definition Truncate (d m : t) : t :=
  if m <=? 0 then d else Int64.wrap (d - Z.rem d m).

(** [byte(digit) + '0'] *)
Definition digit_byte (digit : Z) : ascii :=
  ascii_of_N (Z.to_N (digit + 48)).

(** [fmtFrac]: the loop writes [prec] digits of [v] from the right,
    skipping trailing zeros.  The buffer is filled from its end, so the
    text written so far is the accumulator and writing is consing. *)
Fixpoint fmtFrac_loop (prec : nat) (v : Z) (print : bool) (buf : string)
  : string * Z * bool :=
  match prec with
  | O => (buf, v, print)
  | S prec' =>
      let digit := v mod 10 in
      let print := print || negb (digit =? 0) in
      let buf := if print then String (digit_byte digit) buf else buf in
      fmtFrac_loop prec' (v / 10) print buf
  end.

Definition fmtFrac (buf : string) (v : Z) (prec : nat) : string * Z :=
  let '(buf, v, print) := fmtFrac_loop prec v false buf in
  (if print then String "." buf else buf, v).

(** [fmtInt]: [for v > 0 { w--; buf[w] = byte(v%10) + '0'; v /= 10 }].
    The loop runs once per decimal digit; a [uint64] has at most twenty. *)
Fixpoint fmtInt_loop (fuel : nat) (v : Z) (buf : string) : string :=
  match fuel with
  | O => buf
  | S fuel' =>
      if 0 <? v
      then fmtInt_loop fuel' (v / 10) (String (digit_byte (v mod 10)) buf)
      else buf
  end.

Definition fmtInt (buf : string) (v : Z) : string :=
  if v =? 0 then String "0" buf else fmtInt_loop 20 v buf.

(** The micro sign U+00B5 in UTF-8: the bytes 0xC2 0xB5. *)
Definition micro_sign : string :=
  String (ascii_of_N 194) (String (ascii_of_N 181) "").

(** [func (d Duration) String() string] *)
Definition String_ (d : t) : string :=
  let neg := d <? 0 in
  let u := if neg then - d else d in
  let body :=
    if u <? Second then
      if u =? 0 then "0s"
      else
        let '(unit, prec) :=
          if u <? Microsecond then ("ns", 0%nat)
          else if u <? Millisecond then ((micro_sign ++ "s")%string, 3%nat)
          else ("ms", 6%nat) in
        let '(buf, u) := fmtFrac unit u prec in
        fmtInt buf u
    else
      let '(buf, u) := fmtFrac "s" u 9 in
      let buf := fmtInt buf (u mod 60) in
      let u := u / 60 in
      if 0 <? u then
        let buf := fmtInt (String "m" buf) (u mod 60) in
        let u := u / 60 in
        if 0 <? u then fmtInt (String "h" buf) u else buf
      else buf in
  if neg then String "-" body else body.

End Duration.

(** The branch of the [switch] at log.go:198-205 taken for a response
    time, named by the resolution it truncates to. *)
Definition respResolution (d : Duration.t) : Duration.t :=
  if d >=? Duration.Second then 10 * Duration.Millisecond
  else if d >=? Duration.Millisecond then 10 * Duration.Microsecond
  else Duration.Microsecond.

(** The duration handed to [String()] at log.go:198-205. *)
Definition respTruncated (d : Duration.t) : Duration.t :=
  if d >=? Duration.Second then
    Duration.Truncate d (10 * Duration.Millisecond)
  else if d >=? Duration.Millisecond then
    Duration.Truncate d (10 * Duration.Microsecond)
  else
    Duration.Truncate d Duration.Microsecond.

(** The text of the response-time cell. *)
Definition respTimeText (d : Duration.t) : string :=
  Duration.String_ (respTruncated d).

(** ** Bytes *)

(** The numeric value of a byte, and [byte(x)]: the conversion of an
    integer to a byte keeps the low eight bits. *)
Definition byte_val (c : ascii) : Z := Z.of_N (N_of_ascii c).
Definition to_byte (x : Z) : ascii := ascii_of_N (Z.to_N (x mod 256)).

(** Slices [s[:n]] and [s[n:]] of a string.  They are only taken at
    offsets within the string; outside they saturate. *)
Fixpoint take (n : nat) (s : string) : string :=
  match n, s with
  | S n', String c s' => String c (take n' s')
  | _, _ => ""
  end.

Fixpoint drop (n : nat) (s : string) : string :=
  match n, s with
  | S n', String _ s' => drop n' s'
  | _, _ => s
  end.

Definition len (s : string) : Z := Z.of_nat (String.length s).

Definition slice_to (s : string) (j : Z) : string := take (Z.to_nat j) s.
Definition slice_from (s : string) (i : Z) : string := drop (Z.to_nat i) s.

Fixpoint bytes_of (s : string) : list Z :=
  match s with
  | "" => []
  | String c s' => byte_val c :: bytes_of s'
  end.

Fixpoint string_map (f : ascii -> ascii) (s : string) : string :=
  match s with
  | "" => ""
  | String c s' => String (f c) (string_map f s')
  end.

Fixpoint string_forallb (p : ascii -> bool) (s : string) : bool :=
  match s with
  | "" => true
  | String c s' => p c && string_forallb p s'
  end.

Fixpoint string_existsb (p : ascii -> bool) (s : string) : bool :=
  match s with
  | "" => false
  | String c s' => p c || string_existsb p s'
  end.

(** ** [unicode/utf8] *)

Module Utf8.

Definition RuneError : Z := 0xFFFD.
Definition RuneSelf : Z := 0x80.
Definition MaxRune : Z := 0x10FFFF.
Definition surrogateMin : Z := 0xD800.
Definition surrogateMax : Z := 0xDFFF.

Definition t2 : Z := 0xC0.
Definition t3 : Z := 0xE0.
Definition t4 : Z := 0xF0.
Definition tx : Z := 0x80.
Definition maskx : Z := 0x3F.
Definition mask2 : Z := 0x1F.
Definition mask3 : Z := 0x0F.
Definition mask4 : Z := 0x07.

Definition rune1Max : Z := 0x7F.
Definition rune2Max : Z := 0x7FF.
Definition rune3Max : Z := 0xFFFF.

Definition locb : Z := 0x80.
Definition hicb : Z := 0xBF.

(** The information the table [first] holds for a leading byte: ASCII,
    invalid, or the size of the sequence with the range accepted for its
    second byte. *)
Inductive lead : Type :=
| LeadASCII
| LeadInvalid
| LeadMulti (sz : nat) (lo hi : Z).

Definition first (s0 : Z) : lead :=
  if s0 <? 0x80 then LeadASCII
  else if s0 <? 0xC2 then LeadInvalid
  else if s0 <? 0xE0 then LeadMulti 2 locb hicb
  else if s0 =? 0xE0 then LeadMulti 3 0xA0 hicb
  else if s0 <? 0xED then LeadMulti 3 locb hicb
  else if s0 =? 0xED then LeadMulti 3 locb 0x9F
  else if s0 <? 0xF0 then LeadMulti 3 locb hicb
  else if s0 =? 0xF0 then LeadMulti 4 0x90 hicb
  else if s0 <? 0xF4 then LeadMulti 4 locb hicb
  else if s0 =? 0xF4 then LeadMulti 4 locb 0x8F
  else LeadInvalid.

(** [func DecodeRuneInString(s string) (rune, int)] *)
Definition DecodeRuneInString (s : string) : Z * nat :=
  match s with
  | "" => (RuneError, 0%nat)
  | String c0 s' =>
      let s0 := byte_val c0 in
      match first s0 with
      | LeadASCII => (s0, 1%nat)
      | LeadInvalid => (RuneError, 1%nat)
      | LeadMulti sz lo hi =>
          if (String.length s <? sz)%nat then (RuneError, 1%nat)
          else
            match s' with
            | "" => (RuneError, 1%nat)
            | String c1 s'' =>
                let s1 := byte_val c1 in
                if (s1 <? lo) || (hi <? s1) then (RuneError, 1%nat)
                else if (sz <=? 2)%nat then
                  (Z.lor (Z.shiftl (Z.land s0 mask2) 6) (Z.land s1 maskx),
                   2%nat)
                else
                  match s'' with
                  | "" => (RuneError, 1%nat)
                  | String c2 s''' =>
                      let s2 := byte_val c2 in
                      if (s2 <? locb) || (hicb <? s2) then (RuneError, 1%nat)
                      else if (sz <=? 3)%nat then
                        (Z.lor (Z.lor (Z.shiftl (Z.land s0 mask3) 12)
                                      (Z.shiftl (Z.land s1 maskx) 6))
                               (Z.land s2 maskx),
                         3%nat)
                      else
                        match s''' with
                        | "" => (RuneError, 1%nat)
                        | String c3 _ =>
                            let s3 := byte_val c3 in
                            if (s3 <? locb) || (hicb <? s3)
                            then (RuneError, 1%nat)
                            else
                              (Z.lor (Z.lor (Z.lor
                                 (Z.shiftl (Z.land s0 mask4) 18)
                                 (Z.shiftl (Z.land s1 maskx) 12))
                                 (Z.shiftl (Z.land s2 maskx) 6))
                                 (Z.land s3 maskx),
                               4%nat)
                        end
                  end
            end
      end
  end.

(** The runes a [for _, c := range s] loop visits: one per decoded
    sequence, [RuneError] for each byte that starts no valid sequence. *)
Fixpoint runes_loop (fuel : nat) (s : string) : list Z :=
  match fuel, s with
  | S fuel', String _ _ =>
      let '(r, size) := DecodeRuneInString s in
      r :: runes_loop fuel' (drop size s)
  | _, _ => []
  end.

Definition runes (s : string) : list Z := runes_loop (String.length s) s.

(** [func RuneCountInString(s string) int] *)
Definition RuneCountInString (s : string) : Z :=
  Z.of_nat (List.length (runes s)).

Definition enc3 (r : Z) : string :=
  String (to_byte (Z.lor t3 (byte_val (to_byte (Z.shiftr r 12)))))
 (String (to_byte (Z.lor tx (Z.land (byte_val (to_byte (Z.shiftr r 6))) maskx)))
 (String (to_byte (Z.lor tx (Z.land (byte_val (to_byte r)) maskx)))
  "")).

(** [func AppendRune(p []byte, r rune) []byte], the bytes appended.  The
    comparisons are on [uint32(r)], so a negative rune is out of range. *)
Definition EncodeRune (r : Z) : string :=
  let i := r mod 2 ^ 32 in
  if i <=? rune1Max then String (to_byte r) ""
  else if i <=? rune2Max then
    String (to_byte (Z.lor t2 (byte_val (to_byte (Z.shiftr r 6)))))
   (String (to_byte (Z.lor tx (Z.land (byte_val (to_byte r)) maskx)))
    "")
  else if (MaxRune <? i) || ((surrogateMin <=? i) && (i <=? surrogateMax))
  then enc3 RuneError
  else if i <=? rune3Max then enc3 r
  else
    String (to_byte (Z.lor t4 (byte_val (to_byte (Z.shiftr r 18)))))
   (String (to_byte (Z.lor tx (Z.land (byte_val (to_byte (Z.shiftr r 12))) maskx)))
   (String (to_byte (Z.lor tx (Z.land (byte_val (to_byte (Z.shiftr r 6))) maskx)))
   (String (to_byte (Z.lor tx (Z.land (byte_val (to_byte r)) maskx)))
    ""))).

End Utf8.

(** ** [unicode] *)

Module Unicode.

Definition MaxASCII : Z := 0x7F.

Section CaseTable.

(** [To(LowerCase, r)]: the lookup in the table [CaseRanges], which is
    data of the Go distribution.  [ToLower] consults it only for runes
    above [MaxASCII]. *)
Variable lowerCaseTable : Z -> Z.

(** [func ToLower(r rune) rune] *)
Definition ToLower (r : Z) : Z :=
  if r <=? MaxASCII then
    if (65 <=? r) && (r <=? 90) then r + (97 - 65) else r
  else lowerCaseTable r.

End CaseTable.

End Unicode.

(** ** [strings] *)

Module Strings.

(** [HasPrefix(s, prefix)] *)
Fixpoint HasPrefix (s prefix : string) : bool :=
  match prefix, s with
  | "", _ => true
  | String p prefix', String c s' => Ascii.eqb p c && HasPrefix s' prefix'
  | String _ _, "" => false
  end.

(** [Index(s, substr)]: the offset of the first instance of [substr] in
    [s], or [-1]. *)
Fixpoint Index (s substr : string) : Z :=
  if HasPrefix s substr then 0
  else
    match s with
    | "" => -1
    | String _ s' =>
        let i := Index s' substr in
        if i <? 0 then -1 else i + 1
    end.

(** [Count(s, substr)] for a non-empty [substr]: the loop
    [i := Index(s, substr); if i == -1 { return n }; n++;
     s = s[i+len(substr):]].  Each round consumes at least one byte. *)
Fixpoint Count_loop (fuel : nat) (s substr : string) (n : Z) : Z :=
  match fuel with
  | O => n
  | S fuel' =>
      let i := Index s substr in
      if i =? -1 then n
      else Count_loop fuel' (slice_from s (i + len substr)) substr (n + 1)
  end.

Definition Count (s substr : string) : Z :=
  if len substr =? 0 then Utf8.RuneCountInString s + 1
  else Count_loop (S (String.length s)) s substr 0.

(** [explode(s, n)]: [s] split into its UTF-8 sequences, at most [n]. *)
Fixpoint explode_loop (k : nat) (s : string) : list string :=
  match k with
  | O => [s]
  | S k' =>
      let '(_, size) := Utf8.DecodeRuneInString s in
      take size s :: explode_loop k' (drop size s)
  end.

Definition explode (s : string) (n : Z) : list string :=
  let l := Utf8.RuneCountInString s in
  let n := if (n <? 0) || (l <? n) then l else n in
  if 0 <? n then explode_loop (Z.to_nat (n - 1)) s else [].

(** The loop of [genSplit], run at most [n] times:
    [m := Index(s, sep); if m < 0 { break }; a[i] = s[:m+sepSave];
     s = s[m+len(sep):]], and after it [a[i] = s]. *)
Fixpoint genSplit_loop (n : nat) (s sep : string) (sepSave : Z) : list string :=
  match n with
  | O => [s]
  | S n' =>
      let m := Index s sep in
      if m <? 0 then [s]
      else slice_to s (m + sepSave)
           :: genSplit_loop n' (slice_from s (m + len sep)) sep sepSave
  end.

Definition genSplit (s sep : string) (sepSave n : Z) : list string :=
  if n =? 0 then []
  else if len sep =? 0 then explode s n
  else
    let n := if n <? 0 then Count s sep + 1 else n in
    let n := if len s + 1 <? n then len s + 1 else n in
    genSplit_loop (Z.to_nat (n - 1)) s sep sepSave.

(** [func SplitN(s, sep string, n int) []string] *)
Definition SplitN (s sep : string) (n : Z) : list string := genSplit s sep 0 n.

(** The loop of [Replace]: for each of the [n] replacements, copy up to
    the next instance of [old], write [new], and skip [old]; [first] is
    [i == 0], which matters for an empty [old] only. *)
Fixpoint Replace_loop (n : nat) (first : bool) (s old new : string) : string :=
  match n with
  | O => s
  | S n' =>
      let j :=
        if len old =? 0 then
          if first then 0
          else Z.of_nat (snd (Utf8.DecodeRuneInString s))
        else Index s old in
      (slice_to s j ++ new
         ++ Replace_loop n' false (slice_from s (j + len old)) old new)%string
  end.

(** [func Replace(s, old, new string, n int) string] *)
Definition Replace (s old new : string) (n : Z) : string :=
  if String.eqb old new || (n =? 0) then s
  else
    let m := Count s old in
    if m =? 0 then s
    else
      let n := if (n <? 0) || (m <? n) then m else n in
      Replace_loop (Z.to_nat n) true s old new.

(** [func ReplaceAll(s, old, new string) string] *)
Definition ReplaceAll (s old new : string) : string := Replace s old new (-1).

(** [func Map(mapping func(rune) rune, s string) string]: every rune of
    [s] replaced by its image, dropped when the image is negative.  A
    byte that starts no valid sequence is visited as [RuneError]. *)
Definition Map (mapping : Z -> Z) (s : string) : string :=
  String.concat ""
    (List.map (fun c => let r := mapping c in
                        if 0 <=? r then Utf8.EncodeRune r else "")
              (Utf8.runes s)).

Definition is_upper_byte (c : ascii) : bool :=
  (65 <=? byte_val c) && (byte_val c <=? 90).

Definition lower_byte (c : ascii) : ascii :=
  if is_upper_byte c then to_byte (byte_val c + (97 - 65)) else c.

Section CaseTable.

Variable lowerCaseTable : Z -> Z.

(** [func ToLower(s string) string]: ASCII-only strings are lowered byte
    by byte (and returned as they are when they hold no upper-case
    letter); any other string goes through [Map(unicode.ToLower, s)]. *)
Definition ToLower (s : string) : string :=
  let isASCII := string_forallb (fun c => byte_val c <? Utf8.RuneSelf) s in
  let hasUpper := string_existsb is_upper_byte s in
  if isASCII then
    if negb hasUpper then s else string_map lower_byte s
  else Map (Unicode.ToLower lowerCaseTable) s.

End CaseTable.

End Strings.

(** ** [fmt] *)

Module Fmt.

(** The digit loop of [fmtInteger] in base ten:
    [for u >= 10 { next := u / 10; buf[i] = '0' + u - next*10; u = next }],
    then the last digit.  An [int] has at most nineteen digits. *)
Fixpoint digits_loop (fuel : nat) (u : Z) (buf : string) : string :=
  match fuel with
  | O => String (to_byte (48 + u)) buf
  | S fuel' =>
      if 10 <=? u then
        let next := u / 10 in
        digits_loop fuel' next (String (to_byte (48 + u - next * 10)) buf)
      else String (to_byte (48 + u)) buf
  end.

Fixpoint zeros (n : nat) (buf : string) : string :=
  match n with
  | O => buf
  | S n' => String "0" (zeros n' buf)
  end.

(** [fmtInteger] for the verb [%d] with an optional zero-padded width:
    the sign takes one column of the width, zeros fill the rest. *)
Definition fmtInteger (v : Z) (zeroWidth : option nat) : string :=
  let negative := v <? 0 in
  let u := if negative then - v else v in
  let prec :=
    match zeroWidth with
    | Some wid => if negative then Nat.pred wid else wid
    | None => 0%nat
    end in
  let buf := digits_loop 19 u "" in
  let buf := zeros (prec - String.length buf) buf in
  if negative then String "-" buf else buf.

(** [%d] *)
Definition d (v : Z) : string := fmtInteger v None.

(** [%02d] *)
Definition d02 (v : Z) : string := fmtInteger v (Some 2%nat).

(** [%v] of an [error]: its message, or [<nil>]. *)
Definition v_error (err : option string) : string :=
  match err with
  | Some msg => msg
  | None => "<nil>"
  end.

(** [fmt.Sprintf("%02d:%02d:%02d", hh, mm, ss)] *)
Definition clock (hh mm ss : Z) : string :=
  (d02 hh ++ ":" ++ d02 mm ++ ":" ++ d02 ss)%string.

End Fmt.

(** ** [fatih/color] and [xterm] *)

(** The two attributes log.go builds with [color.New]. *)
Inductive color : Type :=
| FgGreen
| FgRed.

Module Xterm.

Inductive alignment : Type :=
| AlignLeft
| AlignCenter.

(** Modelled from the spec: the package [internal/xterm] (the types [Cell]
    and [Table] with [NewCell], [NewTable], [Header], [AddRow], [Draw]) is
    not among the sources.  A Cell is display text with an optional color
    attribute and a horizontal alignment. *)
Record Cell : Type := mkCell {
  Text : string;
  Color : option color;
  CellAlignment : alignment
}.

(** Modelled from the spec: a Header is a column name, a fractional width
    and an alignment.  The width is a [float64]. *)
Record HeaderCell : Type := mkHeader {
  Name : string;
  Width : float;
  Alignment : alignment
}.

Definition Row : Type := list Cell.

(** Modelled from the spec: a Table is an ordered sequence of Headers,
    fixed at construction, and the ordered sequence of currently buffered
    Rows, which grows as events arrive and whose oldest rows scroll off
    (see [AddRow]). *)
Record Table : Type := mkTable {
  header : list HeaderCell;
  rows : list Row
}.

(** Modelled from the spec: [NewCell(text)], a cell with no color.  The
    spec leaves the initial alignment of a cell open; nothing below
    depends on it. *)
Definition NewCell (text : string) : Cell := mkCell text None AlignLeft.

(** Modelled from the spec: [NewTable(names...)], one header per name and
    no row.  The spec leaves the initial width and alignment open; log.go
    assigns both for every column before the first draw. *)
Definition NewTable (names : list string) : Table :=
  mkTable (List.map (fun n => mkHeader n 0%float AlignLeft) names) [].

(** The last [n] elements of a list, all of it when it has no more. *)
Definition lastn {A} (n : nat) (l : list A) : list A :=
  skipn (List.length l - n) l.

(** Modelled from the spec: [add_row] appends to the buffered row
    sequence and does not paint.  The capacity of the buffer is bounded
    by the visible terminal height: it is [visible], the number of rows
    the window shows when the row is added, and the oldest rows scroll
    off. *)
Definition AddRow (visible : nat) (t : Table) (cells : Row) : Table :=
  mkTable (header t) (lastn visible (rows t ++ [cells])).

(** Modelled from the spec: [draw] is a pure repaint from the current
    Table state: it returns what is painted, the header row followed by
    the buffered rows that the terminal height leaves visible, and the
    Table is as it was. *)
Definition Draw (height : nat) (t : Table) : list HeaderCell * list Row :=
  (header t, skipn (List.length (rows t) - height) (rows t)).

(** [table.Header()[i].Width = w]: an index out of range panics, which is
    [None]. *)
Fixpoint update_nth {A} (i : nat) (f : A -> A) (l : list A) : option (list A) :=
  match i, l with
  | O, x :: l' => Some (f x :: l')
  | S i', x :: l' => option_map (cons x) (update_nth i' f l')
  | _, [] => None
  end.

Definition setWidth (i : nat) (w : float) (t : Table) : option Table :=
  option_map (fun h => mkTable h (rows t))
    (update_nth i (fun c => mkHeader (Name c) w (Alignment c)) (header t)).

Definition setAlignment (i : nat) (a : alignment) (t : Table) : option Table :=
  option_map (fun h => mkTable h (rows t))
    (update_nth i (fun c => mkHeader (Name c) (Width c) a) (header t)).

End Xterm.

Definition setColor (c : color) (cell : Xterm.Cell) : Xterm.Cell :=
  Xterm.mkCell (Xterm.Text cell) (Some c) (Xterm.CellAlignment cell).

(** Sequencing of statements that may panic. *)
Definition obind {A B} (m : option A) (k : A -> option B) : option B :=
  match m with
  | Some a => k a
  | None => None
  end.

Notation "x <-? m ;; k" := (obind m (fun x => k))
  (at level 61, m at next level, right associativity).

(** ** Log events *)

(** [kes.AuditEvent], the fields log.go reads.  [Time.Clock()] is the
    event time's hour, minute and second in its own location. *)
Record AuditEvent : Type := mkAuditEvent {
  TimeClock : Z * Z * Z;
  RequestIdentity : string;
  RequestPath : string;
  ResponseStatusCode : Z;
  ResponseTime : Duration.t
}.

(** [kes.ErrorEvent] *)
Record ErrorEvent : Type := mkErrorEvent {
  Message : string
}.

Definition StatusOK : Z := 200.

(** ** The table headers (log.go:138-149 and 221-226) *)

Definition auditTable : option Xterm.Table :=
  let table := Xterm.NewTable ["Time"; "Identity"; "Status"; "API Operations";
                               "Response"] in
  table <-? Xterm.setWidth 0 0.12%float table ;;
  table <-? Xterm.setWidth 1 0.15%float table ;;
  table <-? Xterm.setWidth 2 0.15%float table ;;
  table <-? Xterm.setWidth 3 0.45%float table ;;
  table <-? Xterm.setWidth 4 0.12%float table ;;
  table <-? Xterm.setAlignment 0 Xterm.AlignCenter table ;;
  table <-? Xterm.setAlignment 1 Xterm.AlignCenter table ;;
  table <-? Xterm.setAlignment 2 Xterm.AlignCenter table ;;
  table <-? Xterm.setAlignment 3 Xterm.AlignLeft table ;;
  Xterm.setAlignment 4 Xterm.AlignCenter table.

Definition errorTable : option Xterm.Table :=
  let table := Xterm.NewTable ["Time"; "Error"] in
  table <-? Xterm.setWidth 0 0.12%float table ;;
  table <-? Xterm.setWidth 1 0.87%float table ;;
  table <-? Xterm.setAlignment 0 Xterm.AlignCenter table ;;
  Xterm.setAlignment 1 Xterm.AlignLeft table.

(** The sum of the widths as [float64] arithmetic computes it, left to
    right, and as the exact rational sum of the [float64] values. *)
Definition widthSum (t : Xterm.Table) : float :=
  fold_left PrimFloat.add (List.map Xterm.Width (Xterm.header t)) 0%float.

Definition float_exact (x : float) : option Q :=
  match Prim2SF x with
  | S754_zero _ => Some 0%Q
  | S754_finite s m e =>
      let mag := (inject_Z (Zpos m) * Qpower 2 e)%Q in
      Some (if s then Qopp mag else mag)
  | _ => None
  end.

Fixpoint exactSum (ws : list float) : option Q :=
  match ws with
  | [] => Some 0%Q
  | w :: ws' =>
      q <-? float_exact w ;;
      qs <-? exactSum ws' ;;
      Some (q + qs)%Q
  end.

Definition widthExactSum (t : Xterm.Table) : option Q :=
  exactSum (List.map Xterm.Width (Xterm.header t)).

(** ** The row formatters *)

Section Formatters.

(** [http.StatusText], a table of the Go distribution. *)
Variable StatusText : Z -> string.

(** The loop body of [traceAuditLogWithUI] up to [table.AddRow]
    (log.go:180-207): the five cells in the order they are added. *)
Definition auditRow (event : AuditEvent) : Xterm.Row :=
  let '(hh, mm, ss) := TimeClock event in
  let identity := Xterm.NewCell (RequestIdentity event) in
  let status := Xterm.NewCell
    (Fmt.d (ResponseStatusCode event) ++ " "
       ++ StatusText (ResponseStatusCode event))%string in
  let path := Xterm.NewCell (RequestPath event) in
  let reqTime := Xterm.NewCell (Fmt.clock hh mm ss) in
  let status :=
    if ResponseStatusCode event =? StatusOK
    then setColor FgGreen status
    else setColor FgRed status in
  let respTime :=
    if ResponseTime event >=? Duration.Second then
      Xterm.NewCell (Duration.String_
        (Duration.Truncate (ResponseTime event) (10 * Duration.Millisecond)))
    else if ResponseTime event >=? Duration.Millisecond then
      Xterm.NewCell (Duration.String_
        (Duration.Truncate (ResponseTime event) (10 * Duration.Microsecond)))
    else
      Xterm.NewCell (Duration.String_
        (Duration.Truncate (ResponseTime event) Duration.Microsecond)) in
  [reqTime; identity; status; path; respTime].

End Formatters.

Definition newline : string := String (ascii_of_N 10) "".

(** [segments[i]]: an index out of range panics, which is [None]. *)
Definition index {A} (l : list A) (i : nat) : option A := nth_error l i.

(** The loop body of [traceErrorLogWithUI] up to [table.AddRow]
    (log.go:260-274).  [now] is what [time.Now().Clock()] returns when the
    event is formatted. *)
Definition errorRow (now : Z * Z * Z) (event : ErrorEvent)
  : option Xterm.Row :=
  let segments := Strings.SplitN (Message event) " " 3 in
  if (List.length segments =? 3)%nat then
    seg2 <-? index segments 2 ;;
    let message := Xterm.NewCell (Strings.ReplaceAll seg2 newline " ") in
    seg1 <-? index segments 1 ;;
    let reqTime := Xterm.NewCell seg1 in
    Some [reqTime; message]
  else
    let '(hh, mm, ss) := now in
    let message :=
      Xterm.NewCell (Strings.ReplaceAll (Message event) newline " ") in
    let reqTime := Xterm.NewCell (Fmt.clock hh mm ss) in
    Some [reqTime; message].

(** ** Statements with effects: goroutines, [defer] and [os.Exit] *)

(** The concurrent activities of a trace session: the goroutine that runs
    [logTrace], the one that polls the terminal's events, and the one
    [closeOn] starts to wait for a signal.  Beside them stands the user of
    the terminal, who may at any moment resize the window, so that it
    shows some number of rows of the table. *)
Inductive actor : Type :=
| Consumer
| Listener
| SignalWatcher
| Window (visible : nat).

Definition actor_eqb (a b : actor) : bool :=
  match a, b with
  | Consumer, Consumer | Listener, Listener
  | SignalWatcher, SignalWatcher => true
  | Window h, Window h' => Nat.eqb h h'
  | _, _ => false
  end.

(** The argument of the one verb in each message log.go prints. *)
Inductive fmt_arg : Type :=
| NoArg
| ArgError (err : option string)   (* %v of an error *)
| ArgQuoted (s : string).          (* %q of a string *)

(** The calls log.go makes on the terminal, the table, the stream and the
    process.  A goroutine is the sequence of calls it makes. *)
Inductive action : Type :=
| UiInit
| UiClose
| TableNew (t : Xterm.Table)
| TableAddRow (r : Xterm.Row)
| TableDraw                          (* paints the table on standard output *)
| StreamClose
| Stdout (line : string)             (* fmt.Println(line) *)
| Stderr (format : string) (arg : fmt_arg)
| Go (who : actor) (body : list action)
| OsExit (code : Z).

(** How a function body ends: it returns, the process exits ([os.Exit],
    which runs no deferred call), or it panics. *)
Inductive ctl (A : Type) : Type :=
| Return (a : A)
| Exited (code : Z)
| Panicked.

Arguments Return {A} a.
Arguments Exited {A} code.
Arguments Panicked {A}.

(** A statement maps the stack of deferred calls of the enclosing function
    to its outcome, the calls it made and the new stack. *)
Definition M (A : Type) : Type :=
  list action -> ctl A * list action * list action.

Definition ret {A} (a : A) : M A := fun ds => (Return a, [], ds).

Definition bind {A B} (m : M A) (k : A -> M B) : M B :=
  fun ds =>
    match m ds with
    | (Return a, out, ds') =>
        let '(c, out', ds'') := k a ds' in (c, out ++ out', ds'')
    | (Exited code, out, ds') => (Exited code, out, ds')
    | (Panicked, out, ds') => (Panicked, out, ds')
    end.

Notation "x <- m ;; k" := (bind m (fun x => k))
  (at level 61, m at next level, right associativity).
Notation "m ;;; k" := (bind m (fun _ => k))
  (at level 61, right associativity).

Definition emit (a : action) : M unit := fun ds => (Return tt, [a], ds).

(** [defer f()] *)
Definition defer (a : action) : M unit := fun ds => (Return tt, [], a :: ds).

(** [os.Exit(code)] *)
Definition osExit (code : Z) : M unit :=
  fun ds => (Exited code, [OsExit code], ds).

(** A statement that panics when its value is [None]. *)
Definition orPanic {A} (o : option A) : M A :=
  fun ds =>
    match o with
    | Some a => (Return a, [], ds)
    | None => (Panicked, [], ds)
    end.

(** A function call: the body runs with a stack of its own; the deferred
    calls run, last deferred first, when it returns or panics, and do not
    run when the process exits. *)
Definition call {A} (body : M A) : M A :=
  fun ds =>
    match body [] with
    | (Return a, out, ds') => (Return a, out ++ ds', ds)
    | (Exited code, out, _) => (Exited code, out, ds)
    | (Panicked, out, ds') => (Panicked, out ++ ds', ds)
    end.

(** [stdlog.Fatalf(format, arg)]: [Print] followed by [os.Exit(1)]. *)
Definition Fatalf (format : string) (arg : fmt_arg) : M unit :=
  emit (Stderr format arg) ;;; osExit 1.

(** [for _, x := range xs { body }] and [for stream.Next() { body }] over
    what the stream delivers. *)
Fixpoint forEach {A} (xs : list A) (body : A -> M unit) : M unit :=
  match xs with
  | [] => ret tt
  | x :: xs' => body x ;;; forEach xs' body
  end.

(** ** The collaborators *)

(** What one iteration of [for stream.Next()] sees: the event, its raw
    bytes, and the local wall clock when it is handled. *)
Record delivery (E : Type) : Type := mkDelivery {
  event : E;
  bytes : string;
  clock : Z * Z * Z
}.

Arguments mkDelivery {E} event bytes clock.
Arguments event {E} d.
Arguments bytes {E} d.
Arguments clock {E} d.

(** Modelled from the spec: [kes.AuditStream] and [kes.ErrorStream] are
    not among the sources.  A stream is consumed through [next], [event],
    [err] and [close]: [next] returns true once per delivered event and
    then false; [err] is non-none iff the stream ended abnormally; [close]
    may return an error to its caller.  One session's stream is given by
    what these calls return. *)
Record Stream (E : Type) : Type := mkStream {
  delivered : list (delivery E);
  Err : option string;
  CloseErr : option string
}.

Arguments mkStream {E} delivered Err CloseErr.
Arguments delivered {E} s.
Arguments Err {E} s.
Arguments CloseErr {E} s.

(** [termui.Event], the fields log.go reads. *)
Inductive EventType : Type :=
| KeyboardEvent
| MouseEvent
| ResizeEvent.

Record UiEvent : Type := mkUiEvent {
  Type_ : EventType;
  ID : string
}.

(** The terminal of one session: what [ui.Init()] returns and the events
    that arrive on [ui.PollEvents()]. *)
Record Terminal : Type := mkTerminal {
  InitErr : option string;
  polled : list UiEvent
}.

Definition is_resize (e : UiEvent) : bool :=
  match Type_ e with
  | ResizeEvent => true
  | _ => false
  end.

(** The goroutine of log.go:159-172 and 236-249: a resize event draws the
    table, <C-c> or <Escape> closes the stream (reporting the error of
    [Close]) and ends the goroutine, any other event is skipped. *)
Fixpoint listener (format : string) (closeErr : option string)
    (events : list UiEvent) : list action :=
  match events with
  | [] => []
  | ev :: events' =>
      if is_resize ev then TableDraw :: listener format closeErr events'
      else if String.eqb (ID ev) "<C-c>" || String.eqb (ID ev) "<Escape>" then
        StreamClose ::
          match closeErr with
          | Some err => [Stderr format (ArgError (Some err))]
          | None => []
          end
      else listener format closeErr events'
  end.

(** ** [traceAuditLogWithUI] and [traceErrorLogWithUI] *)

Section Program.

Variable StatusText : Z -> string.
Variable lowerCaseTable : Z -> Z.

Definition traceAuditLogWithUI (term : Terminal) (stream : Stream AuditEvent)
  : M unit :=
  call (
    table <- orPanic auditTable ;;
    emit (TableNew table) ;;;
    match InitErr term with
    | Some err => Fatalf "Error: %v" (ArgError (Some err))
    | None => emit UiInit
    end ;;;
    defer TableDraw ;;;
    defer UiClose ;;;
    emit (Go Listener
            (listener "Error: audit log stream closed with: %v"
                      (CloseErr stream) (polled term))) ;;;
    emit TableDraw ;;;
    forEach (delivered stream) (fun d =>
      emit (TableAddRow (auditRow StatusText (event d))) ;;;
      emit TableDraw) ;;;
    match Err stream with
    | Some err =>
        Fatalf "Error: audit log stream closed with: %v" (ArgError (Some err))
    | None => ret tt
    end).

Definition traceErrorLogWithUI (term : Terminal) (stream : Stream ErrorEvent)
  : M unit :=
  call (
    table <- orPanic errorTable ;;
    emit (TableNew table) ;;;
    match InitErr term with
    | Some err => Fatalf "Error: %v" (ArgError (Some err))
    | None => emit UiInit
    end ;;;
    defer TableDraw ;;;
    defer UiClose ;;;
    emit (Go Listener
            (listener "Error: error log stream closed with: %v"
                      (CloseErr stream) (polled term))) ;;;
    emit TableDraw ;;;
    forEach (delivered stream) (fun d =>
      row <- orPanic (errorRow (clock d) (event d)) ;;
      emit (TableAddRow row) ;;;
      emit TableDraw) ;;;
    match Err stream with
    | Some err =>
        Fatalf "Error: error log stream closed with: %v" (ArgError (Some err))
    | None => ret tt
    end).

(** ** [closeOn] and [logTrace] *)

(** [closeOn(c, signals...)]: a goroutine that waits for one of the
    signals, closes the stream and writes the error of [Close], if any,
    to standard error. *)
Definition closeOn (closeErr : option string) (signalled : bool) : M unit :=
  emit (Go SignalWatcher
          (if signalled then
             StreamClose ::
               match closeErr with
               | Some err => [Stderr "%v" (ArgError (Some err))]
               | None => []
               end
           else [])).

(** The command line after [cli.Parse], and what the process finds around
    it: whether standard output is a terminal, what [client.AuditLog()] and
    [client.ErrorLog()] return, the terminal, and whether an interrupt
    arrives for the handler that [closeOn] installs.  log.go installs that
    handler in the branch without UI only (lines 104 and 120): an
    interrupt in a UI session ends the process by the runtime's default,
    at a moment of its own and with no deferred call run.  Such a run is
    not among those [logTrace] below describes, and a statement about
    what a UI session does to its end takes [signalled inv = false]. *)
Record Invocation : Type := mkInvocation {
  typeFlag : string;
  jsonOutput : bool;
  insecureSkipVerify : bool;
  NArg : Z;
  stdoutIsTerm : bool;
  auditLog : string + Stream AuditEvent;
  errorLog : string + Stream ErrorEvent;
  terminal : Terminal;
  signalled : bool
}.

(** The type of log the [switch] of log.go:95 selects. *)
Inductive mode : Type :=
| ModeAudit
| ModeError
| ModeInvalid.

Definition selectMode (typeFlag : string) : mode :=
  let t := Strings.ToLower lowerCaseTable typeFlag in
  if String.eqb t "audit" then ModeAudit
  else if String.eqb t "error" then ModeError
  else ModeInvalid.

(** [logTrace] after [cli.Parse].  [newClient] is defined in another file
    of the command; the client it returns is represented by what
    [client.AuditLog()] and [client.ErrorLog()] return.  An interrupt
    reaches [logTrace] through the handler of [closeOn] only, which the
    branch with the UI does not install (see [Invocation]). *)
Definition logTrace (inv : Invocation) : M unit :=
  call (
    (if 0 <? NArg inv
     then Fatalf "Error: too many arguments" NoArg
     else ret tt) ;;;
    match selectMode (typeFlag inv) with
    | ModeAudit =>
        match auditLog inv with
        | inl err =>
            Fatalf "Error: failed to connect to audit log: %v"
                   (ArgError (Some err))
        | inr stream =>
            defer StreamClose ;;;
            if negb (stdoutIsTerm inv) || jsonOutput inv then
              closeOn (CloseErr stream) (signalled inv) ;;;
              forEach (delivered stream) (fun d => emit (Stdout (bytes d))) ;;;
              Fatalf "Error: audit log closed with: %v"
                     (ArgError (Err stream)) ;;;
              ret tt
            else traceAuditLogWithUI (terminal inv) stream
        end
    | ModeError =>
        match errorLog inv with
        | inl err =>
            Fatalf "Error: failed to connect to error log: %v"
                   (ArgError (Some err))
        | inr stream =>
            defer StreamClose ;;;
            (if negb (stdoutIsTerm inv) || jsonOutput inv then
               closeOn (CloseErr stream) (signalled inv) ;;;
               forEach (delivered stream) (fun d => emit (Stdout (bytes d))) ;;;
               Fatalf "Error: error log closed with: %v"
                      (ArgError (Err stream))
             else ret tt) ;;;
            traceErrorLogWithUI (terminal inv) stream
        end
    | ModeInvalid =>
        Fatalf "Error: invalid log type --type: %q" (ArgQuoted (typeFlag inv))
    end).

End Program.

(** The exit status of the process whose [main] ends as [c] does: zero
    when it returns, two when it panics. *)
Definition exitCode {A} (c : ctl A) : Z :=
  match c with
  | Return _ => 0
  | Exited code => code
  | Panicked => 2
  end.

(** Running a function of [main]'s goroutine from an empty stack. *)
Definition outcome {A} (m : M A) : ctl A := fst (fst (m [])).
Definition calls {A} (m : M A) : list action := snd (fst (m [])).

(** ** The process: goroutines interleaved on one table *)

(** The calls of [main]'s goroutine for a function [m] that [main] runs:
    when [m] returns (or panics) the process ends with the status of
    [exitCode]. *)
Definition program {A} (m : M A) : list action :=
  calls m ++
  match outcome m with
  | Exited _ => []
  | c => [OsExit (exitCode c)]
  end.

(** A state of the process: the calls [main]'s goroutine has still to
    make, the goroutines started so far with theirs, the table they share,
    the number of rows the window shows, the calls made so far with who
    made each, and the exit status once the process has ended. *)
Record config : Type := mkConfig {
  consumer : list action;
  spawned : list (actor * list action);
  table : option Xterm.Table;
  visibleRows : nat;
  history : list (actor * action);
  status : option Z
}.

(** The window shows no row until its user gives it a size. *)
Definition start (main : list action) : config :=
  mkConfig main [] None 0 [] None.

(** The effect of one call on the shared table, in a window that shows
    [visible] rows.  [Table.Draw] paints [Xterm.Draw] of the table and
    leaves it as it is. *)
Definition applyTable (visible : nat) (t : option Xterm.Table) (a : action)
  : option Xterm.Table :=
  match a with
  | TableNew t' => Some t'
  | TableAddRow r => option_map (fun t => Xterm.AddRow visible t r) t
  | _ => t
  end.

(** The next call of a started goroutine, with the goroutines that
    remain. *)
Fixpoint pick (who : actor) (gs : list (actor * list action))
  : option (action * list (actor * list action)) :=
  match gs with
  | [] => None
  | (w, body) :: gs' =>
      if actor_eqb w who then
        match body with
        | a :: body' => Some (a, (w, body') :: gs')
        | [] => option_map (fun '(a, rest) => (a, (w, body) :: rest))
                           (pick who gs')
        end
      else option_map (fun '(a, rest) => (a, (w, body) :: rest)) (pick who gs')
  end.

(** One call made by [who].  [os.Exit] ends the process, whoever calls
    it, and with it every goroutine. *)
Definition perform (who : actor) (a : action) (c : config) : config :=
  let hist := history c ++ [(who, a)] in
  match a with
  | OsExit code => mkConfig [] [] (table c) (visibleRows c) hist (Some code)
  | Go w body =>
      mkConfig (consumer c) (spawned c ++ [(w, body)]) (table c)
               (visibleRows c) hist (status c)
  | _ =>
      mkConfig (consumer c) (spawned c)
               (applyTable (visibleRows c) (table c) a) (visibleRows c)
               hist (status c)
  end.

(** The scheduler lets [who] make its next call; [None] when [who] has
    none or the process has ended.  The user of the window makes no call:
    after a step of [Window visible] the window shows [visible] rows. *)
Definition step (who : actor) (c : config) : option config :=
  match status c with
  | Some _ => None
  | None =>
      match who with
      | Consumer =>
          match consumer c with
          | a :: rest =>
              Some (perform Consumer a
                      (mkConfig rest (spawned c) (table c) (visibleRows c)
                                (history c) (status c)))
          | [] => None
          end
      | Window visible =>
          Some (mkConfig (consumer c) (spawned c) (table c) visible
                         (history c) (status c))
      | _ =>
          match pick who (spawned c) with
          | Some (a, gs) =>
              Some (perform who a
                      (mkConfig (consumer c) gs (table c) (visibleRows c)
                                (history c) (status c)))
          | None => None
          end
      end
  end.

(** A schedule names who runs at each step. *)
Fixpoint run (sched : list actor) (c : config) : option config :=
  match sched with
  | [] => Some c
  | who :: sched' => c' <-? step who c ;; run sched' c'
  end.

(** Who called [Table.Draw] in a history, and which calls change the
    table's state. *)
Definition is_draw (a : action) : bool :=
  match a with
  | TableDraw => true
  | _ => false
  end.

Definition mutates_table (a : action) : bool :=
  match a with
  | TableNew _ | TableAddRow _ => true
  | _ => false
  end.

Definition painters (h : list (actor * action)) : list actor :=
  List.map fst (List.filter (fun p => is_draw (snd p)) h).

Definition is_os_exit (a : action) : bool :=
  match a with
  | OsExit _ => true
  | _ => false
  end.

(** Calls that leave the table's state alone and start nothing. *)
Definition quiet (a : action) : bool :=
  match a with
  | TableNew _ | TableAddRow _ | Go _ _ | OsExit _ => false
  | _ => true
  end.

(** ** Vocabulary of the statements *)

(** How often a byte occurs in a string. *)
Fixpoint count_byte (c : ascii) (s : string) : nat :=
  match s with
  | "" => O
  | String x s' => (if Ascii.eqb c x then 1 else 0) + count_byte c s'
  end.

Definition space : ascii := " "%char.
Definition linefeed : ascii := ascii_of_N 10.

(** A newline becomes one space; every other byte stays. *)
Definition nl_to_space (c : ascii) : ascii :=
  if Ascii.eqb linefeed c then space else c.

(** The row of a delivered error event. *)
Definition errorRowOf (d : delivery ErrorEvent) : Xterm.Row :=
  match errorRow (clock d) (event d) with
  | Some row => row
  | None => []
  end.

(** The calls of a UI session whose terminal initialises: the table, the
    terminal, the listener, a first draw, a row and a draw per event, and
    then either the fatal report or the deferred calls. *)
Definition uiCalls (t : Xterm.Table) (listenerBody : list action)
    (rows : list Xterm.Row) (fatalFormat : string) (err : option string)
  : list action :=
  [TableNew t; UiInit; Go Listener listenerBody; TableDraw]
  ++ flat_map (fun r => [TableAddRow r; TableDraw]) rows
  ++ match err with
     | Some e => [Stderr fatalFormat (ArgError (Some e)); OsExit 1]
     | None => [UiClose; TableDraw]
     end.


(** Every goroutine a sequence of calls starts is quiet. *)
Definition starts_quiet (l : list action) : bool :=
  forallb (fun a => match a with
                    | Go _ body => forallb quiet body
                    | _ => true
                    end) l.

(** All calls to [Table.Draw] in a history come from one activity. *)
Definition single_painter (h : list (actor * action)) : Prop :=
  forall w1 w2, In w1 (painters h) -> In w2 (painters h) -> w1 = w2.

(** The table with every row handed to it so far, as if none had
    scrolled off: what the buffered rows are compared with. *)
Definition handed (t : option Xterm.Table) (a : action)
  : option Xterm.Table :=
  match a with
  | TableNew t' => Some t'
  | TableAddRow r =>
      option_map (fun t => Xterm.mkTable (Xterm.header t)
                                         (Xterm.rows t ++ [r])) t
  | _ => t
  end.

(** A table keeps the most recent of the rows handed to it: its rows are
    those from some row on, in their order. *)
Definition kept (all now : option Xterm.Table) : Prop :=
  match all, now with
  | None, None => True
  | Some A, Some T =>
      Xterm.header T = Xterm.header A /\
      exists j, (j <= List.length (Xterm.rows A))%nat /\
                Xterm.rows T = skipn j (Xterm.rows A)
  | _, _ => False
  end.

(** A table keeps the last [h] of the rows handed to it. *)
Definition keptLast (h : nat) (all now : option Xterm.Table) : Prop :=
  match all, now with
  | None, None => True
  | Some A, Some T =>
      Xterm.header T = Xterm.header A /\
      Xterm.rows T = Xterm.lastn h (Xterm.rows A)
  | _, _ => False
  end.



(** The calls an activity has made, in the order it made them. *)
Definition callsOf (w : actor) (h : list (actor * action)) : list action :=
  List.map snd (List.filter (fun p => actor_eqb (fst p) w) h).

(** The calls of the goroutines that a sequence of calls starts for [w],
    and those the goroutines of [w] have still to make. *)
Fixpoint goBodies (w : actor) (l : list action) : list action :=
  match l with
  | [] => []
  | Go w' body :: l' =>
      (if actor_eqb w' w then body else []) ++ goBodies w l'
  | _ :: l' => goBodies w l'
  end.

Definition pending (w : actor) (gs : list (actor * list action))
  : list action :=
  flat_map snd (List.filter (fun g => actor_eqb (fst g) w) gs).

(** What holds of every state a process reaches from [start main]:
    started goroutines are quiet and come from a [go] statement of [main];
    every call in the history was made by [main]'s goroutine from its own
    calls, or by a started goroutine from its body; and the table keeps
    the most recent of the rows that the calls [main]'s goroutine has made
    so far handed to it. *)
Definition reached (main : list action) (c : config) : Prop :=
  (forall w body,
     In (w, body) (spawned c) ->
     forallb quiet body = true /\
     exists body0, In (Go w body0) main /\ incl body body0) /\
  (forall w a,
     In (w, a) (history c) ->
     (w = Consumer /\ In a main) \/
     (exists body0, In (Go w body0) main /\ In a body0 /\ quiet a = true)) /\
  exists pre,
    kept (fold_left handed pre None) (table c) /\
    forallb (fun a => negb (is_os_exit a)) pre = true /\
    ((status c = None /\ main = pre ++ consumer c) \/
     (exists code post,
        status c = Some code /\ consumer c = [] /\
        main = pre ++ OsExit code :: post)).


(** The order of the calls: [main]'s goroutine has made its calls in
    the order of [main], up to its [os.Exit]; and the goroutines started
    for an activity have made theirs in the order of their bodies, with
    the rest still to make while the process runs. *)
Definition in_order (main : list action) (c : config) : Prop :=
  exists pre,
    forallb (fun a => negb (is_os_exit a)) pre = true /\
    ((status c = None /\ main = pre ++ consumer c /\
      callsOf Consumer (history c) = pre /\
      forall w, w <> Consumer ->
                callsOf w (history c) ++ pending w (spawned c)
                = goBodies w pre) \/
     (exists code post,
        status c = Some code /\ main = pre ++ OsExit code :: post /\
        callsOf Consumer (history c) = pre ++ [OsExit code] /\
        forall w, w <> Consumer ->
                  exists rest, callsOf w (history c) ++ rest
                               = goBodies w pre)).

(** The calls of a UI session between the creation of the table and the
    end of the process, and the status the process ends with. *)
Definition uiBody (listenerBody : list action) (rows : list Xterm.Row)
    (fatalFormat : string) (err : option string) : list action :=
  [UiInit; Go Listener listenerBody; TableDraw]
  ++ flat_map (fun r => [TableAddRow r; TableDraw]) rows
  ++ match err with
     | Some e => [Stderr fatalFormat (ArgError (Some e))]
     | None => [UiClose; TableDraw]
     end.

Definition uiStatus (err : option string) : Z :=
  match err with
  | Some _ => 1
  | None => 0
  end.

Definition uiProgram (t : Xterm.Table) (listenerBody : list action)
    (rows : list Xterm.Row) (fatalFormat : string) (err : option string)
  : list action :=
  TableNew t :: uiBody listenerBody rows fatalFormat err
             ++ [OsExit (uiStatus err)].


(** The calls of the non-interactive loop of [logTrace]: the signal
    watcher, a line per event, the unconditional fatal report. *)
Definition plainCalls {E} (stream : Stream E) (signalled : bool)
    (fatalFormat : string) : list action :=
  Go SignalWatcher
     (if signalled then
        StreamClose ::
          match CloseErr stream with
          | Some err => [Stderr "%v" (ArgError (Some err))]
          | None => []
          end
      else [])
  :: List.map (fun d => Stdout (bytes d)) (delivered stream)
  ++ [Stderr fatalFormat (ArgError (Err stream)); OsExit 1].

(** The one way [logTrace] returns: an interactive session of a valid
    type whose connection and terminal come up and whose stream ends with
    no error. *)
Definition returns_normally (lowerCaseTable : Z -> Z) (inv : Invocation)
  : bool :=
  negb (0 <? NArg inv)
  && negb (negb (stdoutIsTerm inv) || jsonOutput inv)
  && match InitErr (terminal inv) with Some _ => false | None => true end
  && match selectMode lowerCaseTable (typeFlag inv) with
     | ModeAudit =>
         match auditLog inv with
         | inr stream =>
             match Err stream with Some _ => false | None => true end
         | inl _ => false
         end
     | ModeError =>
         match errorLog inv with
         | inr stream =>
             match Err stream with Some _ => false | None => true end
         | inl _ => false
         end
     | ModeInvalid => false
     end.

(** The claim that paints are serialized, for the audit session: whatever
    the terminal and the stream do and however the goroutines are
    scheduled, all calls to [Table.Draw] come from one activity. *)
Definition paints_serialized : Prop :=
  forall (StatusText : Z -> string) (term : Terminal)
         (stream : Stream AuditEvent) (sched : list actor) (c : config),
    run sched (start (program (traceAuditLogWithUI StatusText term stream)))
    = Some c ->
    single_painter (history c).


(** A Unicode scalar value: a code point that is no surrogate. *)
Definition valid_rune (r : Z) : Prop :=
  0 <= r <= Utf8.MaxRune /\
  ~ (Utf8.surrogateMin <= r <= Utf8.surrogateMax).

(** Two entries of [CaseRanges] that reach ASCII from outside: KELVIN
    SIGN (U+212A) lowers to [k] and LATIN CAPITAL LETTER I WITH DOT ABOVE
    (U+0130) to [i]; elsewhere this table changes nothing. *)
Definition sampleCaseTable (r : Z) : Z :=
  if r =? 0x212A then 0x6B
  else if r =? 0x130 then 0x69
  else r.

(** ** The command line: [flag] and [log] *)

Module Flag.

(** [strconv.ParseBool] *)
Definition ParseBool (s : string) : option bool :=
  if existsb (String.eqb s) ["1"; "t"; "T"; "TRUE"; "true"; "True"]
  then Some true
  else if existsb (String.eqb s) ["0"; "f"; "F"; "FALSE"; "false"; "False"]
  then Some false
  else None.

(** What [parseOne] fails with; each but [Help] is reported through
    [failf], which prints the message and then the usage. *)
Inductive failure : Type :=
| BadSyntax (arg : string)             (* bad flag syntax: %s *)
| Help                                 (* ErrHelp, after the usage *)
| NotDefined (name : string)           (* flag provided but not defined: -%s *)
| InvalidBoolean (value name : string) (* invalid boolean value %q for -%s *)
| NeedsArgument (name : string)        (* flag needs an argument: -%s *)
| InvalidValue (value name : string).  (* invalid value %q for flag -%s *)

(** The loop [for i := 1; i < len(name); i++] of [parseOne]: the name
    ends at the first [=] that is not its first byte, and the value is all
    that follows. *)
Fixpoint cutValue (s : string) : string * option string :=
  match s with
  | "" => ("", None)
  | String c s' =>
      if Ascii.eqb c "="%char then ("", Some s')
      else let '(name, value) := cutValue s' in (String c name, value)
  end.

Definition splitValue (name : string) : string * option string :=
  match name with
  | "" => ("", None)
  | String c s' => let '(name, value) := cutValue s' in (String c name, value)
  end.

Section FlagSet.

(** The variables the flags of a set are bound to. *)
Variable Vars : Type.

(** A defined flag: its name, whether its value is a [boolFlag], and
    [Value.Set], which fails on a text it cannot parse. *)
Record flag : Type := mkFlag {
  Name : string;
  IsBoolFlag : bool;
  Set_ : string -> Vars -> option Vars
}.

(** [f.formal[name]] *)
Fixpoint lookup (formal : list flag) (name : string) : option flag :=
  match formal with
  | [] => None
  | fl :: formal' =>
      if String.eqb (Name fl) name then Some fl else lookup formal' name
  end.

(** How [Parse] ends: with the variables set and [f.args], the arguments
    left over, or with the failure of [parseOne]. *)
Inductive result : Type :=
| Parsed (vars : Vars) (args : list string)
| Failed (f : failure).

(** [func (f *FlagSet) Parse(arguments []string) error] with the loop
    over [parseOne] unrolled along the arguments: an argument shorter than
    two bytes or not starting with [-] ends the flags and stays; [--] ends
    them and goes; anything else is a flag, with one or two dashes, whose
    value follows [=] or, for a flag that is not boolean, is the next
    argument. *)
Fixpoint Parse (formal : list flag) (args : list string) (vars : Vars)
  : result :=
  match args with
  | [] => Parsed vars []
  | s :: rest =>
      match s with
      | String c0 (String c1 s2) =>
          if negb (Ascii.eqb c0 "-"%char) then Parsed vars args
          else
            let twoMinuses := Ascii.eqb c1 "-"%char in
            if twoMinuses && (String.length s =? 2)%nat then Parsed vars rest
            else
              let name := if twoMinuses then s2 else String c1 s2 in
              let bad :=
                match name with
                | "" => true
                | String n0 _ =>
                    Ascii.eqb n0 "-"%char || Ascii.eqb n0 "="%char
                end in
              if bad then Failed (BadSyntax s)
              else
                let '(name, value) := splitValue name in
                match lookup formal name with
                | None =>
                    if String.eqb name "help" || String.eqb name "h"
                    then Failed Help
                    else Failed (NotDefined name)
                | Some fl =>
                    if IsBoolFlag fl then
                      match value with
                      | Some v =>
                          match Set_ fl v vars with
                          | Some vars' => Parse formal rest vars'
                          | None => Failed (InvalidBoolean v name)
                          end
                      | None =>
                          match Set_ fl "true" vars with
                          | Some vars' => Parse formal rest vars'
                          | None => Failed (InvalidBoolean "true" name)
                          end
                      end
                    else
                      match value with
                      | Some v =>
                          match Set_ fl v vars with
                          | Some vars' => Parse formal rest vars'
                          | None => Failed (InvalidValue v name)
                          end
                      | None =>
                          match rest with
                          | v :: rest' =>
                              match Set_ fl v vars with
                              | Some vars' => Parse formal rest' vars'
                              | None => Failed (InvalidValue v name)
                              end
                          | [] => Failed (NeedsArgument name)
                          end
                      end
                end
      | _ => Parsed vars args
      end
  end.

End FlagSet.

Arguments mkFlag {Vars} Name IsBoolFlag Set_.
Arguments Name {Vars} f.
Arguments IsBoolFlag {Vars} f.
Arguments Set_ {Vars} f _ _.
Arguments Parsed {Vars} vars args.
Arguments Failed {Vars} f.
Arguments lookup {Vars} formal name.
Arguments Parse {Vars} formal args vars.

(** With [flag.ExitOnError], [Parse] leaves the process on a failure:
    with status 2, or, for [ErrHelp], with a status that changed between
    Go releases and is left open here. *)
Definition exitStatus (helpStatus : Z) (f : failure) : Z :=
  match f with
  | Help => helpStatus
  | _ => 2
  end.

End Flag.

Definition logCmdUsage : string :=
"Usage:
    kes log <command>

Commands:
    trace                  Trace server log events.

Options:
    -h, --help             Show list of command-line options.
".

Definition traceLogCmdUsage : string :=
"Usage:
    kes log trace [options]

Options:
    --type {audit|error}   Specify the log event type.
                           Valid options are:
                             --type=audit (default)
                             --type=error

    --json                 Print log events as JSON.
    -k, --insecure         Skip X.509 certificate validation during TLS handshake.
    -h, --help             Show list of command-line options.

Subscribes to the KES server {audit | error} log. If standard output is
a terminal it displays a table-view terminal UI that shows the stream of
log events. Otherwise, or when --json is specified, the log events are
written to standard output in JSON format.

Examples:
    $ kes log trace
".

(** The three variables of [logTrace] that its flags are bound to
    (log.go:79-83). *)
Record traceVars : Type := mkTraceVars {
  varType : string;
  varJson : bool;
  varInsecure : bool
}.

Definition setBool (set : bool -> traceVars -> traceVars)
    (text : string) (vars : traceVars) : option traceVars :=
  option_map (fun b => set b vars) (Flag.ParseBool text).

(** The flags of [logTrace] (log.go:84-87): [-k] and [-insecure] are bound
    to the same variable. *)
Definition traceFlags : list (Flag.flag traceVars) :=
  [Flag.mkFlag "type" false
     (fun text vars => Some (mkTraceVars text (varJson vars) (varInsecure vars)));
   Flag.mkFlag "json" true
     (setBool (fun b vars => mkTraceVars (varType vars) b (varInsecure vars)));
   Flag.mkFlag "k" true
     (setBool (fun b vars => mkTraceVars (varType vars) (varJson vars) b));
   Flag.mkFlag "insecure" true
     (setBool (fun b vars => mkTraceVars (varType vars) (varJson vars) b))].

(** The defaults the definitions of the flags assign. *)
Definition traceDefaults : traceVars := mkTraceVars "audit" false false.

(** What surrounds the command line of an invocation. *)
Record Environment : Type := mkEnvironment {
  envStdoutIsTerm : bool;
  envAuditLog : string + Stream AuditEvent;
  envErrorLog : string + Stream ErrorEvent;
  envTerminal : Terminal;
  envSignalled : bool
}.

(** How a command starts: the flag package ends the process after its
    report and the usage; the command prints its usage and exits with
    status 2; [args[0]] of an empty slice panics; or the command runs. *)
Inductive launch : Type :=
| FlagExit (f : Flag.failure) (usage : string) (status : Z)
| UsageExit (usage : string)
| IndexPanic
| Launched (m : M unit).

Section CommandLine.

Variable StatusText : Z -> string.
Variable lowerCaseTable : Z -> Z.
Variable helpStatus : Z.

(** [logTrace(args)] from its arguments (log.go:75-92): the flags are
    parsed from [args[1:]], and what [logTrace] does next depends on them
    and on the number of arguments left only. *)
Definition logTraceArgs (args : list string) (env : Environment) : launch :=
  match args with
  | [] => IndexPanic
  | _ :: rest =>
      match Flag.Parse traceFlags rest traceDefaults with
      | Flag.Failed f =>
          FlagExit f traceLogCmdUsage (Flag.exitStatus helpStatus f)
      | Flag.Parsed vars remaining =>
          Launched
            (logTrace StatusText lowerCaseTable
               (mkInvocation (varType vars) (varJson vars) (varInsecure vars)
                  (Z.of_nat (List.length remaining)) (envStdoutIsTerm env)
                  (envAuditLog env) (envErrorLog env) (envTerminal env)
                  (envSignalled env)))
      end
  end.

(** [func log(args []string)] (log.go:35-51). *)
Definition log (args : list string) (env : Environment) : launch :=
  match args with
  | [] => IndexPanic
  | _ :: rest =>
      match Flag.Parse (Vars := unit) [] rest tt with
      | Flag.Failed f => FlagExit f logCmdUsage (Flag.exitStatus helpStatus f)
      | Flag.Parsed _ [] => UsageExit logCmdUsage
      | Flag.Parsed _ ((cmd :: _) as args') =>
          if String.eqb cmd "trace" then logTraceArgs args' env
          else
            Launched
              (Fatalf "Error: %q is not a kes log command. See 'kes log --help'"
                      (ArgQuoted cmd))
      end
  end.

End CommandLine.

(** An argument that [parseOne] takes for a flag: at least two bytes, the
    first a dash. *)
Definition flag_like (s : string) : bool :=
  match s with
  | String c0 (String _ _) => Ascii.eqb c0 "-"%char
  | _ => false
  end.

(** ** Vocabulary of the further properties *)

(** What a session does once its stream is connected, by the parts in
    which the audit session and the error session differ: without the UI,
    the loop of lines and the fatal report; with it, a terminal that fails
    to initialise, a stream that ends with an error, or the clean end, in
    which [logTrace]'s deferred [stream.Close()] runs last. *)
Definition sessionCalls (plain : bool) (term : Terminal) (sig : bool)
    (t : Xterm.Table) (rows : list Xterm.Row) (lines : list string)
    (closeErr err : option string)
    (listenerFormat plainFormat : string) : ctl unit * list action :=
  if plain then
    (Exited 1,
     Go SignalWatcher
        (if sig then
           StreamClose ::
             match closeErr with
             | Some e => [Stderr "%v" (ArgError (Some e))]
             | None => []
             end
         else [])
     :: List.map Stdout lines
     ++ [Stderr plainFormat (ArgError err); OsExit 1])
  else
    match InitErr term with
    | Some e =>
        (Exited 1, [TableNew t; Stderr "Error: %v" (ArgError (Some e)); OsExit 1])
    | None =>
        let ui := uiCalls t (listener listenerFormat closeErr (polled term))
                          rows listenerFormat err in
        match err with
        | Some _ => (Exited 1, ui)
        | None => (Return tt, ui ++ [StreamClose])
        end
    end.

Definition plainMode (inv : Invocation) : bool :=
  negb (stdoutIsTerm inv) || jsonOutput inv.

(** The stream an invocation connects to, if it does: by the fields the
    two kinds of stream share. *)
Definition connected (lowerCaseTable : Z -> Z) (inv : Invocation)
  : option (list string * option string * option string) :=
  if 0 <? NArg inv then None
  else
    match selectMode lowerCaseTable (typeFlag inv) with
    | ModeAudit =>
        match auditLog inv with
        | inr s => Some (List.map bytes (delivered s), Err s, CloseErr s)
        | inl _ => None
        end
    | ModeError =>
        match errorLog inv with
        | inr s => Some (List.map bytes (delivered s), Err s, CloseErr s)
        | inl _ => None
        end
    | ModeInvalid => None
    end.

(** The terminal UI starts: a connected stream, the interactive mode, and
    a terminal that initialises. *)
Definition ui_starts (lowerCaseTable : Z -> Z) (inv : Invocation) : bool :=
  match connected lowerCaseTable inv with
  | Some _ =>
      negb (plainMode inv)
      && match InitErr (terminal inv) with Some _ => false | None => true end
  | None => false
  end.

(** The lines [fmt.Println] writes to standard output.  What
    [table.Draw()] paints there is the call [TableDraw], which carries no
    text of its own. *)
Fixpoint stdoutLines (l : list action) : list string :=
  match l with
  | [] => []
  | Stdout line :: l' => line :: stdoutLines l'
  | _ :: l' => stdoutLines l'
  end.

(** A key event that cancels: <C-c> or <Escape>, on an event that is no
    resize, which the [switch] would take first. *)
Definition is_cancel (ev : UiEvent) : bool :=
  negb (is_resize ev)
  && (String.eqb (ID ev) "<C-c>" || String.eqb (ID ev) "<Escape>").

(** The events before the first that cancels. *)
Fixpoint before_cancel (events : list UiEvent) : list UiEvent :=
  match events with
  | [] => []
  | ev :: events' =>
      if is_cancel ev then [] else ev :: before_cancel events'
  end.

(** What the listener does when [stream.Close()] has returned. *)
Definition closeReport (format : string) (closeErr : option string)
  : list action :=
  match closeErr with
  | Some err => [Stderr format (ArgError (Some err))]
  | None => []
  end.

(** The invocation the variables of the flags make when no argument is
    left over. *)
Definition invocationOf (vars : traceVars) (env : Environment) : Invocation :=
  mkInvocation (varType vars) (varJson vars) (varInsecure vars) 0
    (envStdoutIsTerm env) (envAuditLog env) (envErrorLog env)
    (envTerminal env) (envSignalled env).

(** An environment in which no server answers. *)
Definition offline : Environment :=
  mkEnvironment true (inl "connection refused") (inl "connection refused")
                (mkTerminal None []) false.

(** The status of the first [os.Exit] among a sequence of calls. *)
Fixpoint firstExit (l : list action) : option Z :=
  match l with
  | [] => None
  | OsExit code :: _ => Some code
  | _ :: l' => firstExit l'
  end.

(** An ASCII letter; two bytes that are equal or one letter in its two
    cases; two strings that differ in the case of ASCII letters only. *)
Definition is_letter_byte (c : ascii) : bool :=
  ((65 <=? byte_val c) && (byte_val c <=? 90))
  || ((97 <=? byte_val c) && (byte_val c <=? 122)).

Definition same_letter (a b : ascii) : bool :=
  Ascii.eqb a b
  || (is_letter_byte a && is_letter_byte b
      && (Z.abs (byte_val a - byte_val b) =? 32)).

Fixpoint same_spelling (s t : string) : bool :=
  match s, t with
  | "", "" => true
  | String a s', String b t' => same_letter a b && same_spelling s' t'
  | _, _ => false
  end.

Definition is_ascii (s : string) : bool :=
  string_forallb (fun c => byte_val c <? Utf8.RuneSelf) s.

(** An invocation with another value of [--type]. *)
Definition withType (t : string) (inv : Invocation) : Invocation :=
  mkInvocation t (jsonOutput inv) (insecureSkipVerify inv) (NArg inv)
    (stdoutIsTerm inv) (auditLog inv) (errorLog inv) (terminal inv)
    (signalled inv).

(** What [logTrace] does once it has chosen the audit log, and the error
    log: the report of a failed connection, or the session on the stream
    with the rows and the messages of that log. *)
Definition opensAuditLog (StatusText : Z -> string) (inv : Invocation)
    (result : ctl unit * list action) : Prop :=
  match auditLog inv with
  | inl err =>
      result
      = (Exited 1,
         [Stderr "Error: failed to connect to audit log: %v"
                 (ArgError (Some err)); OsExit 1])
  | inr stream =>
      exists t,
        auditTable = Some t /\
        result
        = sessionCalls (plainMode inv) (terminal inv) (signalled inv) t
            (List.map (fun d => auditRow StatusText (event d))
                      (delivered stream))
            (List.map bytes (delivered stream)) (CloseErr stream)
            (Err stream) "Error: audit log stream closed with: %v"
            "Error: audit log closed with: %v"
  end.

Definition opensErrorLog (inv : Invocation)
    (result : ctl unit * list action) : Prop :=
  match errorLog inv with
  | inl err =>
      result
      = (Exited 1,
         [Stderr "Error: failed to connect to error log: %v"
                 (ArgError (Some err)); OsExit 1])
  | inr stream =>
      exists t,
        errorTable = Some t /\
        result
        = sessionCalls (plainMode inv) (terminal inv) (signalled inv) t
            (List.map errorRowOf (delivered stream))
            (List.map bytes (delivered stream)) (CloseErr stream)
            (Err stream) "Error: error log stream closed with: %v"
            "Error: error log closed with: %v"
  end.

(** The fraction of a response time, from its hundredths [r] of the unit
    shown: nothing, one digit or two after the point. *)
Definition hundredths (r : Z) : string :=
  if r =? 0 then ""
  else if r mod 10 =? 0 then
    String "." (String (Duration.digit_byte (r / 10)) "")
  else
    String "." (String (Duration.digit_byte (r / 10))
                       (String (Duration.digit_byte (r mod 10)) "")).

(** Two decimal digits. *)
Definition two_digits (v : Z) : string :=
  String (to_byte (48 + v / 10)) (String (to_byte (48 + v mod 10)) "").

(** * Properties *)

(** ** Machine integers *)

Lemma wrap_small (z : Z) : Int64.in_range z -> Int64.wrap z = z.
Proof.
  unfold Int64.in_range, Int64.min_int, Int64.max_int, Int64.wrap; intros H.
  rewrite Z.mod_small; lia.
Qed.

Lemma wrap_range (z : Z) : Int64.in_range (Int64.wrap z).
Proof.
  unfold Int64.in_range, Int64.min_int, Int64.max_int, Int64.wrap.
  pose proof (Z.mod_pos_bound (z + 2 ^ 63) (2 ^ 64) ltac:(lia)); lia.
Qed.

(** ** Durations *)

Ltac unfold_units :=
  unfold Duration.Second, Duration.Millisecond, Duration.Microsecond,
    Duration.Nanosecond in *.

(** Go's remainder has the sign of the dividend and is no larger. *)
Lemma rem_toward_zero (d m : Z) :
  0 < m ->
  (0 <= d -> 0 <= Z.rem d m <= d) /\ (d <= 0 -> d <= Z.rem d m <= 0).
Proof.
  intros Hm; split; intros Hd.
  - pose proof (Z.rem_bound_pos d m Hd Hm).
    pose proof (Z.rem_le d m Hd Hm). lia.
  - pose proof (Z.rem_opp_l d m ltac:(lia)) as Ho.
    pose proof (Z.rem_bound_pos (- d) m ltac:(lia) Hm).
    pose proof (Z.rem_le (- d) m ltac:(lia) Hm). lia.
Qed.

(** [Truncate] never overflows: the subtraction moves [d] toward zero. *)
Lemma Truncate_quot (d m : Z) :
  Int64.in_range d -> 0 < m -> Duration.Truncate d m = m * (d ÷ m).
Proof.
  intros Hd Hm. unfold Duration.Truncate.
  destruct (Z.leb_spec m 0); [lia|].
  pose proof (Z.quot_rem' d m) as Hqr.
  destruct (rem_toward_zero d m Hm) as [Hp Hn].
  rewrite wrap_small; [lia|].
  unfold Int64.in_range, Int64.min_int, Int64.max_int in *.
  destruct (Z.le_gt_cases 0 d); [specialize (Hp ltac:(lia)) | specialize (Hn ltac:(lia))]; lia.
Qed.

Lemma respResolution_pos (d : Z) : 0 < respResolution d.
Proof.
  unfold respResolution; unfold_units.
  repeat match goal with |- context [?a >=? ?b] => destruct (Z.geb_spec a b) end;
    lia.
Qed.

Lemma respResolution_cases (d : Z) :
  (Duration.Second <= d -> respResolution d = 10 * Duration.Millisecond) /\
  (Duration.Millisecond <= d < Duration.Second ->
   respResolution d = 10 * Duration.Microsecond) /\
  (d < Duration.Millisecond -> respResolution d = Duration.Microsecond).
Proof.
  unfold respResolution; unfold_units.
  repeat match goal with |- context [?a >=? ?b] => destruct (Z.geb_spec a b) end;
    repeat split; intros; lia.
Qed.

Lemma respTruncated_resolution (d : Z) :
  respTruncated d = Duration.Truncate d (respResolution d).
Proof.
  unfold respTruncated, respResolution.
  repeat match goal with |- context [?a >=? ?b] => destruct (Z.geb_spec a b) end;
    reflexivity.
Qed.

Lemma respTruncated_quot (d : Z) :
  Int64.in_range d ->
  respTruncated d = respResolution d * (d ÷ respResolution d).
Proof.
  intros Hd. rewrite respTruncated_resolution.
  apply Truncate_quot; [assumption | apply respResolution_pos].
Qed.

(** The truncated duration stays on the side of the thresholds its
    argument is on: each threshold is a multiple of the resolution below
    it. *)
Lemma respResolution_stable (d : Z) :
  Int64.in_range d -> respResolution (respTruncated d) = respResolution d.
Proof.
  intros Hd. rewrite (respTruncated_quot d Hd).
  unfold respResolution; unfold_units.
  repeat match goal with |- context [?a >=? ?b] => destruct (Z.geb_spec a b) end;
    try reflexivity; exfalso; Z.quot_rem_to_equations; lia.
Qed.

Lemma Truncate_range (d m : Z) :
  Int64.in_range d -> Int64.in_range (Duration.Truncate d m).
Proof.
  intros Hd. unfold Duration.Truncate.
  destruct (m <=? 0); [assumption | apply wrap_range].
Qed.

Lemma respTruncated_range (d : Z) :
  Int64.in_range d -> Int64.in_range (respTruncated d).
Proof.
  intros Hd. rewrite respTruncated_resolution.
  apply Truncate_range; assumption.
Qed.

(** Truncation rounds toward zero and moves by less than the
    resolution. *)
Lemma Truncate_toward_zero (d m : Z) :
  Int64.in_range d -> 0 < m ->
  Z.abs (Duration.Truncate d m) <= Z.abs d /\
  Z.abs (d - Duration.Truncate d m) < m.
Proof.
  intros Hd Hm. rewrite (Truncate_quot d m Hd Hm).
  pose proof (Z.quot_rem' d m) as Hqr.
  destruct (rem_toward_zero d m Hm) as [Hp Hn].
  pose proof (Z.rem_bound_abs d m ltac:(lia)) as Hb.
  destruct (Z.le_gt_cases 0 d);
    [specialize (Hp ltac:(lia)) | specialize (Hn ltac:(lia))]; lia.
Qed.

Lemma respTruncated_idem (d : Z) :
  Int64.in_range d -> respTruncated (respTruncated d) = respTruncated d.
Proof.
  intros Hd.
  rewrite (respTruncated_quot (respTruncated d) (respTruncated_range d Hd)).
  rewrite (respResolution_stable d Hd).
  rewrite (respTruncated_quot d Hd).
  pose proof (respResolution_pos d).
  f_equal. rewrite Z.mul_comm. apply Z.quot_mul; lia.
Qed.

(** The digit loops have fuel for every value of their type. *)
Lemma fmtInt_loop_fuel (fuel : nat) :
  forall v buf k,
    0 <= v < 10 ^ Z.of_nat fuel ->
    Duration.fmtInt_loop (fuel + k) v buf = Duration.fmtInt_loop fuel v buf.
Proof.
  induction fuel as [|fuel IH]; intros v buf k Hv.
  - assert (v = 0) as -> by (cbn in Hv; lia).
    destruct k; reflexivity.
  - cbn [Nat.add Duration.fmtInt_loop].
    destruct (Z.ltb_spec 0 v); [|reflexivity].
    apply IH. rewrite Nat2Z.inj_succ, Z.pow_succ_r in Hv by lia.
    Z.to_euclidean_division_equations; lia.
Qed.

Lemma fmtInt_uint64 (v : Z) (buf : string) (k : nat) :
  0 <= v < 2 ^ 64 ->
  Duration.fmtInt_loop (20 + k) v buf = Duration.fmtInt_loop 20 v buf.
Proof.
  intros Hv. apply fmtInt_loop_fuel.
  change (10 ^ Z.of_nat 20) with 100000000000000000000. lia.
Qed.

Lemma digits_loop_fuel (fuel : nat) :
  forall u buf k,
    0 <= u < 10 ^ Z.of_nat (S fuel) ->
    Fmt.digits_loop (fuel + k) u buf = Fmt.digits_loop fuel u buf.
Proof.
  induction fuel as [|fuel IH]; intros u buf k Hu.
  - change (10 ^ Z.of_nat 1) with 10 in Hu.
    destruct k; [reflexivity|]. cbn [Nat.add Fmt.digits_loop].
    destruct (Z.leb_spec 10 u); [lia | reflexivity].
  - cbn [Nat.add Fmt.digits_loop].
    destruct (Z.leb_spec 10 u); [|reflexivity].
    apply IH. rewrite (Nat2Z.inj_succ (S fuel)), Z.pow_succ_r in Hu by lia.
    Z.to_euclidean_division_equations; lia.
Qed.

Lemma digits_int64 (v : Z) (buf : string) (k : nat) :
  Int64.in_range v ->
  Fmt.digits_loop (19 + k) (Z.abs v) buf = Fmt.digits_loop 19 (Z.abs v) buf.
Proof.
  unfold Int64.in_range, Int64.min_int, Int64.max_int. intros Hv.
  apply digits_loop_fuel.
  change (10 ^ Z.of_nat 20) with 100000000000000000000. lia.
Qed.

(** What [Draw] paints is the end of the buffer, in the buffer's order. *)
Lemma Draw_paints_suffix (height : nat) (t : Xterm.Table) :
  exists scrolled_off,
    Xterm.rows t = scrolled_off ++ snd (Xterm.Draw height t).
Proof.
  exists (firstn (List.length (Xterm.rows t) - height) (Xterm.rows t)).
  unfold Xterm.Draw. cbn [snd]. symmetry. apply firstn_skipn.
Qed.

Section FormatterFacts.

Variable StatusText : Z -> string.

Lemma auditRow_respTime (ev : AuditEvent) :
  nth_error (auditRow StatusText ev) 4
  = Some (Xterm.NewCell (respTimeText (ResponseTime ev))).
Proof.
  unfold auditRow, respTimeText, respTruncated.
  destruct (TimeClock ev) as [[hh mm] ss].
  repeat match goal with |- context [?a >=? ?b] => destruct (Z.geb_spec a b) end;
    reflexivity.
Qed.

(** C5: the duration cell of an audit row renders the response time
    truncated toward zero to a multiple of the resolution its magnitude
    selects: 10ms from one second on, 10us from one millisecond up to one
    second, 1us below one millisecond. *)
Theorem duration_cell_truncates_by_magnitude (ev : AuditEvent) :
  let d := ResponseTime ev in
  Int64.in_range d ->
  (Duration.Second <= d -> respResolution d = 10 * Duration.Millisecond) /\
  (Duration.Millisecond <= d < Duration.Second ->
   respResolution d = 10 * Duration.Microsecond) /\
  (d < Duration.Millisecond -> respResolution d = Duration.Microsecond) /\
  respTruncated d = respResolution d * (d ÷ respResolution d) /\
  Z.abs (respTruncated d) <= Z.abs d /\
  Z.abs (d - respTruncated d) < respResolution d /\
  nth_error (auditRow StatusText ev) 4
  = Some (Xterm.NewCell
            (Duration.String_ (respResolution d * (d ÷ respResolution d)))).
Proof.
  intros d Hd.
  pose proof (respResolution_cases d) as (H1 & H2 & H3).
  pose proof (respResolution_pos d) as Hpos.
  pose proof (respTruncated_quot d Hd) as Hq.
  pose proof (Truncate_toward_zero d _ Hd Hpos) as [Ha Hb].
  rewrite <- respTruncated_resolution in Ha, Hb.
  repeat split; try assumption.
  - subst d. rewrite auditRow_respTime. unfold respTimeText.
    rewrite Hq. reflexivity.
Qed.

(** C8: truncating the truncated duration again selects the same
    resolution and changes nothing, so the cell text is the same. *)
Theorem duration_formatting_idempotent (ev : AuditEvent) :
  let d := ResponseTime ev in
  Int64.in_range d ->
  respResolution (respTruncated d) = respResolution d /\
  respTruncated (respTruncated d) = respTruncated d /\
  respTimeText (respTruncated d) = respTimeText d /\
  nth_error
    (auditRow StatusText
       (mkAuditEvent (TimeClock ev) (RequestIdentity ev) (RequestPath ev)
                     (ResponseStatusCode ev) (respTruncated d))) 4
  = nth_error (auditRow StatusText ev) 4.
Proof.
  intros d Hd.
  pose proof (respTruncated_idem d Hd) as Hi.
  repeat split.
  - apply respResolution_stable; assumption.
  - assumption.
  - unfold respTimeText. rewrite Hi. reflexivity.
  - rewrite !auditRow_respTime. cbn [ResponseTime]. fold d.
    unfold respTimeText. rewrite Hi. reflexivity.
Qed.

(** C6: the status cell is green exactly when the status code is 200, and
    red for every other code. *)
Theorem status_color_green_iff_200 (ev : AuditEvent) :
  exists cell,
    nth_error (auditRow StatusText ev) 2 = Some cell /\
    Xterm.Text cell
    = (Fmt.d (ResponseStatusCode ev) ++ " "
         ++ StatusText (ResponseStatusCode ev))%string /\
    (Xterm.Color cell = Some FgGreen <-> ResponseStatusCode ev = 200) /\
    (ResponseStatusCode ev <> 200 -> Xterm.Color cell = Some FgRed).
Proof.
  unfold auditRow. destruct (TimeClock ev) as [[hh mm] ss].
  unfold StatusOK.
  destruct (Z.eqb_spec (ResponseStatusCode ev) 200) as [E|E];
    eexists; (split; [reflexivity|]); cbn; repeat split;
    intros; try congruence; try discriminate.
Qed.

End FormatterFacts.

Lemma duration_cell_truncates_by_magnitude_witness :
  let ev := mkAuditEvent (10, 2, 3) "id" "/v1/key/create" 404 1234567890 in
  Int64.in_range (ResponseTime ev) /\
  respResolution 1234567890 = 10 * Duration.Millisecond /\
  nth_error (auditRow (fun _ => "Not Found") ev) 4
  = Some (Xterm.NewCell "1.23s").
Proof.
  intros ev.
  assert (Hr : Int64.in_range (ResponseTime ev))
    by (vm_compute; split; discriminate).
  destruct (duration_cell_truncates_by_magnitude (fun _ => "Not Found") ev Hr)
    as (H1 & _ & _ & _ & _ & _ & H7).
  split; [exact Hr|]. split.
  - apply H1. vm_compute. discriminate.
  - exact H7.
Defined.

Lemma duration_formatting_idempotent_witness :
  Int64.in_range 345766789 /\
  respTruncated (respTruncated 345766789) = respTruncated 345766789 /\
  respTimeText (respTruncated 345766789) = respTimeText 345766789 /\
  respTimeText 345766789 = "345.76ms".
Proof.
  assert (Hr : Int64.in_range 345766789) by (vm_compute; split; discriminate).
  destruct (duration_formatting_idempotent (fun _ => "OK")
              (mkAuditEvent (0, 0, 0) "" "" 200 345766789) Hr)
    as (_ & H2 & H3 & _).
  split; [exact Hr|]. split; [exact H2|]. split; [exact H3 | reflexivity].
Defined.

(** ** The table headers *)

(** C9: the widths installed for the five audit columns and for the two
    error columns sum to at most 1.0, both as [float64] addition computes
    the sum and as the exact sum of the [float64] values. *)
Theorem header_widths_sum_at_most_one :
  (exists t,
     auditTable = Some t /\
     List.map Xterm.Width (Xterm.header t)
     = [0.12; 0.15; 0.15; 0.45; 0.12]%float /\
     PrimFloat.leb (widthSum t) 1 = true /\
     exists q, widthExactSum t = Some q /\ (q <= 1)%Q) /\
  (exists t,
     errorTable = Some t /\
     List.map Xterm.Width (Xterm.header t) = [0.12; 0.87]%float /\
     PrimFloat.leb (widthSum t) 1 = true /\
     exists q, widthExactSum t = Some q /\ (q <= 1)%Q).
Proof.
  split; eexists; (split; [reflexivity|]); (split; [reflexivity|]);
    (split; [reflexivity|]); eexists; (split; [vm_compute; reflexivity|]);
    vm_compute; discriminate.
Qed.

(** ** Strings *)

Lemma take_app (a b : string) : take (String.length a) (a ++ b) = a.
Proof. induction a as [|x a IH]; [destruct b|]; cbn; congruence. Qed.

Lemma drop_app (a b : string) (n : nat) :
  drop (String.length a + n) (a ++ b) = drop n b.
Proof. induction a as [|x a IH]; cbn; auto. Qed.

Lemma slice_to_app (a b : string) : slice_to (a ++ b) (len a) = a.
Proof. unfold slice_to, len. rewrite Nat2Z.id. apply take_app. Qed.

Lemma slice_from_app (a b : string) (c : ascii) :
  slice_from (a ++ String c b) (len a + 1) = b.
Proof.
  unfold slice_from, len.
  replace (Z.to_nat (Z.of_nat (String.length a) + 1))
    with (String.length a + 1)%nat by lia.
  rewrite drop_app. reflexivity.
Qed.

Lemma HasPrefix_empty (s : string) : Strings.HasPrefix s "" = true.
Proof. destruct s; reflexivity. Qed.

Lemma Index_char_nil (c : ascii) : Strings.Index "" (String c "") = -1.
Proof. reflexivity. Qed.

Lemma Index_char_cons (x c : ascii) (s : string) :
  Strings.Index (String x s) (String c "")
  = if Ascii.eqb c x then 0
    else if Strings.Index s (String c "") <? 0 then -1
         else Strings.Index s (String c "") + 1.
Proof.
  cbn [Strings.Index Strings.HasPrefix].
  rewrite HasPrefix_empty, andb_true_r. reflexivity.
Qed.

Lemma Index_char_absent (c : ascii) (s : string) :
  count_byte c s = O -> Strings.Index s (String c "") = -1.
Proof.
  induction s as [|x s IH]; intros H; [reflexivity|].
  rewrite Index_char_cons. cbn in H.
  destruct (Ascii.eqb c x); [discriminate|].
  rewrite IH by exact H. reflexivity.
Qed.

(** The first instance of a byte splits the string around it. *)
Lemma Index_char_present (c : ascii) (s : string) :
  (0 < count_byte c s)%nat ->
  exists a b,
    s = (a ++ String c b)%string /\
    count_byte c a = O /\
    Strings.Index s (String c "") = len a /\
    count_byte c s = S (count_byte c b).
Proof.
  induction s as [|x s IH]; intros H; [cbn in H; lia|].
  rewrite Index_char_cons. cbn [count_byte] in *.
  destruct (Ascii.eqb_spec c x) as [->|Hne].
  - exists "", s. repeat split.
  - destruct (IH ltac:(lia)) as (a & b & -> & Ha & Hi & Hc).
    exists (String x a), b. repeat split.
    + cbn. destruct (Ascii.eqb_spec c x); [contradiction | exact Ha].
    + rewrite Hi. unfold len. cbn [String.length].
      destruct (Z.ltb_spec (Z.of_nat (String.length a)) 0); lia.
    + exact Hc.
Qed.

Lemma count_byte_app (c : ascii) (a b : string) :
  count_byte c (a ++ b) = (count_byte c a + count_byte c b)%nat.
Proof. induction a as [|x a IH]; cbn; [reflexivity | rewrite IH; lia]. Qed.

Lemma string_map_app (f : ascii -> ascii) (a b : string) :
  string_map f (a ++ b) = (string_map f a ++ string_map f b)%string.
Proof. induction a as [|x a IH]; cbn; congruence. Qed.

Lemma length_app (a b : string) :
  String.length (a ++ b) = (String.length a + String.length b)%nat.
Proof. induction a as [|x a IH]; cbn; congruence. Qed.

(** What the loop of [genSplit] returns for a one-byte separator and
    [sepSave = 0], by the number of separators in the string. *)
Lemma genSplit_loop_none (n : nat) (c : ascii) (s : string) :
  count_byte c s = O -> Strings.genSplit_loop n s (String c "") 0 = [s].
Proof.
  intros H. destruct n; [reflexivity|]. cbn [Strings.genSplit_loop].
  rewrite (Index_char_absent c s H). reflexivity.
Qed.

Lemma genSplit_loop_some (n : nat) (c : ascii) (s : string) :
  (0 < count_byte c s)%nat ->
  exists a b,
    s = (a ++ String c b)%string /\
    count_byte c a = O /\
    count_byte c s = S (count_byte c b) /\
    Strings.genSplit_loop (S n) s (String c "") 0
    = a :: Strings.genSplit_loop n b (String c "") 0.
Proof.
  intros H. destruct (Index_char_present c s H) as (a & b & -> & Ha & Hi & Hc).
  exists a, b. repeat split; try assumption.
  cbn [Strings.genSplit_loop]. rewrite Hi.
  destruct (Z.ltb_spec (len a) 0) as [Hneg|_]; [unfold len in Hneg; lia|].
  rewrite Z.add_0_r, slice_to_app.
  change (len (String c "")) with 1. rewrite slice_from_app. reflexivity.
Qed.

(** The limit [n > len(s)+1] of [genSplit] only saves allocation. *)
Lemma SplitN_space_3 (s : string) :
  Strings.SplitN s " " 3 = Strings.genSplit_loop 2 s " " 0.
Proof.
  unfold Strings.SplitN, Strings.genSplit.
  change (3 =? 0) with false. change (len " " =? 0) with false.
  change (3 <? 0) with false. cbv iota.
  destruct s as [|x [|y s]].
  - reflexivity.
  - change (len (String x "")) with 1.
    change (1 + 1 <? 3) with true. cbv iota.
    change (Z.to_nat (1 + 1 - 1)) with 1%nat.
    destruct (Ascii.eqb_spec space x) as [<-|Hne]; [reflexivity|].
    assert (H : count_byte space (String x "") = O).
    { cbn [count_byte]. destruct (Ascii.eqb_spec space x); [contradiction|reflexivity]. }
    change " " with (String space "").
    rewrite !genSplit_loop_none by exact H. reflexivity.
  - replace (len (String x (String y s)) + 1 <? 3) with false.
    + reflexivity.
    + symmetry. apply Z.ltb_ge. unfold len. cbn [String.length]. lia.
Qed.

(** [SplitN(s, " ", 3)] by the number of spaces in [s]: the segments are
    the text before the first space, the text between the first two, and
    all that follows the second. *)
Lemma SplitN_space_3_spec (s : string) :
  match count_byte space s with
  | O => Strings.SplitN s " " 3 = [s]
  | S O =>
      exists a b,
        s = (a ++ " " ++ b)%string /\
        count_byte space a = O /\ count_byte space b = O /\
        Strings.SplitN s " " 3 = [a; b]
  | S (S _) =>
      exists a b c,
        s = (a ++ " " ++ b ++ " " ++ c)%string /\
        count_byte space a = O /\ count_byte space b = O /\
        Strings.SplitN s " " 3 = [a; b; c]
  end.
Proof.
  rewrite SplitN_space_3. change " " with (String space "").
  destruct (count_byte space s) as [|k] eqn:Hk.
  - apply genSplit_loop_none; exact Hk.
  - destruct (genSplit_loop_some 1 space s ltac:(lia))
      as (a & b & -> & Ha & Hc & ->).
    rewrite Hk in Hc. injection Hc as Hc.
    destruct k as [|k].
    + exists a, b. repeat split; auto.
      rewrite genSplit_loop_none by auto. reflexivity.
    + destruct (genSplit_loop_some 0 space b ltac:(lia))
        as (b1 & c & -> & Hb1 & _ & ->).
      exists a, b1, c. repeat split; auto.
Qed.

Lemma string_map_absent (c d : ascii) (s : string) :
  count_byte c s = O ->
  string_map (fun x => if Ascii.eqb c x then d else x) s = s.
Proof.
  induction s as [|x s IH]; cbn; intros H; [reflexivity|].
  destruct (Ascii.eqb c x); [discriminate|]. rewrite IH by exact H. reflexivity.
Qed.

Lemma Count_loop_char (c : ascii) (fuel : nat) :
  forall (s : string) (n : Z),
    (String.length s < fuel)%nat ->
    Strings.Count_loop fuel s (String c "") n = n + Z.of_nat (count_byte c s).
Proof.
  induction fuel as [|fuel IH]; intros s n Hf; [lia|].
  cbn [Strings.Count_loop].
  destruct (count_byte c s) as [|k] eqn:Hk.
  - rewrite (Index_char_absent c s Hk). cbn. lia.
  - destruct (Index_char_present c s ltac:(lia)) as (a & b & -> & Ha & Hi & Hc).
    rewrite Hi.
    destruct (Z.eqb_spec (len a) (-1)) as [E|_]; [unfold len in E; lia|].
    change (len (String c "")) with 1. rewrite slice_from_app.
    rewrite IH.
    + rewrite Hk in Hc. injection Hc as ->. lia.
    + rewrite length_app in Hf. cbn [String.length] in Hf. lia.
Qed.

Lemma Count_char (c : ascii) (s : string) :
  Strings.Count s (String c "") = Z.of_nat (count_byte c s).
Proof.
  unfold Strings.Count. change (len (String c "") =? 0) with false. cbv iota.
  rewrite Count_loop_char by lia. lia.
Qed.

Lemma Replace_loop_char (c d : ascii) (k : nat) :
  forall (s : string) (first : bool),
    count_byte c s = k ->
    Strings.Replace_loop k first s (String c "") (String d "")
    = string_map (fun x => if Ascii.eqb c x then d else x) s.
Proof.
  induction k as [|k IH]; intros s first Hk.
  - cbn. symmetry. apply string_map_absent; exact Hk.
  - destruct (Index_char_present c s ltac:(lia)) as (a & b & -> & Ha & Hi & Hc).
    cbn [Strings.Replace_loop].
    change (len (String c "") =? 0) with false. cbv iota.
    rewrite Hi, slice_to_app.
    change (len (String c "")) with 1. rewrite slice_from_app.
    rewrite IH by lia.
    rewrite string_map_app, (string_map_absent c d a Ha). cbn.
    rewrite Ascii.eqb_refl. reflexivity.
Qed.

(** [ReplaceAll] of one byte by another maps the string byte by byte. *)
Lemma ReplaceAll_char (c d : ascii) (s : string) :
  c <> d ->
  Strings.ReplaceAll s (String c "") (String d "")
  = string_map (fun x => if Ascii.eqb c x then d else x) s.
Proof.
  intros Hcd. unfold Strings.ReplaceAll, Strings.Replace.
  assert (E : String.eqb (String c "") (String d "") = false).
  { apply String.eqb_neq. congruence. }
  rewrite E. cbn [orb Z.eqb]. rewrite Count_char.
  destruct (Z.eqb_spec (Z.of_nat (count_byte c s)) 0) as [Hz|Hz].
  - symmetry. apply string_map_absent. lia.
  - cbn [Z.ltb Z.compare orb]. rewrite Nat2Z.id.
    apply Replace_loop_char. reflexivity.
Qed.

Lemma ReplaceAll_newline (s : string) :
  Strings.ReplaceAll s newline " " = string_map nl_to_space s.
Proof.
  change newline with (String linefeed "").
  change " " with (String space "").
  rewrite ReplaceAll_char by discriminate. reflexivity.
Qed.

Lemma string_map_nl_free (s : string) :
  count_byte linefeed (string_map nl_to_space s) = O.
Proof.
  induction s as [|x s IH]; [reflexivity|].
  cbn [count_byte string_map]. rewrite IH.
  unfold nl_to_space at 1. destruct (Ascii.eqb_spec linefeed x) as [<-|Hne].
  - reflexivity.
  - destruct (Ascii.eqb_spec linefeed x); [contradiction|reflexivity].
Qed.

(** ** The error row *)

(** The row of an error event, by the way the message splits. *)
Lemma errorRow_cells (now : Z * Z * Z) (ev : ErrorEvent) :
  let m := Message ev in
  exists time message,
    errorRow now ev = Some [Xterm.NewCell time; Xterm.NewCell message] /\
    (List.length (Strings.SplitN m " " 3) = 3%nat
     <-> (2 <= count_byte space m)%nat) /\
    (forall a b c,
       Strings.SplitN m " " 3 = [a; b; c] ->
       m = (a ++ " " ++ b ++ " " ++ c)%string /\
       count_byte space a = O /\ count_byte space b = O /\
       time = b /\ message = string_map nl_to_space c) /\
    (List.length (Strings.SplitN m " " 3) <> 3%nat ->
     time = Fmt.clock (fst (fst now)) (snd (fst now)) (snd now) /\
     message = string_map nl_to_space m) /\
    count_byte linefeed message = O.
Proof.
  intros m. unfold errorRow. fold m.
  pose proof (SplitN_space_3_spec m) as Hs.
  destruct (count_byte space m) as [|[|k]] eqn:Hk.
  - rewrite Hs. cbn [List.length Nat.eqb]. destruct now as [[hh mm] ss].
    do 2 eexists. split; [reflexivity|]. rewrite ReplaceAll_newline.
    repeat split; intros; try (cbn in *; lia); try discriminate.
    apply string_map_nl_free.
  - destruct Hs as (a & b & Hm & Ha & Hb & ->).
    cbn [List.length Nat.eqb]. destruct now as [[hh mm] ss].
    do 2 eexists. split; [reflexivity|]. rewrite ReplaceAll_newline.
    repeat split; intros; try (cbn in *; lia); try discriminate.
    apply string_map_nl_free.
  - destruct Hs as (a & b & c & Hm & Ha & Hb & ->).
    cbn [List.length Nat.eqb index nth_error obind].
    do 2 eexists. split; [reflexivity|]. rewrite ReplaceAll_newline.
    repeat split; intros; try lia;
      try match goal with H : [_; _; _] = [_; _; _] |- _ =>
            injection H as <- <- <- end;
      auto; try (exfalso; cbn in *; congruence).
    apply string_map_nl_free.
Qed.

Lemma d02_two_digits (v : Z) : 0 <= v < 100 -> Fmt.d02 v = two_digits v.
Proof.
  intros Hv. unfold Fmt.d02, Fmt.fmtInteger, two_digits.
  destruct (Z.ltb_spec v 0); [lia|].
  cbn [Fmt.digits_loop].
  destruct (Z.leb_spec 10 v).
  - destruct (Z.leb_spec 10 (v / 10));
      [exfalso; Z.to_euclidean_division_equations; lia|].
    cbn [String.length Nat.sub Fmt.zeros].
    replace (48 + v - v / 10 * 10) with (48 + v mod 10)
      by (Z.to_euclidean_division_equations; lia).
    reflexivity.
  - cbn [String.length Nat.sub Fmt.zeros].
    replace (v / 10) with 0 by (Z.to_euclidean_division_equations; lia).
    replace (v mod 10) with v by (Z.to_euclidean_division_equations; lia).
    reflexivity.
Qed.

(** C4: the error-event formatter never fails and always makes a row of
    two cells, the time and the message.  When [SplitN m " " 3] gives three
    segments, which is when [m] holds at least two spaces, [m] is
    [a ++ " " ++ b ++ " " ++ c] with no space in [a] and [b], the time
    cell is [b] and the message cell is [c] with each newline replaced by
    a space.  Otherwise the time cell is the wall clock written by
    [%02d:%02d:%02d], which for a clock reading is HH:MM:SS, two digits
    for each field, and the message cell is [m] with each newline replaced
    by a space.  In both cases the message cell holds no newline. *)
Theorem error_row_two_cells (now : Z * Z * Z) (ev : ErrorEvent) :
  let m := Message ev in
  exists time message,
    errorRow now ev = Some [Xterm.NewCell time; Xterm.NewCell message] /\
    (List.length (Strings.SplitN m " " 3) = 3%nat
     <-> (2 <= count_byte space m)%nat) /\
    (forall a b c,
       Strings.SplitN m " " 3 = [a; b; c] ->
       m = (a ++ " " ++ b ++ " " ++ c)%string /\
       count_byte space a = O /\ count_byte space b = O /\
       time = b /\ message = string_map nl_to_space c) /\
    (List.length (Strings.SplitN m " " 3) <> 3%nat ->
     time = Fmt.clock (fst (fst now)) (snd (fst now)) (snd now) /\
     message = string_map nl_to_space m) /\
    (forall hh mm ss,
       List.length (Strings.SplitN m " " 3) <> 3%nat ->
       now = (hh, mm, ss) ->
       0 <= hh < 24 -> 0 <= mm < 60 -> 0 <= ss < 60 ->
       time = (two_digits hh ++ ":" ++ two_digits mm ++ ":"
                 ++ two_digits ss)%string /\
       String.length time = 8%nat) /\
    count_byte linefeed message = O.
Proof.
  intros m.
  destruct (errorRow_cells now ev) as (time & message & H1 & H2 & H3 & H4 & H5).
  fold m in H2, H3, H4.
  exists time, message.
  split; [exact H1|]. split; [exact H2|]. split; [exact H3|].
  split; [exact H4|]. split; [|exact H5].
  intros hh mm ss Hlen -> Hh Hm Hs.
  destruct (H4 Hlen) as [-> _]. cbn [fst snd]. unfold Fmt.clock.
  rewrite !d02_two_digits by lia. split; reflexivity.
Qed.

(** The two error messages of the specification's scenarios. *)
Example error_row_with_prefix :
  errorRow (17, 30, 0)
           (mkErrorEvent "23/04/01 10:02:03 disk full on volume X")
  = Some [Xterm.NewCell "10:02:03"; Xterm.NewCell "disk full on volume X"].
Proof. reflexivity. Qed.

Example error_row_without_prefix :
  errorRow (17, 30, 0) (mkErrorEvent "disk full")
  = Some [Xterm.NewCell "17:30:00"; Xterm.NewCell "disk full"].
Proof. reflexivity. Qed.

(** The audit scenario: status 404 and 1,234 ms. *)
Example audit_row_404 :
  List.map (fun c => (Xterm.Text c, Xterm.Color c))
    (auditRow (fun code => if code =? 404 then "Not Found" else "")
       (mkAuditEvent (10, 2, 3) "3ecfcdf3" "/v1/key/create/my-key" 404
                     (1234 * Duration.Millisecond)))
  = [("10:02:03", None); ("3ecfcdf3", None); ("404 Not Found", Some FgRed);
     ("/v1/key/create/my-key", None); ("1.23s", None)].
Proof. reflexivity. Qed.

Lemma errorRow_defined (now : Z * Z * Z) (ev : ErrorEvent) :
  exists time message,
    errorRow now ev = Some [Xterm.NewCell time; Xterm.NewCell message].
Proof.
  unfold errorRow. destruct now as [[hh mm] ss].
  destruct (Strings.SplitN (Message ev) " " 3) as [|a [|b [|c [|d l]]]];
    cbn; eauto.
Qed.

(** ** Statements *)

Lemma forEach_calls {A} (body : A -> M unit) (out : A -> list action) :
  (forall x ds, body x ds = (Return tt, out x, ds)) ->
  forall xs ds, forEach xs body ds = (Return tt, flat_map out xs, ds).
Proof.
  intros Hb xs. induction xs as [|x xs IH]; intros ds; [reflexivity|].
  cbn [forEach flat_map]. unfold bind. rewrite Hb, IH. reflexivity.
Qed.

Lemma flat_map_map {A B C} (f : A -> B) (g : B -> list C) (l : list A) :
  flat_map g (List.map f l) = flat_map (fun x => g (f x)) l.
Proof. induction l as [|x l IH]; cbn; congruence. Qed.

Lemma auditTable_defined : exists t, auditTable = Some t.
Proof. eexists. reflexivity. Qed.

Lemma errorTable_defined : exists t, errorTable = Some t.
Proof. eexists. reflexivity. Qed.

Section ProgramFacts.

Variable StatusText : Z -> string.

(** The calls and the outcome of [traceAuditLogWithUI] on a terminal that
    initialises. *)
Lemma traceAuditLogWithUI_calls (events : list UiEvent)
    (stream : Stream AuditEvent) (ds : list action) :
  exists t,
    auditTable = Some t /\
    traceAuditLogWithUI StatusText (mkTerminal None events) stream ds
    = (match Err stream with Some _ => Exited 1 | None => Return tt end,
       uiCalls t
         (listener "Error: audit log stream closed with: %v"
                   (CloseErr stream) events)
         (List.map (fun d => auditRow StatusText (event d)) (delivered stream))
         "Error: audit log stream closed with: %v" (Err stream),
       ds).
Proof.
  destruct auditTable_defined as [t Ht]. exists t. split; [exact Ht|].
  unfold traceAuditLogWithUI, call, bind. rewrite Ht.
  cbn [orPanic emit defer InitErr polled fst snd app].
  rewrite (forEach_calls _
             (fun d => [TableAddRow (auditRow StatusText (event d)); TableDraw]))
    by reflexivity.
  unfold uiCalls. rewrite flat_map_map.
  destruct (Err stream); cbn; rewrite <- ?app_assoc; reflexivity.
Qed.

Lemma traceErrorLogWithUI_calls (events : list UiEvent)
    (stream : Stream ErrorEvent) (ds : list action) :
  exists t,
    errorTable = Some t /\
    traceErrorLogWithUI (mkTerminal None events) stream ds
    = (match Err stream with Some _ => Exited 1 | None => Return tt end,
       uiCalls t
         (listener "Error: error log stream closed with: %v"
                   (CloseErr stream) events)
         (List.map errorRowOf (delivered stream))
         "Error: error log stream closed with: %v" (Err stream),
       ds).
Proof.
  destruct errorTable_defined as [t Ht]. exists t. split; [exact Ht|].
  unfold traceErrorLogWithUI, call. unfold bind at 1 2 3 4 5 6 7 8.
  rewrite Ht. cbn [orPanic emit defer InitErr polled fst snd app].
  rewrite (forEach_calls _ (fun d => [TableAddRow (errorRowOf d); TableDraw])).
  - unfold uiCalls. rewrite flat_map_map.
    destruct (Err stream); cbn; rewrite <- ?app_assoc; reflexivity.
  - intros d ds'. unfold errorRowOf, bind.
    destruct (errorRow_defined (clock d) (event d)) as (tm & msg & ->).
    reflexivity.
Qed.

End ProgramFacts.

(** ** The process *)

Lemma applyTable_quiet (h : nat) (t : option Xterm.Table) (a : action) :
  quiet a = true -> applyTable h t a = t.
Proof. destruct a; cbn; intros; try discriminate; reflexivity. Qed.

Lemma actor_eqb_eq (w w' : actor) : actor_eqb w w' = true <-> w = w'.
Proof.
  split.
  - destruct w, w'; cbn; intros H; try discriminate H; try reflexivity.
    apply Nat.eqb_eq in H. subst. reflexivity.
  - intros <-. destruct w; cbn; try reflexivity. apply Nat.eqb_refl.
Qed.

(** ** Rows that scroll off *)



Lemma skipn_snoc {A} (j : nat) (l : list A) (x : A) :
  (j <= List.length l)%nat -> skipn j (l ++ [x]) = skipn j l ++ [x].
Proof.
  intros H. rewrite skipn_app.
  replace (j - List.length l)%nat with O by lia. reflexivity.
Qed.


(** One call keeps what the table keeps. *)
Lemma kept_step (h : nat) (all now : option Xterm.Table) (a : action) :
  kept all now -> kept (handed all a) (applyTable h now a).
Proof.
  intros H. destruct a; cbn [handed applyTable]; try exact H.
  - cbn. split; [reflexivity|]. exists O. split; [lia | reflexivity].
  - destruct all as [A|], now as [T|]; cbn in H |- *; try contradiction;
      [|exact I].
    destruct H as (Hh & j & Hj & Hr). split; [exact Hh|].
    rewrite Hr.
    exists (j + (List.length (skipn j (Xterm.rows A) ++ [r]) - h))%nat.
    rewrite <- skipn_snoc by exact Hj. split.
    + rewrite length_skipn, !List.length_app. cbn [List.length]. lia.
    + unfold Xterm.lastn. rewrite skipn_skipn. f_equal. lia.
Qed.


Lemma keptLast_kept (h : nat) (all now : option Xterm.Table) :
  keptLast h all now -> kept all now.
Proof.
  destruct all as [A|], now as [T|]; cbn; try tauto.
  intros (Hh & Hr). split; [exact Hh|].
  exists (List.length (Xterm.rows A) - h)%nat. split; [lia | exact Hr].
Qed.

Lemma pick_spec (who : actor) (gs : list (actor * list action)) :
  forall a gs',
    pick who gs = Some (a, gs') ->
    (exists body, In (who, body) gs /\ In a body) /\
    (forall w body',
       In (w, body') gs' ->
       exists body, In (w, body) gs /\ incl body' body).
Proof.
  induction gs as [|[w body] gs IH]; intros a gs' H; [discriminate|].
  cbn [pick] in H.
  assert (Hrec : forall a gs',
             option_map (fun '(a, rest) => (a, (w, body) :: rest)) (pick who gs)
             = Some (a, gs') ->
             (exists body0, In (who, body0) ((w, body) :: gs) /\ In a body0) /\
             (forall w0 body',
                In (w0, body') gs' ->
                exists body0, In (w0, body0) ((w, body) :: gs) /\
                              incl body' body0)).
  { clear H a gs'. intros a gs' H.
    destruct (pick who gs) as [[a0 rest]|] eqn:E; [|discriminate].
    cbn in H. injection H as <- <-.
    destruct (IH _ _ eq_refl) as [(b0 & Hin & Ha) Hrest]. split.
    - exists b0. split; [right; exact Hin | exact Ha].
    - intros w0 body' [Heq|Hin'].
      + injection Heq as <- <-. exists body. split; [left; reflexivity|].
        apply incl_refl.
      + destruct (Hrest _ _ Hin') as (b1 & Hb1 & Hi).
        exists b1. split; [right; exact Hb1 | exact Hi]. }
  destruct (actor_eqb w who) eqn:Ew; [|apply Hrec; exact H].
  destruct body as [|a0 body0]; [apply Hrec; exact H|].
  injection H as <- <-.
  apply actor_eqb_eq in Ew. subst w.
  split.
  - exists (a0 :: body0). split; [left; reflexivity | left; reflexivity].
  - intros w0 body' [Heq|Hin'].
    + injection Heq as <- <-. exists (a0 :: body0).
      split; [left; reflexivity | apply incl_tl, incl_refl].
    + exists body'. split; [right; exact Hin' | apply incl_refl].
Qed.

Lemma forallb_incl {A} (p : A -> bool) (l l' : list A) :
  incl l l' -> forallb p l' = true -> forallb p l = true.
Proof.
  intros Hi H. rewrite forallb_forall in *. intros x Hx. apply H, Hi, Hx.
Qed.

Lemma reached_start (main : list action) : reached main (start main).
Proof.
  unfold reached, start; cbn. repeat split; try contradiction.
  exists []. cbn. repeat split. left. split; reflexivity.
Qed.

Lemma starts_quiet_In (main : list action) (w : actor) (body : list action) :
  starts_quiet main = true -> In (Go w body) main -> forallb quiet body = true.
Proof.
  unfold starts_quiet. rewrite forallb_forall. intros H Hin.
  exact (H _ Hin).
Qed.

Lemma reached_step (main : list action) (who : actor) (c c' : config) :
  starts_quiet main = true ->
  reached main c -> step who c = Some c' -> reached main c'.
Proof.
  intros Hq (Hsp & Hh & pre & Ht & Hpre & Hst) Hs.
  unfold step in Hs. destruct (status c) eqn:Est; [discriminate|].
  destruct Hst as [[_ Hmain] | (code & post & Hcode & _)]; [|discriminate].
  assert (Hgo : forall w a,
            (w = Consumer /\ In a main) \/
            (exists body0, In (Go w body0) main /\ In a body0 /\
                           quiet a = true) ->
            forall w0 a0, In (w0, a0) (history c ++ [(w, a)]) ->
            (w0 = Consumer /\ In a0 main) \/
            (exists body0, In (Go w0 body0) main /\ In a0 body0 /\
                           quiet a0 = true)).
  { intros w a Ha w0 a0 Hin. apply in_app_or in Hin.
    destruct Hin as [Hin|[Heq|[]]]; [apply Hh; exact Hin|].
    injection Heq as <- <-. exact Ha. }
  assert (Hconsumer : forall a rest,
            consumer c = a :: rest ->
            reached main
              (perform Consumer a
                 (mkConfig rest (spawned c) (table c) (visibleRows c)
                           (history c) None))).
  { intros a rest Ec. rewrite Ec in Hmain.
    assert (Hin : In a main) by (rewrite Hmain; apply in_elt).
    unfold reached, perform.
    assert (Hext : forall t', t' = applyTable (visibleRows c) (table c) a ->
              is_os_exit a = false ->
              exists pre0,
                kept (fold_left handed pre0 None) t' /\
                forallb (fun a => negb (is_os_exit a)) pre0 = true /\
                ((None = None :> option Z /\ main = pre0 ++ rest) \/
                 (exists code post,
                    None = Some code /\ rest = [] /\
                    main = pre0 ++ OsExit code :: post))).
    { intros t' -> Hne. exists (pre ++ [a]).
      rewrite fold_left_app, forallb_app, Hpre. cbn [fold_left forallb].
      rewrite Hne. split; [apply kept_step; exact Ht|].
      repeat split. left. split; [reflexivity|].
      rewrite Hmain, <- app_assoc. reflexivity. }
    destruct a; cbn [consumer spawned table visibleRows history status];
      (split; [|split; [apply (Hgo Consumer); left;
                        split; [reflexivity|exact Hin]|]]);
      try exact Hsp; try (apply Hext; reflexivity).
    - (* go *)
      intros w0 body0 Hin0. apply in_app_or in Hin0.
      destruct Hin0 as [Hin0|[Heq|[]]]; [apply Hsp; exact Hin0|].
      injection Heq as <- <-. split.
      + exact (starts_quiet_In _ _ _ Hq Hin).
      + exists body. split; [exact Hin | apply incl_refl].
    - (* os.Exit *)
      intros w0 body0 [].
    - exists pre. repeat split; try assumption.
      right. exists code, rest. repeat split. exact Hmain. }
  assert (Hother : who <> Consumer ->
            forall a gs, pick who (spawned c) = Some (a, gs) ->
            reached main
              (perform who a
                 (mkConfig (consumer c) gs (table c) (visibleRows c)
                           (history c) None))).
  { intros Hw a gs Ep.
    destruct (pick_spec _ _ _ _ Ep) as [(body & Hb & Ha) Hgs].
    destruct (Hsp _ _ Hb) as (Hqb & body0 & Hmain0 & Hincl).
    assert (Hqa : quiet a = true).
    { rewrite forallb_forall in Hqb. apply Hqb, Ha. }
    assert (Hsp' : forall w b,
              In (w, b) gs ->
              forallb quiet b = true /\
              exists b0, In (Go w b0) main /\ incl b b0).
    { intros w b Hin. destruct (Hgs _ _ Hin) as (b1 & Hb1 & Hi1).
      destruct (Hsp _ _ Hb1) as (Hq1 & b0 & Hm0 & Hi0). split.
      - exact (forallb_incl _ _ _ Hi1 Hq1).
      - exists b0. split; [exact Hm0 | exact (incl_tran Hi1 Hi0)]. }
    unfold reached, perform.
    destruct a; try discriminate Hqa;
      cbn [consumer spawned table visibleRows history status applyTable];
      (split; [exact Hsp'|]);
      (split; [apply (Hgo who); right; exists body0;
               split; [exact Hmain0 | split; [apply Hincl, Ha | exact Hqa]]|]);
      exists pre; (split; [exact Ht|]); (split; [exact Hpre|]); left;
      (split; [reflexivity | exact Hmain]). }
  destruct who.
  - destruct (consumer c) as [|a rest] eqn:Ec; [discriminate|].
    injection Hs as <-. apply Hconsumer. reflexivity.
  - destruct (pick Listener (spawned c)) as [[a gs]|] eqn:Ep; [|discriminate].
    injection Hs as <-. exact (Hother ltac:(discriminate) _ _ eq_refl).
  - destruct (pick SignalWatcher (spawned c)) as [[a gs]|] eqn:Ep;
      [|discriminate].
    injection Hs as <-. exact (Hother ltac:(discriminate) _ _ eq_refl).
  - injection Hs as <-. unfold reached.
    cbn [consumer spawned table history status].
    split; [exact Hsp|]. split; [exact Hh|].
    exists pre. split; [exact Ht|]. split; [exact Hpre|].
    left. split; [reflexivity | exact Hmain].
Qed.

Lemma reached_run (main : list action) (sched : list actor) :
  starts_quiet main = true ->
  forall c c', reached main c -> run sched c = Some c' -> reached main c'.
Proof.
  intros Hq. induction sched as [|who sched IH]; intros c c' Hc Hr.
  - cbn in Hr. injection Hr as <-. exact Hc.
  - cbn [run] in Hr. unfold obind in Hr.
    destruct (step who c) as [c1|] eqn:Es; [|discriminate].
    exact (IH _ _ (reached_step _ _ _ _ Hq Hc Es) Hr).
Qed.


(** Letting [main]'s goroutine run alone reaches its [os.Exit], with
    the calls up to it in the history. *)
Lemma run_consumer_alone (l : list action) :
  forallb (fun a => negb (is_os_exit a)) l = true ->
  forall code post sp tb wh h,
  exists c',
    run (repeat Consumer (S (List.length l)))
        (mkConfig (l ++ OsExit code :: post) sp tb wh h None) = Some c' /\
    status c' = Some code /\
    history c' = h ++ List.map (pair Consumer) (l ++ [OsExit code]).
Proof.
  induction l as [|a l IH]; intros Hl code post sp tb wh h.
  - cbn. eexists. repeat split.
  - cbn [forallb] in Hl. apply andb_prop in Hl as [Ha Hl].
    cbn [List.length repeat run app]. unfold obind, step.
    cbn [status consumer].
    destruct a; try discriminate Ha;
      cbn [perform consumer spawned table visibleRows history status];
      match goal with
      | |- context [mkConfig _ ?sp' ?tb' _ (h ++ [?x]) None] =>
          destruct (IH Hl code post sp' tb' wh (h ++ [x]))
            as (c' & Hr & Hs & Hh)
      end;
      exists c'; (split; [exact Hr|]); (split; [exact Hs|]);
      rewrite Hh, <- app_assoc; reflexivity.
Qed.

Lemma listener_calls (format : string) (closeErr : option string)
    (events : list UiEvent) (a : action) :
  In a (listener format closeErr events) ->
  a = TableDraw \/ a = StreamClose \/
  exists err, a = Stderr format (ArgError (Some err)).
Proof.
  induction events as [|ev events IH]; cbn [listener]; [contradiction|].
  destruct (is_resize ev).
  - intros [<-|H]; [left; reflexivity | exact (IH H)].
  - destruct (String.eqb (ID ev) "<C-c>" || String.eqb (ID ev) "<Escape>").
    + intros [<-|H]; [right; left; reflexivity|].
      destruct closeErr as [err|]; [|contradiction].
      destruct H as [<-|[]]. right; right. exists err. reflexivity.
    + exact IH.
Qed.

Lemma listener_quiet (format : string) (closeErr : option string)
    (events : list UiEvent) :
  forallb quiet (listener format closeErr events) = true.
Proof.
  apply forallb_forall. intros a Ha.
  destruct (listener_calls _ _ _ _ Ha) as [->|[->|[err ->]]]; reflexivity.
Qed.

(** The calls of a UI session, one by one. *)
Lemma uiBody_calls (lb : list action) (rows : list Xterm.Row)
    (ff : string) (err : option string) (a : action) :
  In a (uiBody lb rows ff err) ->
  a = UiInit \/ a = Go Listener lb \/ a = TableDraw \/
  (exists r, a = TableAddRow r /\ In r rows) \/
  (exists e, err = Some e /\ a = Stderr ff (ArgError (Some e))) \/
  (err = None /\ a = UiClose).
Proof.
  unfold uiBody. intros H.
  apply in_app_or in H as [H|H].
  - destruct H as [<-|[<-|[<-|[]]]]; auto.
  - apply in_app_or in H as [H|H].
    + apply in_flat_map in H as (r & Hr & [<-|[<-|[]]]); eauto 10.
    + destruct err as [e|].
      * destruct H as [<-|[]]. eauto 10.
      * destruct H as [<-|[<-|[]]]; auto 10.
Qed.

Lemma uiProgram_starts_quiet (t : Xterm.Table) (format : string)
    (closeErr : option string) (events : list UiEvent)
    (rows : list Xterm.Row) (ff : string) (err : option string) :
  starts_quiet (uiProgram t (listener format closeErr events) rows ff err)
  = true.
Proof.
  unfold starts_quiet. apply forallb_forall. intros a Ha.
  destruct Ha as [<-|Ha]; [reflexivity|].
  apply in_app_or in Ha as [Ha|[<-|[]]]; [|reflexivity].
  destruct (uiBody_calls _ _ _ _ _ Ha)
    as [->|[->|[->|[(r & -> & _)|[(e & _ & ->)|(_ & ->)]]]]];
    try reflexivity.
  apply listener_quiet.
Qed.

Lemma uiBody_no_exit (lb : list action) (rows : list Xterm.Row)
    (ff : string) (err : option string) :
  forallb (fun a => negb (is_os_exit a)) (uiBody lb rows ff err) = true.
Proof.
  apply forallb_forall. intros a Ha.
  destruct (uiBody_calls _ _ _ _ _ Ha)
    as [->|[->|[->|[(r & -> & _)|[(e & _ & ->)|(_ & ->)]]]]]; reflexivity.
Qed.







Lemma uiCalls_program (t : Xterm.Table) (lb : list action)
    (rows : list Xterm.Row) (ff : string) (err : option string) :
  uiCalls t lb rows ff err
  ++ match err with Some _ => [] | None => [OsExit 0] end
  = uiProgram t lb rows ff err.
Proof.
  unfold uiCalls, uiProgram, uiBody, uiStatus.
  destruct err; cbn [app]; rewrite <- ?app_assoc; cbn [app];
    rewrite ?app_nil_r; reflexivity.
Qed.

Section SessionFacts.

Variable StatusText : Z -> string.

Lemma traceAuditLogWithUI_program (events : list UiEvent)
    (stream : Stream AuditEvent) :
  exists t,
    auditTable = Some t /\
    program (traceAuditLogWithUI StatusText (mkTerminal None events) stream)
    = uiProgram t
        (listener "Error: audit log stream closed with: %v"
                  (CloseErr stream) events)
        (List.map (fun d => auditRow StatusText (event d)) (delivered stream))
        "Error: audit log stream closed with: %v" (Err stream).
Proof.
  destruct (traceAuditLogWithUI_calls StatusText events stream [])
    as (t & Ht & E).
  exists t. split; [exact Ht|].
  unfold program, outcome, calls. rewrite E. cbn [fst snd].
  rewrite <- uiCalls_program. destruct (Err stream); reflexivity.
Qed.

Lemma traceErrorLogWithUI_program (events : list UiEvent)
    (stream : Stream ErrorEvent) :
  exists t,
    errorTable = Some t /\
    program (traceErrorLogWithUI (mkTerminal None events) stream)
    = uiProgram t
        (listener "Error: error log stream closed with: %v"
                  (CloseErr stream) events)
        (List.map errorRowOf (delivered stream))
        "Error: error log stream closed with: %v" (Err stream).
Proof.
  destruct (traceErrorLogWithUI_calls events stream []) as (t & Ht & E).
  exists t. split; [exact Ht|].
  unfold program, outcome, calls. rewrite E. cbn [fst snd].
  rewrite <- uiCalls_program. destruct (Err stream); reflexivity.
Qed.

End SessionFacts.





(** Who made which call in a UI session. *)
Lemma ui_session_history (t : Xterm.Table) (format : string)
    (closeErr : option string) (events : list UiEvent)
    (rows : list Xterm.Row) (ff : string) (err : option string)
    (sched : list actor) (c : config) :
  run sched (start (uiProgram t (listener format closeErr events) rows ff err))
  = Some c ->
  forall w a,
    In (w, a) (history c) ->
    (w = Consumer /\
     In a (uiProgram t (listener format closeErr events) rows ff err)) \/
    (w = Listener /\ In a (listener format closeErr events)).
Proof.
  intros Hr w a Hin.
  pose proof (reached_run _ sched
                (uiProgram_starts_quiet t format closeErr events rows ff err)
                _ _ (reached_start _) Hr) as (_ & Hh & _).
  destruct (Hh _ _ Hin) as [H|(body0 & Hgo & Ha & _)]; [left; exact H|].
  right. unfold uiProgram in Hgo.
  destruct Hgo as [Hgo|Hgo]; [discriminate|].
  apply in_app_or in Hgo as [Hgo|[Hgo|[]]]; [|discriminate].
  destruct (uiBody_calls _ _ _ _ _ Hgo)
    as [E|[E|[E|[(r & E & _)|[(e & _ & E)|(_ & E)]]]]];
    try discriminate E.
  injection E as -> ->. split; [reflexivity | exact Ha].
Qed.

(** A UI session can run to its end, whatever the size of the window:
    the consumer alone gets there. *)
Lemma ui_session_ends_at (t : Xterm.Table) (lb : list action)
    (rows : list Xterm.Row) (ff : string) (err : option string) (wh : nat) :
  exists n c,
    run (repeat Consumer n)
        (mkConfig (uiProgram t lb rows ff err) [] None wh [] None) = Some c /\
    status c = Some (uiStatus err) /\
    history c = List.map (pair Consumer) (uiProgram t lb rows ff err).
Proof.
  unfold uiProgram.
  destruct (run_consumer_alone (TableNew t :: uiBody lb rows ff err)
              ltac:(cbn [forallb]; rewrite uiBody_no_exit; reflexivity)
              (uiStatus err) [] [] None wh []) as (c' & Hr & Hs & Hh).
  eexists _, c'. split; [exact Hr|]. split; [exact Hs | exact Hh].
Qed.

Lemma ui_session_ends (t : Xterm.Table) (lb : list action)
    (rows : list Xterm.Row) (ff : string) (err : option string) :
  exists sched c,
    run sched (start (uiProgram t lb rows ff err)) = Some c /\
    status c = Some (uiStatus err) /\
    history c = List.map (pair Consumer) (uiProgram t lb rows ff err).
Proof.
  destruct (ui_session_ends_at t lb rows ff err 0) as (n & c & H).
  exists (repeat Consumer n), c. exact H.
Qed.





(** ** A window of steady size *)











(** ** The order of the calls *)

Lemma callsOf_app (w : actor) (h h' : list (actor * action)) :
  callsOf w (h ++ h') = callsOf w h ++ callsOf w h'.
Proof. unfold callsOf. rewrite filter_app, map_app. reflexivity. Qed.

Lemma callsOf_same (w : actor) (l : list action) :
  callsOf w (List.map (pair w) l) = l.
Proof.
  unfold callsOf. induction l as [|a l IH]; [reflexivity|].
  cbn [List.map List.filter fst].
  rewrite (proj2 (actor_eqb_eq w w) eq_refl). cbn [List.map snd].
  rewrite IH. reflexivity.
Qed.

Lemma callsOf_other (w w' : actor) (l : list action) :
  w' <> w -> callsOf w (List.map (pair w') l) = [].
Proof.
  intros Hw. unfold callsOf. induction l as [|a l IH]; [reflexivity|].
  cbn [List.map List.filter fst].
  destruct (actor_eqb w' w) eqn:E; [|exact IH].
  apply actor_eqb_eq in E. contradiction.
Qed.

Lemma In_callsOf (w : actor) (h : list (actor * action)) (a : action) :
  In a (callsOf w h) <-> In (w, a) h.
Proof.
  unfold callsOf. rewrite in_map_iff. split.
  - intros ([w' a'] & E & Hin). cbn in E. subst a'.
    apply filter_In in Hin as [Hin Hw]. cbn in Hw.
    apply actor_eqb_eq in Hw. subst w'. exact Hin.
  - intros Hin. exists (w, a). split; [reflexivity|].
    apply filter_In. split; [exact Hin|].
    apply actor_eqb_eq. reflexivity.
Qed.

Lemma goBodies_app (w : actor) (l l' : list action) :
  goBodies w (l ++ l') = goBodies w l ++ goBodies w l'.
Proof.
  induction l as [|a l IH]; [reflexivity|].
  destruct a; cbn [app goBodies]; try exact IH.
  rewrite IH, app_assoc. reflexivity.
Qed.

Lemma pending_app (w : actor) (gs gs' : list (actor * list action)) :
  pending w (gs ++ gs') = pending w gs ++ pending w gs'.
Proof. unfold pending. rewrite filter_app, flat_map_app. reflexivity. Qed.

(** The call a goroutine is picked for is the next of those pending for
    its activity, and of no other. *)
Lemma pick_pending (who : actor) (gs : list (actor * list action)) :
  forall a gs',
    pick who gs = Some (a, gs') ->
    pending who gs = a :: pending who gs' /\
    forall w, w <> who -> pending w gs' = pending w gs.
Proof.
  induction gs as [|[w0 body] gs IH]; intros a gs' H; [discriminate|].
  cbn [pick] in H.
  assert (Hrec : option_map (fun '(a, rest) => (a, (w0, body) :: rest))
                            (pick who gs) = Some (a, gs') ->
                 body = [] \/ actor_eqb w0 who = false ->
                 pending who ((w0, body) :: gs) = a :: pending who gs' /\
                 forall w, w <> who ->
                           pending w gs' = pending w ((w0, body) :: gs)).
  { intros H' Hskip.
    destruct (pick who gs) as [[a0 rest]|] eqn:E; [|discriminate].
    cbn in H'. injection H' as <- <-.
    destruct (IH _ _ eq_refl) as [H1 H2]. unfold pending in *.
    cbn [List.filter fst]. split.
    - destruct (actor_eqb w0 who) eqn:Ew.
      + destruct Hskip as [->|Hs]; [|discriminate].
        cbn [flat_map snd app]. exact H1.
      + exact H1.
    - intros w Hw. destruct (actor_eqb w0 w); cbn [flat_map snd];
        rewrite (H2 w Hw); reflexivity. }
  destruct (actor_eqb w0 who) eqn:Ew;
    [|apply Hrec; [exact H | right; reflexivity]].
  destruct body as [|a0 body0]; [apply Hrec; [exact H | left; reflexivity]|].
  injection H as <- <-. unfold pending. cbn [List.filter fst]. rewrite Ew.
  split; [reflexivity|].
  intros w Hw. destruct (actor_eqb w0 w) eqn:Ew'; [|reflexivity].
  apply actor_eqb_eq in Ew, Ew'. congruence.
Qed.

Lemma in_order_start (main : list action) : in_order main (start main).
Proof.
  exists []. split; [reflexivity|]. left. cbn. repeat split.
Qed.

Lemma in_order_step (main : list action) (who : actor) (c c' : config) :
  reached main c -> in_order main c -> step who c = Some c' ->
  in_order main c'.
Proof.
  intros (Hsp & _ & _) (pre & Hpre & Hst) Hs.
  unfold step in Hs. destruct (status c) eqn:Est; [discriminate|].
  destruct Hst as [(_ & Hmain & Hc & Hg) | (code & post & Hcode & _)];
    [|discriminate].
  assert (Hsnoc : forall w w' a,
            callsOf w (history c ++ [(w', a)])
            = callsOf w (history c) ++ (if actor_eqb w' w then [a] else [])).
  { intros w w' a. rewrite callsOf_app. unfold callsOf at 2.
    cbn [List.filter fst]. destruct (actor_eqb w' w); reflexivity. }
  assert (Hnc : forall w, w <> Consumer -> actor_eqb Consumer w = false).
  { intros w Hw. destruct (actor_eqb Consumer w) eqn:E; [|reflexivity].
    apply actor_eqb_eq in E. congruence. }
  assert (Hother : who <> Consumer ->
            forall a gs,
              pick who (spawned c) = Some (a, gs) ->
              in_order main
                (perform who a
                   (mkConfig (consumer c) gs (table c) (visibleRows c)
                             (history c) None))).
  { intros Hw a gs Ep.
    destruct (pick_spec _ _ _ _ Ep) as [(body & Hb & Ha) _].
    destruct (Hsp _ _ Hb) as (Hqb & _).
    assert (Hqa : quiet a = true).
    { rewrite forallb_forall in Hqb. apply Hqb, Ha. }
    destruct (pick_pending _ _ _ _ Ep) as [Hp1 Hp2].
    assert (Hwc : actor_eqb who Consumer = false).
    { destruct (actor_eqb who Consumer) eqn:E; [|reflexivity].
      apply actor_eqb_eq in E. contradiction. }
    exists pre. split; [exact Hpre|]. left.
    unfold perform.
    destruct a; try discriminate Hqa;
      cbn [consumer spawned table visibleRows history status];
      (split; [reflexivity|]); (split; [exact Hmain|]);
      (split; [rewrite Hsnoc, Hwc, app_nil_r; exact Hc|]);
      intros w Hwne; rewrite Hsnoc;
      (destruct (actor_eqb who w) eqn:E;
       [apply actor_eqb_eq in E; subst w;
        rewrite <- app_assoc; cbn [app]; rewrite <- Hp1; apply Hg; exact Hw
       |rewrite app_nil_r, Hp2;
        [apply Hg; exact Hwne
        |intros ->; rewrite (proj2 (actor_eqb_eq who who) eq_refl) in E;
         discriminate E]]). }
  destruct who.
  - destruct (consumer c) as [|a rest] eqn:Ec; [discriminate|].
    injection Hs as <-. unfold perform.
    assert (Hstep : is_os_exit a = false ->
              forall sp',
                (forall w, w <> Consumer ->
                           pending w sp'
                           = pending w (spawned c)
                             ++ match a with
                                | Go w' b => if actor_eqb w' w then b else []
                                | _ => []
                                end) ->
                forallb (fun a => negb (is_os_exit a)) (pre ++ [a]) = true /\
                main = (pre ++ [a]) ++ rest /\
                callsOf Consumer (history c ++ [(Consumer, a)]) = pre ++ [a] /\
                forall w, w <> Consumer ->
                          callsOf w (history c ++ [(Consumer, a)])
                          ++ pending w sp'
                          = goBodies w (pre ++ [a])).
    { intros Hne sp' Hsp'. rewrite forallb_app, Hpre. cbn [forallb].
      rewrite Hne. split; [reflexivity|].
      split; [rewrite Hmain, <- app_assoc; reflexivity|].
      split; [rewrite Hsnoc, Hc; reflexivity|].
      intros w Hw. rewrite Hsnoc, (Hnc w Hw), app_nil_r, goBodies_app.
      rewrite (Hsp' w Hw), app_assoc, (Hg w Hw).
      destruct a; cbn [goBodies]; rewrite ?app_nil_r; reflexivity. }
    destruct a;
      cbn [consumer spawned table visibleRows history status];
      try (match goal with
           | |- context [history c ++ [(Consumer, ?x)]] => exists (pre ++ [x])
           end;
           destruct (Hstep eq_refl (spawned c)) as (H1 & H2 & H3 & H4);
           [intros w Hw; rewrite app_nil_r; reflexivity|];
           split; [exact H1|]; left;
           split; [reflexivity|]; split; [exact H2|];
           split; [exact H3 | exact H4]).
    + exists (pre ++ [Go who body]).
      destruct (Hstep eq_refl (spawned c ++ [(who, body)]))
        as (H1 & H2 & H3 & H4).
      { intros w Hw. rewrite pending_app. unfold pending at 2.
        cbn [List.filter fst].
        destruct (actor_eqb who w); cbn; rewrite ?app_nil_r; reflexivity. }
      split; [exact H1|]. left.
      split; [reflexivity|]. split; [exact H2|].
      split; [exact H3 | exact H4].
    + exists pre. split; [exact Hpre|]. right. exists code, rest.
      cbn [consumer spawned table visibleRows history status].
      split; [reflexivity|]. split; [exact Hmain|].
      split; [rewrite Hsnoc, Hc; reflexivity|].
      intros w Hw. exists (pending w (spawned c)).
      rewrite Hsnoc, (Hnc w Hw), app_nil_r. apply Hg, Hw.
  - destruct (pick Listener (spawned c)) as [[a gs]|] eqn:Ep; [|discriminate].
    injection Hs as <-. exact (Hother ltac:(discriminate) _ _ eq_refl).
  - destruct (pick SignalWatcher (spawned c)) as [[a gs]|] eqn:Ep;
      [|discriminate].
    injection Hs as <-. exact (Hother ltac:(discriminate) _ _ eq_refl).
  - injection Hs as <-. exists pre. split; [exact Hpre|]. left.
    cbn [consumer spawned table visibleRows history status].
    split; [reflexivity|]. split; [exact Hmain|].
    split; [exact Hc | exact Hg].
Qed.

Lemma in_order_run (main : list action) (sched : list actor) :
  starts_quiet main = true ->
  forall c c',
    reached main c -> in_order main c -> run sched c = Some c' ->
    in_order main c'.
Proof.
  intros Hq. induction sched as [|who sched IH]; intros c c' Hc Ho Hr.
  - cbn in Hr. injection Hr as <-. exact Ho.
  - cbn [run] in Hr. unfold obind in Hr.
    destruct (step who c) as [c1|] eqn:Es; [|discriminate].
    exact (IH _ _ (reached_step _ _ _ _ Hq Hc Es)
              (in_order_step _ _ _ _ Hc Ho Es) Hr).
Qed.

Lemma run_app (s1 s2 : list actor) :
  forall c, run (s1 ++ s2) c = obind (run s1 c) (run s2).
Proof.
  induction s1 as [|who s1 IH]; intros c; [reflexivity|].
  cbn [app run]. unfold obind at 1 3.
  destruct (step who c) as [c1|]; [apply IH | reflexivity].
Qed.

(** The listener alone makes all its calls, in their order. *)
Lemma run_listener_alone (lb : list action) :
  forallb quiet lb = true ->
  forall cs tb wh h,
    run (repeat Listener (List.length lb))
        (mkConfig cs [(Listener, lb)] tb wh h None)
    = Some (mkConfig cs [(Listener, [])] tb wh
                     (h ++ List.map (pair Listener) lb) None).
Proof.
  induction lb as [|a lb IH]; intros Hq cs tb wh h.
  - cbn. rewrite app_nil_r. reflexivity.
  - cbn [forallb] in Hq. apply andb_prop in Hq as [Ha Hq].
    cbn [List.length repeat run]. unfold obind, step.
    cbn [status spawned pick actor_eqb consumer table visibleRows history].
    assert (E : perform Listener a
                  (mkConfig cs [(Listener, lb)] tb wh h None)
                = mkConfig cs [(Listener, lb)] tb wh (h ++ [(Listener, a)])
                           None).
    { unfold perform. destruct a; try discriminate Ha; reflexivity. }
    rewrite E, IH by exact Hq.
    cbn [List.map]. rewrite <- app_assoc. reflexivity.
Qed.

Lemma goBodies_rows (w : actor) (rows : list Xterm.Row) (l : list action) :
  goBodies w (flat_map (fun r => [TableAddRow r; TableDraw]) rows ++ l)
  = goBodies w l.
Proof. induction rows as [|r rows IH]; [reflexivity | exact IH]. Qed.

Lemma goBodies_uiProgram (t : Xterm.Table) (lb : list action)
    (rows : list Xterm.Row) (ff : string) (err : option string) :
  goBodies Listener (uiProgram t lb rows ff err) = lb.
Proof.
  unfold uiProgram, uiBody. cbn [app goBodies actor_eqb].
  rewrite <- app_assoc, goBodies_rows.
  destruct err; cbn; apply app_nil_r.
Qed.

(** In a UI session each activity has made, at every moment, the first
    of its calls, in their order. *)
Lemma ui_session_order (t : Xterm.Table) (format : string)
    (closeErr : option string) (events : list UiEvent)
    (rows : list Xterm.Row) (ff : string) (err : option string)
    (sched : list actor) (c : config) :
  let lb := listener format closeErr events in
  let main := uiProgram t lb rows ff err in
  run sched (start main) = Some c ->
  (exists rest, main = callsOf Consumer (history c) ++ rest) /\
  (exists rest, lb = callsOf Listener (history c) ++ rest).
Proof.
  intros lb main Hr.
  pose proof (uiProgram_starts_quiet t format closeErr events rows ff err)
    as Hq.
  fold lb main in Hq.
  destruct (in_order_run main sched Hq _ _ (reached_start _)
              (in_order_start _) Hr) as (pre & _ & Hst).
  pose proof (goBodies_uiProgram t lb rows ff err) as Hgo. fold main in Hgo.
  destruct Hst as [(_ & Hmain & Hc & Hg) | (code & post & _ & Hmain & Hc & Hg)].
  - split.
    + exists (consumer c). rewrite Hc. exact Hmain.
    + exists (pending Listener (spawned c) ++ goBodies Listener (consumer c)).
      rewrite app_assoc, (Hg Listener ltac:(discriminate)), <- goBodies_app,
        <- Hmain.
      symmetry. exact Hgo.
  - split.
    + exists post. rewrite Hc, <- app_assoc. exact Hmain.
    + destruct (Hg Listener ltac:(discriminate)) as (rest & Hrest).
      exists (rest ++ goBodies Listener (OsExit code :: post)).
      rewrite app_assoc, Hrest, <- goBodies_app, <- Hmain.
      symmetry. exact Hgo.
Qed.

(** A UI session has a run in which both activities make all their
    calls. *)
Lemma ui_session_full (t : Xterm.Table) (lb : list action)
    (rows : list Xterm.Row) (ff : string) (err : option string) :
  forallb quiet lb = true ->
  exists sched c,
    run sched (start (uiProgram t lb rows ff err)) = Some c /\
    status c = Some (uiStatus err) /\
    callsOf Consumer (history c) = uiProgram t lb rows ff err /\
    callsOf Listener (history c) = lb.
Proof.
  intros Hq.
  set (l := TableDraw
            :: flat_map (fun r => [TableAddRow r; TableDraw]) rows
            ++ match err with
               | Some e => [Stderr ff (ArgError (Some e))]
               | None => [UiClose; TableDraw]
               end).
  assert (Hprog : uiProgram t lb rows ff err
                  = [TableNew t; UiInit; Go Listener lb]
                    ++ l ++ [OsExit (uiStatus err)]) by reflexivity.
  assert (Hl : forallb (fun a => negb (is_os_exit a)) l = true).
  { pose proof (uiBody_no_exit lb rows ff err) as H. exact H. }
  destruct (run_consumer_alone l Hl (uiStatus err) [] [(Listener, [])]
              (Some t) 0%nat
              ([(Consumer, TableNew t); (Consumer, UiInit);
                (Consumer, Go Listener lb)]
               ++ List.map (pair Listener) lb))
    as (c & Hr & Hs & Hh).
  exists ([Consumer; Consumer; Consumer]
          ++ repeat Listener (List.length lb)
          ++ repeat Consumer (S (List.length l))), c.
  split; [|split; [exact Hs|]].
  - rewrite Hprog, run_app.
    change (run [Consumer; Consumer; Consumer]
                (start ([TableNew t; UiInit; Go Listener lb]
                        ++ l ++ [OsExit (uiStatus err)])))
      with (Some (mkConfig (l ++ [OsExit (uiStatus err)]) [(Listener, lb)]
                           (Some t) 0%nat
                           [(Consumer, TableNew t); (Consumer, UiInit);
                            (Consumer, Go Listener lb)] None)).
    cbn [obind]. rewrite run_app, (run_listener_alone lb Hq). cbn [obind].
    exact Hr.
  - rewrite Hh, Hprog.
    change [(Consumer, TableNew t); (Consumer, UiInit);
            (Consumer, Go Listener lb)]
      with (List.map (pair Consumer) [TableNew t; UiInit; Go Listener lb]).
    rewrite !callsOf_app, !callsOf_same.
    rewrite !callsOf_other by discriminate.
    split; rewrite ?app_nil_r; reflexivity.
Qed.

(** The listener draws exactly when a resize event arrives before a key
    that cancels. *)
Lemma listener_paints (format : string) (closeErr : option string)
    (events : list UiEvent) :
  In TableDraw (listener format closeErr events)
  <-> existsb is_resize (before_cancel events) = true.
Proof.
  induction events as [|ev events IH]; cbn [listener before_cancel];
    [cbn; split; [contradiction | discriminate]|].
  unfold is_cancel at 1. destruct (is_resize ev) eqn:Hres; cbn [negb andb].
  - cbn [existsb]. rewrite Hres. cbn [orb In]. split; auto.
  - destruct (String.eqb (ID ev) "<C-c>" || String.eqb (ID ev) "<Escape>").
    + cbn [existsb]. split; [|discriminate].
      intros [H|H]; [discriminate H|].
      destruct closeErr; cbn in H; [destruct H as [H|[]]; discriminate H|].
      contradiction.
    + cbn [existsb]. rewrite Hres. cbn [orb]. exact IH.
Qed.

(** What the listener calls, in order. *)
Lemma listener_in_order (format : string) (closeErr : option string)
    (events : list UiEvent) :
  listener format closeErr events
  = List.map (fun _ => TableDraw)
             (List.filter is_resize (before_cancel events))
    ++ (if existsb is_cancel events
        then StreamClose :: closeReport format closeErr
        else []).
Proof.
  induction events as [|ev events IH]; [reflexivity|].
  cbn [listener before_cancel existsb]. unfold is_cancel at 1 2.
  destruct (is_resize ev) eqn:Hr; cbn [negb andb orb].
  - cbn [List.filter]. rewrite Hr. cbn [List.map app]. rewrite IH.
    reflexivity.
  - destruct (String.eqb (ID ev) "<C-c>" || String.eqb (ID ev) "<Escape>");
      cbn [orb List.filter List.map app].
    + reflexivity.
    + rewrite Hr. exact IH.
Qed.

(** ** Who paints *)

(** C2, as stated, fails: with one resize event pending, the schedule that
    lets the consumer make its first four calls and then the listener one
    has [Table.Draw] called by both. *)
Lemma paints_not_serialized : ~ paints_serialized.
Proof.
  intros H.
  pose (term := mkTerminal None [mkUiEvent ResizeEvent "<Resize>"]).
  pose (stream := mkStream (E := AuditEvent) [] None None).
  pose (sched := [Consumer; Consumer; Consumer; Consumer; Listener]).
  assert (Hrun : exists c,
            run sched
                (start (program (traceAuditLogWithUI (fun _ => "OK") term
                                                     stream))) = Some c /\
            painters (history c) = [Consumer; Listener]).
  { vm_compute. eexists. split; reflexivity. }
  destruct Hrun as (c & Hr & Hp).
  specialize (H _ _ _ _ _ Hr Consumer Listener).
  rewrite Hp in H. cbn in H.
  discriminate H; auto.
Qed.

Lemma painters_In (h : list (actor * action)) (w : actor) :
  In w (painters h) <-> In (w, TableDraw) h.
Proof.
  unfold painters. rewrite in_map_iff. split.
  - intros ([w' a] & <- & Hin). apply filter_In in Hin as [Hin Hd].
    cbn in Hd. destruct a; try discriminate Hd. exact Hin.
  - intros Hin. exists (w, TableDraw). split; [reflexivity|].
    apply filter_In. split; [exact Hin | reflexivity].
Qed.

(** What a UI session of either kind guarantees about who calls what,
    and in which order. *)
Lemma ui_session_owners (t : Xterm.Table) (format : string)
    (closeErr : option string) (events : list UiEvent)
    (rows : list Xterm.Row) (ff : string) (err : option string) :
  let lb := listener format closeErr events in
  let main := uiProgram t lb rows ff err in
  let resized := existsb is_resize (before_cancel events) in
  (forall sched c,
     run sched (start main) = Some c ->
     (forall w a,
        In (w, a) (history c) ->
        mutates_table a = true \/ a = UiInit \/ a = UiClose ->
        w = Consumer) /\
     (forall a,
        In (Listener, a) (history c) ->
        a = TableDraw \/ a = StreamClose \/
        exists e, a = Stderr format (ArgError (Some e))) /\
     (forall w, In w (painters (history c)) -> w = Consumer \/ w = Listener) /\
     (exists rest, main = callsOf Consumer (history c) ++ rest) /\
     (exists rest, lb = callsOf Listener (history c) ++ rest) /\
     (resized = false -> ~ In Listener (painters (history c)))) /\
  (exists sched c,
     run sched (start main) = Some c /\
     status c <> None /\
     callsOf Consumer (history c) = main /\
     callsOf Listener (history c) = lb /\
     In Consumer (painters (history c)) /\
     (resized = true -> In Listener (painters (history c)))).
Proof.
  intros lb main resized. split.
  - intros sched c Hr.
    pose proof (ui_session_history _ _ _ _ _ _ _ _ _ Hr) as Hh.
    destruct (ui_session_order _ _ _ _ _ _ _ _ _ Hr) as [Ho1 Ho2].
    split; [|split; [|split; [|split; [exact Ho1|split; [exact Ho2|]]]]].
    + intros w a Hin Ha.
      destruct (Hh _ _ Hin) as [[-> _]|[-> Hl]]; [reflexivity|].
      exfalso.
      destruct (listener_calls _ _ _ _ Hl) as [->|[->|[e ->]]];
        destruct Ha as [Ha|[Ha|Ha]]; discriminate Ha.
    + intros a Hin.
      destruct (Hh _ _ Hin) as [[Hw _]|[_ Hl]]; [discriminate Hw|].
      exact (listener_calls _ _ _ _ Hl).
    + intros w Hw. apply painters_In in Hw.
      destruct (Hh _ _ Hw) as [[-> _]|[-> _]]; auto.
    + intros Hres Hp. apply painters_In in Hp.
      destruct (Hh _ _ Hp) as [[Hw _]|[_ Hl]]; [discriminate Hw|].
      apply listener_paints in Hl. fold resized in Hl. congruence.
  - destruct (ui_session_full t lb rows ff err
                (listener_quiet format closeErr events))
      as (sched & c & Hr & Hs & Hc & Hl).
    exists sched, c. fold main in Hr, Hc.
    split; [exact Hr|]. split; [congruence|].
    split; [exact Hc|]. split; [exact Hl|]. split.
    + apply painters_In, In_callsOf. rewrite Hc.
      unfold main, uiProgram, uiBody. cbn. auto.
    + intros Hres. apply painters_In, In_callsOf. rewrite Hl.
      apply listener_paints. exact Hres.
Qed.

(** C2, amended: in a UI session of either kind, however the goroutines
    are scheduled, the table's rows are created and appended by the
    consumer only, which alone initialises and releases the terminal; the
    listener only calls [Table.Draw], [Stream.Close] and reports the error
    of [Close]; and [Table.Draw] is called by the consumer and by the
    listener directly, and by nobody else.  Each of the two makes its
    calls in the order of its code, whatever the other does: the
    consumer creates the table, initialises the terminal, starts the
    listener, draws, then adds a row and draws for each event, and ends
    with the report of the stream's error and [os.Exit(1)], or with
    [ui.Close()] and one more draw; the listener draws once for each
    resize event that arrives before the first <C-c> or <Escape>, then
    closes the stream and reports, and does nothing after.  Some run has
    both make all their calls; the consumer draws in it, and the
    listener does exactly when a resize event arrives before a key that
    cancels: with none, it draws in no run. *)
Theorem rows_owned_by_consumer_draw_shared (StatusText : Z -> string)
    (events : list UiEvent)
    (audit : Stream AuditEvent) (errors : Stream ErrorEvent) :
  let auditMain :=
    program (traceAuditLogWithUI StatusText (mkTerminal None events) audit) in
  let errorMain :=
    program (traceErrorLogWithUI (mkTerminal None events) errors) in
  let auditFormat := "Error: audit log stream closed with: %v" in
  let errorFormat := "Error: error log stream closed with: %v" in
  let auditListener := listener auditFormat (CloseErr audit) events in
  let errorListener := listener errorFormat (CloseErr errors) events in
  let auditRows :=
    List.map (fun d => auditRow StatusText (event d)) (delivered audit) in
  let errorRows := List.map errorRowOf (delivered errors) in
  let resized := existsb is_resize (before_cancel events) in
  let owners main lb :=
    (forall sched c,
       run sched (start main) = Some c ->
       (forall w a,
          In (w, a) (history c) ->
          mutates_table a = true \/ a = UiInit \/ a = UiClose ->
          w = Consumer) /\
       (forall a,
          In (Listener, a) (history c) ->
          a = TableDraw \/ a = StreamClose \/
          exists format e, a = Stderr format (ArgError (Some e))) /\
       (forall w, In w (painters (history c)) ->
                  w = Consumer \/ w = Listener) /\
       (exists rest, main = callsOf Consumer (history c) ++ rest) /\
       (exists rest, lb = callsOf Listener (history c) ++ rest) /\
       (resized = false -> ~ In Listener (painters (history c)))) /\
    (exists sched c,
       run sched (start main) = Some c /\
       status c <> None /\
       callsOf Consumer (history c) = main /\
       callsOf Listener (history c) = lb /\
       In Consumer (painters (history c)) /\
       (resized = true -> In Listener (painters (history c)))) in
  let closing (format : string) (err : option string) :=
    match err with
    | Some e => [Stderr format (ArgError (Some e)); OsExit 1]
    | None => [UiClose; TableDraw; OsExit 0]
    end in
  let listens (format : string) (closeErr : option string) :=
    List.map (fun _ => TableDraw)
             (List.filter is_resize (before_cancel events))
    ++ (if existsb is_cancel events
        then StreamClose :: closeReport format closeErr
        else []) in
  owners auditMain auditListener /\
  owners errorMain errorListener /\
  (exists t,
     auditTable = Some t /\
     auditMain
     = [TableNew t; UiInit; Go Listener auditListener; TableDraw]
       ++ flat_map (fun r => [TableAddRow r; TableDraw]) auditRows
       ++ closing auditFormat (Err audit)) /\
  (exists t,
     errorTable = Some t /\
     errorMain
     = [TableNew t; UiInit; Go Listener errorListener; TableDraw]
       ++ flat_map (fun r => [TableAddRow r; TableDraw]) errorRows
       ++ closing errorFormat (Err errors)) /\
  auditListener = listens auditFormat (CloseErr audit) /\
  errorListener = listens errorFormat (CloseErr errors).
Proof.
  intros auditMain errorMain auditFormat errorFormat auditListener
    errorListener auditRows errorRows resized owners closing listens.
  destruct (traceAuditLogWithUI_program StatusText events audit)
    as (ta & Hta & Ea).
  destruct (traceErrorLogWithUI_program events errors) as (te & Hte & Ee).
  fold auditMain auditFormat auditListener auditRows in Ea.
  fold errorMain errorFormat errorListener errorRows in Ee.
  assert (Hshape : forall t lb rows ff err,
            uiProgram t lb rows ff err
            = [TableNew t; UiInit; Go Listener lb; TableDraw]
              ++ flat_map (fun r => [TableAddRow r; TableDraw]) rows
              ++ closing ff err).
  { intros t lb rows ff err. unfold uiProgram, uiBody, uiStatus, closing.
    cbn [app]. rewrite <- app_assoc. destruct err; reflexivity. }
  assert (Howners : forall t format closeErr rows err,
            owners (uiProgram t (listener format closeErr events) rows
                              format err)
                   (listener format closeErr events)).
  { intros t format closeErr rows err. subst owners. cbv beta.
    destruct (ui_session_owners t format closeErr events rows format err)
      as [H1 H2].
    split; [|exact H2].
    intros sched c Hr.
    destruct (H1 sched c Hr) as (Ha & Hb & Hc & Hd & He & Hf).
    repeat split; try assumption.
    intros a Hin. destruct (Hb a Hin) as [->|[->|[e ->]]]; eauto. }
  split; [rewrite Ea; apply Howners|].
  split; [rewrite Ee; apply Howners|].
  split; [exists ta; split; [exact Hta | rewrite Ea; apply Hshape]|].
  split; [exists te; split; [exact Hte | rewrite Ee; apply Hshape]|].
  split; apply listener_in_order.
Qed.

(** ** [logTrace] *)

Lemma flat_map_singleton {A B} (f : A -> B) (l : list A) :
  flat_map (fun x => [f x]) l = List.map f l.
Proof. induction l as [|x l IH]; cbn; congruence. Qed.

Section LogTraceFacts.

Variable StatusText : Z -> string.
Variable lowerCaseTable : Z -> Z.

(** A terminal that fails to initialise ends the process before any
    deferred call is registered. *)
Lemma traceAuditLogWithUI_init_fails (term : Terminal) (err : string)
    (stream : Stream AuditEvent) (ds : list action) :
  InitErr term = Some err ->
  exists t,
    traceAuditLogWithUI StatusText term stream ds
    = (Exited 1,
       [TableNew t; Stderr "Error: %v" (ArgError (Some err)); OsExit 1], ds).
Proof.
  intros Hi. destruct auditTable_defined as [t Ht]. exists t.
  unfold traceAuditLogWithUI, call, bind. rewrite Ht, Hi. reflexivity.
Qed.

Lemma traceErrorLogWithUI_init_fails (term : Terminal) (err : string)
    (stream : Stream ErrorEvent) (ds : list action) :
  InitErr term = Some err ->
  exists t,
    traceErrorLogWithUI term stream ds
    = (Exited 1,
       [TableNew t; Stderr "Error: %v" (ArgError (Some err)); OsExit 1], ds).
Proof.
  intros Hi. destruct errorTable_defined as [t Ht]. exists t.
  unfold traceErrorLogWithUI, call, bind. rewrite Ht, Hi. reflexivity.
Qed.

(** The non-interactive loop: whatever the stream does, it ends in
    [stdlog.Fatalf]. *)
Lemma plain_loop_calls {E} (stream : Stream E) (sig : bool) (ff : string)
    (ds : list action) :
  (closeOn (CloseErr stream) sig ;;;
   forEach (delivered stream) (fun d => emit (Stdout (bytes d))) ;;;
   Fatalf ff (ArgError (Err stream))) ds
  = (Exited 1, plainCalls stream sig ff, ds).
Proof.
  unfold bind, closeOn, Fatalf, emit, osExit, plainCalls.
  rewrite (forEach_calls _ (fun d => [Stdout (bytes d)])) by reflexivity.
  rewrite flat_map_singleton. reflexivity.
Qed.

(** The exit status of [logTrace], on every invocation. *)
Lemma logTrace_exit_code (inv : Invocation) :
  exitCode (outcome (logTrace StatusText lowerCaseTable inv))
  = if returns_normally lowerCaseTable inv then 0 else 1.
Proof.
  unfold returns_normally, outcome, logTrace, call.
  unfold bind at 1.
  destruct (0 <? NArg inv); [reflexivity|].
  cbn [ret negb andb fst snd app].
  destruct (selectMode lowerCaseTable (typeFlag inv)).
  - destruct (auditLog inv) as [err|stream]; [rewrite !andb_false_r; reflexivity|].
    unfold bind at 1. cbn [defer].
    destruct (negb (stdoutIsTerm inv) || jsonOutput inv).
    + unfold bind at 1 2 3. unfold closeOn, emit.
      rewrite (forEach_calls _ (fun d => [Stdout (bytes d)])) by reflexivity.
      reflexivity.
    + cbn [negb andb]. destruct (terminal inv) as [[e|] evs].
      * destruct (traceAuditLogWithUI_init_fails (mkTerminal (Some e) evs) e stream [StreamClose] eq_refl) as (t & ->). reflexivity.
      * destruct (traceAuditLogWithUI_calls StatusText evs stream [StreamClose]) as (t & _ & ->).
        cbn [InitErr andb]. destruct (Err stream); reflexivity.
  - destruct (errorLog inv) as [err|stream]; [rewrite !andb_false_r; reflexivity|].
    unfold bind at 1. cbn [defer]. unfold bind at 1.
    destruct (negb (stdoutIsTerm inv) || jsonOutput inv).
    + unfold bind at 1 2. unfold closeOn, emit.
      rewrite (forEach_calls _ (fun d => [Stdout (bytes d)])) by reflexivity.
      reflexivity.
    + cbn [negb andb ret]. destruct (terminal inv) as [[e|] evs].
      * destruct (traceErrorLogWithUI_init_fails (mkTerminal (Some e) evs) e stream [StreamClose] eq_refl) as (t & ->). reflexivity.
      * destruct (traceErrorLogWithUI_calls evs stream [StreamClose]) as (t & _ & ->).
        cbn [InitErr andb]. destruct (Err stream); reflexivity.
  - rewrite !andb_false_r. reflexivity.
Qed.

(** The calls of [logTrace] when it does not start the terminal UI. *)
Lemma logTrace_plain_audit (inv : Invocation) (stream : Stream AuditEvent)
    (ds : list action) :
  (0 <? NArg inv) = false ->
  selectMode lowerCaseTable (typeFlag inv) = ModeAudit ->
  auditLog inv = inr stream ->
  negb (stdoutIsTerm inv) || jsonOutput inv = true ->
  logTrace StatusText lowerCaseTable inv ds
  = (Exited 1,
     plainCalls stream (signalled inv) "Error: audit log closed with: %v", ds).
Proof.
  intros Hn Hm Ha Hp. unfold logTrace, call. unfold bind at 1.
  rewrite Hn, Hm, Ha. cbn [ret]. unfold bind at 1. cbn [defer]. rewrite Hp.
  unfold bind at 1 2 3. unfold closeOn, emit.
  rewrite (forEach_calls _ (fun d => [Stdout (bytes d)])) by reflexivity.
  unfold plainCalls. rewrite flat_map_singleton. reflexivity.
Qed.

Lemma logTrace_plain_error (inv : Invocation) (stream : Stream ErrorEvent)
    (ds : list action) :
  (0 <? NArg inv) = false ->
  selectMode lowerCaseTable (typeFlag inv) = ModeError ->
  errorLog inv = inr stream ->
  negb (stdoutIsTerm inv) || jsonOutput inv = true ->
  logTrace StatusText lowerCaseTable inv ds
  = (Exited 1,
     plainCalls stream (signalled inv) "Error: error log closed with: %v", ds).
Proof.
  intros Hn Hm Ha Hp. unfold logTrace, call. unfold bind at 1.
  rewrite Hn, Hm, Ha. cbn [ret]. unfold bind at 1. cbn [defer]. rewrite Hp.
  unfold bind at 1.
  rewrite (plain_loop_calls stream (signalled inv)
             "Error: error log closed with: %v" [StreamClose]).
  reflexivity.
Qed.

End LogTraceFacts.

(** ** Leaving the process *)

Lemma uiProgram_no_close (t : Xterm.Table) (format : string)
    (closeErr : option string) (events : list UiEvent)
    (rows : list Xterm.Row) (ff : string) (e : string) (w : actor)
    (sched : list actor) (c : config) :
  run sched
      (start (uiProgram t (listener format closeErr events) rows ff (Some e)))
  = Some c ->
  ~ In (w, UiClose) (history c).
Proof.
  intros Hr Hin.
  destruct (ui_session_history _ _ _ _ _ _ _ _ _ Hr _ _ Hin)
    as [[_ Hm]|[_ Hl]].
  - unfold uiProgram in Hm. destruct Hm as [Hm|Hm]; [discriminate|].
    apply in_app_or in Hm as [Hm|[Hm|[]]]; [|discriminate].
    destruct (uiBody_calls _ _ _ _ _ Hm)
      as [E|[E|[E|[(r & E & _)|[(e' & _ & E)|(E & _)]]]]]; discriminate E.
  - destruct (listener_calls _ _ _ _ Hl) as [E|[E|[e' E]]]; discriminate E.
Qed.

Lemma uiProgram_fatal_history (t : Xterm.Table) (lb : list action)
    (rows : list Xterm.Row) (ff : string) (e : string) :
  exists sched c,
    run sched (start (uiProgram t lb rows ff (Some e))) = Some c /\
    status c = Some 1 /\
    In (Consumer, UiInit) (history c) /\
    In (Consumer, Stderr ff (ArgError (Some e))) (history c).
Proof.
  destruct (ui_session_ends t lb rows ff (Some e)) as (sched & c & Hr & Hs & Hh).
  exists sched, c. split; [exact Hr|]. split; [exact Hs|].
  rewrite Hh. unfold uiProgram, uiBody.
  split; apply in_map.
  - right. left. reflexivity.
  - right. apply in_or_app. left. apply in_or_app. right.
    apply in_or_app. right. left. reflexivity.
Qed.

(** C1 (what the code does on the fatal path): when the stream of a UI
    session ends with an error, [stdlog.Fatalf] ends the process with
    status 1 and the deferred [ui.Close()] never runs.  The calls of
    [main]'s goroutine end with the report on standard error and
    [os.Exit(1)], with [ui.Init] among the calls before and [ui.Close]
    nowhere; under every schedule no activity has called [ui.Close]; and
    the schedule that runs the consumer alone ends with status 1, the
    terminal initialised and the error reported.  This holds for the
    audit session and for the error session. *)
Theorem fatal_stream_end_skips_ui_close (StatusText : Z -> string)
    (events : list UiEvent) (e : string) (closeErr : option string)
    (auditEvents : list (delivery AuditEvent))
    (errorEvents : list (delivery ErrorEvent)) :
  let audit :=
    traceAuditLogWithUI StatusText (mkTerminal None events)
                        (mkStream auditEvents (Some e) closeErr) in
  let errors :=
    traceErrorLogWithUI (mkTerminal None events)
                        (mkStream errorEvents (Some e) closeErr) in
  let unreleased {A} (m : M A) (format : string) :=
    outcome m = Exited 1 /\
    (exists before,
       calls m = before ++ [Stderr format (ArgError (Some e)); OsExit 1] /\
       In UiInit before /\ ~ In UiClose before) /\
    (forall sched c w,
       run sched (start (program m)) = Some c -> ~ In (w, UiClose) (history c)) /\
    (exists sched c,
       run sched (start (program m)) = Some c /\
       status c = Some 1 /\
       In (Consumer, UiInit) (history c) /\
       In (Consumer, Stderr format (ArgError (Some e))) (history c)) in
  unreleased audit "Error: audit log stream closed with: %v" /\
  unreleased errors "Error: error log stream closed with: %v".
Proof.
  intros audit errors unreleased. subst unreleased. cbv beta.
  destruct (traceAuditLogWithUI_calls StatusText events
              (mkStream auditEvents (Some e) closeErr) []) as (ta & _ & Ca).
  destruct (traceAuditLogWithUI_program StatusText events
              (mkStream auditEvents (Some e) closeErr)) as (ta' & _ & Pa).
  destruct (traceErrorLogWithUI_calls events
              (mkStream errorEvents (Some e) closeErr) []) as (te & _ & Ce).
  destruct (traceErrorLogWithUI_program events
              (mkStream errorEvents (Some e) closeErr)) as (te' & _ & Pe).
  fold audit in Ca, Pa. fold errors in Ce, Pe.
  cbn [Err CloseErr delivered] in Ca, Pa, Ce, Pe.
  assert (Hbefore : forall t lb rows ff,
            exists before,
              uiCalls t lb rows ff (Some e)
              = before ++ [Stderr ff (ArgError (Some e)); OsExit 1] /\
              In UiInit before /\ ~ In UiClose before).
  { intros t lb rows ff.
    exists ([TableNew t; UiInit; Go Listener lb; TableDraw]
            ++ flat_map (fun r => [TableAddRow r; TableDraw]) rows).
    unfold uiCalls. rewrite <- app_assoc. split; [reflexivity|]. split.
    - right. left. reflexivity.
    - intros Hin. apply in_app_or in Hin as [Hin|Hin].
      + destruct Hin as [E|[E|[E|[E|[]]]]]; discriminate E.
      + apply in_flat_map in Hin as (r & _ & [E|[E|[]]]); discriminate E. }
  split.
  - split; [unfold outcome; rewrite Ca; reflexivity|].
    split; [unfold calls; rewrite Ca; apply Hbefore|].
    rewrite Pa. split.
    + intros sched c w Hr. exact (uiProgram_no_close _ _ _ _ _ _ _ _ _ _ Hr).
    + apply uiProgram_fatal_history.
  - split; [unfold outcome; rewrite Ce; reflexivity|].
    split; [unfold calls; rewrite Ce; apply Hbefore|].
    rewrite Pe. split.
    + intros sched c w Hr. exact (uiProgram_no_close _ _ _ _ _ _ _ _ _ _ Hr).
    + apply uiProgram_fatal_history.
Qed.

(** For comparison, the clean end: the function returns and its deferred
    calls run, [ui.Close()] first and then the last [table.Draw()]. *)
Lemma clean_stream_end_releases_terminal (StatusText : Z -> string)
    (events : list UiEvent) (closeErr : option string)
    (auditEvents : list (delivery AuditEvent)) :
  let m := traceAuditLogWithUI StatusText (mkTerminal None events)
                               (mkStream auditEvents None closeErr) in
  outcome m = Return tt /\
  exists before, calls m = before ++ [UiClose; TableDraw].
Proof.
  intros m.
  destruct (traceAuditLogWithUI_calls StatusText events
              (mkStream auditEvents None closeErr) []) as (t & _ & C).
  fold m in C. cbn [Err CloseErr delivered] in C.
  split; [unfold outcome; rewrite C; reflexivity|].
  unfold calls. rewrite C. cbn [fst snd]. unfold uiCalls.
  eexists. rewrite app_assoc. reflexivity.
Qed.

Section ExitStatus.

Variable StatusText : Z -> string.
Variable lowerCaseTable : Z -> Z.

Lemma selectMode_audit : selectMode lowerCaseTable "audit" = ModeAudit.
Proof. reflexivity. Qed.

Lemma selectMode_error : selectMode lowerCaseTable "error" = ModeError.
Proof. reflexivity. Qed.

(** C3 (what the code does without the terminal UI): with [--json], or
    with a standard output that is no terminal, [logTrace] ends in
    [stdlog.Fatalf] whatever the stream did.  When the stream ends with no
    error, as after an interrupt that closed it, the process still writes
    the report, with [<nil>] for the error, and exits with status 1; the
    deferred [stream.Close()] does not run.  This holds for both log
    types. *)
Theorem plain_output_clean_end_exits_1
    (insecure sig isTerm json : bool) (term : Terminal)
    (closeErr : option string)
    (auditEvents : list (delivery AuditEvent))
    (errorEvents : list (delivery ErrorEvent)) :
  let audit := mkStream auditEvents None closeErr in
  let errors := mkStream errorEvents None closeErr in
  let inv typ json isTerm :=
    mkInvocation typ json insecure 0 isTerm (inr audit) (inr errors) term sig in
  let trace typ json isTerm :=
    logTrace StatusText lowerCaseTable (inv typ json isTerm) in
  let fatal {A} (m : M A) (calls_ : list action) :=
    outcome m = Exited 1 /\ exitCode (outcome m) = 1 /\ calls m = calls_ in
  fatal (trace "audit" true isTerm)
        (plainCalls audit sig "Error: audit log closed with: %v") /\
  fatal (trace "audit" json false)
        (plainCalls audit sig "Error: audit log closed with: %v") /\
  fatal (trace "error" true isTerm)
        (plainCalls errors sig "Error: error log closed with: %v") /\
  fatal (trace "error" json false)
        (plainCalls errors sig "Error: error log closed with: %v") /\
  last (plainCalls audit sig "Error: audit log closed with: %v") UiInit
  = OsExit 1 /\
  In (Stderr "Error: audit log closed with: %v" (ArgError None))
     (plainCalls audit sig "Error: audit log closed with: %v").
Proof.
  intros audit errors inv trace fatal. subst fatal trace. cbv beta.
  assert (Ha : forall j tty,
            negb tty || j = true ->
            logTrace StatusText lowerCaseTable (inv "audit" j tty) []
            = (Exited 1,
               plainCalls audit sig "Error: audit log closed with: %v", [])).
  { intros j tty H.
    exact (logTrace_plain_audit StatusText lowerCaseTable
             (inv "audit" j tty) audit [] eq_refl selectMode_audit eq_refl H). }
  assert (He : forall j tty,
            negb tty || j = true ->
            logTrace StatusText lowerCaseTable (inv "error" j tty) []
            = (Exited 1,
               plainCalls errors sig "Error: error log closed with: %v", [])).
  { intros j tty H.
    exact (logTrace_plain_error StatusText lowerCaseTable
             (inv "error" j tty) errors [] eq_refl selectMode_error eq_refl H). }
  unfold outcome, calls.
  rewrite (Ha true isTerm) by apply orb_true_r.
  rewrite (Ha json false) by reflexivity.
  rewrite (He true isTerm) by apply orb_true_r.
  rewrite (He json false) by reflexivity.
  cbn [fst snd exitCode]. repeat split.
  - unfold plainCalls.
    match goal with
    | |- last (?x :: ?l ++ [?a; ?b]) _ = _ =>
        replace (x :: l ++ [a; b]) with ((x :: l ++ [a]) ++ [b])
          by (cbn [app]; rewrite <- app_assoc; reflexivity)
    end.
    apply last_last.
  - unfold plainCalls. right. apply in_or_app. right. left. reflexivity.
Qed.

End ExitStatus.

(** ** UTF-8 *)

Lemma byte_val_range (c : ascii) : 0 <= byte_val c < 256.
Proof.
  unfold byte_val. pose proof (N_ascii_bounded c). lia.
Qed.

Lemma byte_val_to_byte (x : Z) : byte_val (to_byte x) = x mod 256.
Proof.
  unfold byte_val, to_byte.
  pose proof (Z.mod_pos_bound x 256 ltac:(lia)).
  rewrite N_ascii_embedding by lia. lia.
Qed.

Lemma byte_val_to_byte_small (x : Z) :
  0 <= x < 256 -> byte_val (to_byte x) = x.
Proof. intros H. rewrite byte_val_to_byte. apply Z.mod_small, H. Qed.

Lemma to_byte_byte_val (c : ascii) : to_byte (byte_val c) = c.
Proof.
  unfold to_byte, byte_val. pose proof (N_ascii_bounded c).
  rewrite Z.mod_small by lia. rewrite N2Z.id. apply ascii_N_embedding.
Qed.

(** Bit operations on disjoint ranges are sums. *)
Lemma lor_add (a b n : Z) :
  0 <= n -> 0 <= b < 2 ^ n -> Z.lor (a * 2 ^ n) b = a * 2 ^ n + b.
Proof.
  intros Hn Hb.
  assert (Hl : Z.land (a * 2 ^ n) b = 0).
  { apply Z.bits_inj'. intros m Hm. rewrite Z.land_spec, Z.bits_0.
    destruct (Z.lt_ge_cases m n).
    - rewrite Z.mul_pow2_bits_low by assumption. reflexivity.
    - rewrite <- (Z.mod_small b (2 ^ n)) by assumption.
      rewrite Z.mod_pow2_bits_high by lia. apply andb_false_r. }
  pose proof (Z.add_lor_land (a * 2 ^ n) b). lia.
Qed.

Lemma lor_t2 (x : Z) : 0 <= x < 32 -> Z.lor Utf8.t2 x = 192 + x.
Proof. intros H. exact (lor_add 6 x 5 ltac:(lia) H). Qed.

Lemma lor_t3 (x : Z) : 0 <= x < 16 -> Z.lor Utf8.t3 x = 224 + x.
Proof. intros H. exact (lor_add 14 x 4 ltac:(lia) H). Qed.

Lemma lor_t4 (x : Z) : 0 <= x < 8 -> Z.lor Utf8.t4 x = 240 + x.
Proof. intros H. exact (lor_add 30 x 3 ltac:(lia) H). Qed.

Lemma lor_tx (x : Z) : 0 <= x < 64 -> Z.lor Utf8.tx x = 128 + x.
Proof. intros H. exact (lor_add 2 x 6 ltac:(lia) H). Qed.

Lemma land_maskx (x : Z) : Z.land x Utf8.maskx = x mod 64.
Proof. exact (Z.land_ones x 6 ltac:(lia)). Qed.

Lemma land_mask2 (x : Z) : Z.land x Utf8.mask2 = x mod 32.
Proof. exact (Z.land_ones x 5 ltac:(lia)). Qed.

Lemma land_mask3 (x : Z) : Z.land x Utf8.mask3 = x mod 16.
Proof. exact (Z.land_ones x 4 ltac:(lia)). Qed.

Lemma land_mask4 (x : Z) : Z.land x Utf8.mask4 = x mod 8.
Proof. exact (Z.land_ones x 3 ltac:(lia)). Qed.

(** The continuation byte for the six bits of [x] at the bottom. *)
Lemma cont_arg (x : Z) :
  Z.lor Utf8.tx (Z.land (byte_val (to_byte x)) Utf8.maskx) = 128 + x mod 64.
Proof.
  rewrite (byte_val_to_byte x), land_maskx.
  assert (E : (x mod 256) mod 64 = x mod 64).
  { Z.to_euclidean_division_equations; lia. }
  rewrite E. pose proof (Z.mod_pos_bound x 64 ltac:(lia)).
  apply lor_tx. lia.
Qed.

(** The value the decoder assembles from two, three and four bytes. *)
Lemma decode2 (s0 s1 : Z) :
  Z.lor (Z.shiftl (Z.land s0 Utf8.mask2) 6) (Z.land s1 Utf8.maskx)
  = (s0 mod 32) * 64 + s1 mod 64.
Proof.
  rewrite land_mask2, land_maskx, Z.shiftl_mul_pow2 by lia.
  apply lor_add; [lia|]. apply Z.mod_pos_bound. lia.
Qed.

Lemma decode3 (s0 s1 s2 : Z) :
  Z.lor (Z.lor (Z.shiftl (Z.land s0 Utf8.mask3) 12)
               (Z.shiftl (Z.land s1 Utf8.maskx) 6))
        (Z.land s2 Utf8.maskx)
  = (s0 mod 16) * 4096 + (s1 mod 64) * 64 + s2 mod 64.
Proof.
  rewrite land_mask3, !land_maskx, !Z.shiftl_mul_pow2 by lia.
  pose proof (Z.mod_pos_bound s1 64 ltac:(lia)).
  pose proof (Z.mod_pos_bound s2 64 ltac:(lia)).
  rewrite (lor_add (s0 mod 16) ((s1 mod 64) * 2 ^ 6) 12) by lia.
  replace ((s0 mod 16) * 2 ^ 12 + (s1 mod 64) * 2 ^ 6)
    with (((s0 mod 16) * 64 + s1 mod 64) * 2 ^ 6) by lia.
  rewrite lor_add by lia. lia.
Qed.

Lemma decode4 (s0 s1 s2 s3 : Z) :
  Z.lor (Z.lor (Z.lor (Z.shiftl (Z.land s0 Utf8.mask4) 18)
                      (Z.shiftl (Z.land s1 Utf8.maskx) 12))
               (Z.shiftl (Z.land s2 Utf8.maskx) 6))
        (Z.land s3 Utf8.maskx)
  = (s0 mod 8) * 262144 + (s1 mod 64) * 4096 + (s2 mod 64) * 64 + s3 mod 64.
Proof.
  rewrite land_mask4, !land_maskx, !Z.shiftl_mul_pow2 by lia.
  pose proof (Z.mod_pos_bound s1 64 ltac:(lia)).
  pose proof (Z.mod_pos_bound s2 64 ltac:(lia)).
  pose proof (Z.mod_pos_bound s3 64 ltac:(lia)).
  rewrite (lor_add (s0 mod 8) ((s1 mod 64) * 2 ^ 12) 18) by lia.
  replace ((s0 mod 8) * 2 ^ 18 + (s1 mod 64) * 2 ^ 12)
    with (((s0 mod 8) * 64 + s1 mod 64) * 2 ^ 12) by lia.
  rewrite (lor_add _ ((s2 mod 64) * 2 ^ 6) 12) by lia.
  replace (((s0 mod 8) * 64 + s1 mod 64) * 2 ^ 12 + (s2 mod 64) * 2 ^ 6)
    with ((((s0 mod 8) * 64 + s1 mod 64) * 64 + s2 mod 64) * 2 ^ 6) by lia.
  rewrite lor_add by lia. lia.
Qed.

Ltac unfold_utf8 :=
  unfold valid_rune, Utf8.MaxRune, Utf8.surrogateMin, Utf8.surrogateMax,
    Utf8.rune1Max, Utf8.rune2Max, Utf8.rune3Max, Utf8.RuneError,
    Utf8.RuneSelf, Utf8.locb, Utf8.hicb in *.

Ltac split_tests :=
  repeat match goal with
    | |- context [?a <=? ?b] => destruct (Z.leb_spec a b)
    | |- context [?a <? ?b] => destruct (Z.ltb_spec a b)
    | |- context [?a =? ?b] => destruct (Z.eqb_spec a b)
    end.

(** The bytes [EncodeRune] writes for a valid rune, by its size. *)
Lemma EncodeRune_1 (r : Z) :
  0 <= r <= 0x7F -> Utf8.EncodeRune r = String (to_byte r) "".
Proof.
  intros H. unfold Utf8.EncodeRune. unfold_utf8.
  rewrite Z.mod_small by lia. split_tests; try lia. reflexivity.
Qed.

Lemma EncodeRune_2 (r : Z) :
  0x80 <= r <= 0x7FF ->
  Utf8.EncodeRune r
  = String (to_byte (192 + r / 64)) (String (to_byte (128 + r mod 64)) "").
Proof.
  intros H. unfold Utf8.EncodeRune. unfold_utf8.
  rewrite Z.mod_small by lia. split_tests; try lia.
  rewrite cont_arg, Z.shiftr_div_pow2 by lia.
  rewrite byte_val_to_byte_small
    by (change (2 ^ 6) with 64; Z.to_euclidean_division_equations; lia).
  rewrite lor_t2
    by (change (2 ^ 6) with 64; Z.to_euclidean_division_equations; lia).
  reflexivity.
Qed.

Lemma enc3_bytes (r : Z) :
  0x800 <= r <= 0xFFFF ->
  Utf8.enc3 r
  = String (to_byte (224 + r / 4096))
   (String (to_byte (128 + (r / 64) mod 64))
   (String (to_byte (128 + r mod 64)) "")).
Proof.
  intros H. unfold Utf8.enc3.
  rewrite !cont_arg, !Z.shiftr_div_pow2 by lia.
  rewrite byte_val_to_byte_small
    by (change (2 ^ 12) with 4096; Z.to_euclidean_division_equations; lia).
  rewrite lor_t3
    by (change (2 ^ 12) with 4096; Z.to_euclidean_division_equations; lia).
  reflexivity.
Qed.

Lemma EncodeRune_3 (r : Z) :
  0x800 <= r <= 0xFFFF -> ~ (0xD800 <= r <= 0xDFFF) ->
  Utf8.EncodeRune r
  = String (to_byte (224 + r / 4096))
   (String (to_byte (128 + (r / 64) mod 64))
   (String (to_byte (128 + r mod 64)) "")).
Proof.
  intros H Hs. unfold Utf8.EncodeRune. unfold_utf8.
  rewrite Z.mod_small by lia.
  split_tests; try lia; cbn [orb andb]; apply enc3_bytes; lia.
Qed.

Lemma EncodeRune_4 (r : Z) :
  0x10000 <= r <= 0x10FFFF ->
  Utf8.EncodeRune r
  = String (to_byte (240 + r / 262144))
   (String (to_byte (128 + (r / 4096) mod 64))
   (String (to_byte (128 + (r / 64) mod 64))
   (String (to_byte (128 + r mod 64)) ""))).
Proof.
  intros H. unfold Utf8.EncodeRune. unfold_utf8.
  rewrite Z.mod_small by lia.
  split_tests; try lia; cbn [orb andb].
  rewrite !cont_arg, !Z.shiftr_div_pow2 by lia.
  rewrite byte_val_to_byte_small
    by (change (2 ^ 18) with 262144; Z.to_euclidean_division_equations; lia).
  rewrite lor_t4
    by (change (2 ^ 18) with 262144; Z.to_euclidean_division_equations; lia).
  reflexivity.
Qed.

Ltac div_mod_lia := Z.to_euclidean_division_equations; lia.

(** What the table [first] holds, by the range of the leading byte. *)
Lemma first_ascii (b : Z) : b < 0x80 -> Utf8.first b = Utf8.LeadASCII.
Proof. intros H. unfold Utf8.first. split_tests; try lia. reflexivity. Qed.

Lemma first_spec (b : Z) (sz : nat) (lo hi : Z) :
  Utf8.first b = Utf8.LeadMulti sz lo hi ->
  0x80 <= lo /\ hi <= 0xBF /\
  ((sz = 2%nat /\ 0xC2 <= b <= 0xDF) \/
   (sz = 3%nat /\ 0xE0 <= b <= 0xEF /\ (b = 0xED -> hi = 0x9F)) \/
   (sz = 4%nat /\ 0xF0 <= b <= 0xF4 /\
    (b = 0xF0 -> lo = 0x90) /\ (b = 0xF4 -> hi = 0x8F))).
Proof.
  unfold Utf8.first. unfold_utf8.
  split_tests; intros E; try discriminate E; injection E as <- <- <-;
    repeat split; try lia;
    first [ left; repeat split; lia
          | right; left; repeat split; lia
          | right; right; repeat split; lia ].
Qed.

Lemma first_2 (b : Z) :
  0xC2 <= b <= 0xDF -> Utf8.first b = Utf8.LeadMulti 2 0x80 0xBF.
Proof. intros H. unfold Utf8.first. split_tests; try lia. reflexivity. Qed.

Lemma first_3 (b : Z) :
  0xE0 <= b <= 0xEF ->
  Utf8.first b
  = Utf8.LeadMulti 3 (if b =? 0xE0 then 0xA0 else 0x80)
                     (if b =? 0xED then 0x9F else 0xBF).
Proof. intros H. unfold Utf8.first. split_tests; try lia; reflexivity. Qed.

Lemma first_4 (b : Z) :
  0xF0 <= b <= 0xF4 ->
  Utf8.first b
  = Utf8.LeadMulti 4 (if b =? 0xF0 then 0x90 else 0x80)
                     (if b =? 0xF4 then 0x8F else 0xBF).
Proof. intros H. unfold Utf8.first. split_tests; try lia; reflexivity. Qed.

(** The decoder on well-formed sequences of two, three and four bytes,
    given by the bits they carry. *)
Lemma Decode_2 (q1 q0 : Z) (rest : string) :
  2 <= q1 < 32 -> 0 <= q0 < 64 ->
  Utf8.DecodeRuneInString
    (String (to_byte (192 + q1)) (String (to_byte (128 + q0)) rest))
  = (q1 * 64 + q0, 2%nat).
Proof.
  intros H1 H0. unfold Utf8.DecodeRuneInString.
  rewrite !byte_val_to_byte_small by lia.
  rewrite first_2 by lia. rewrite decode2.
  cbn [Nat.ltb Nat.leb String.length].
  split_tests; try lia. cbn [orb]. f_equal. div_mod_lia.
Qed.

Lemma Decode_3 (q2 q1 q0 : Z) (rest : string) :
  0 <= q2 < 16 -> 0 <= q1 < 64 -> 0 <= q0 < 64 ->
  (q2 = 0 -> 32 <= q1) -> (q2 = 13 -> q1 < 32) ->
  Utf8.DecodeRuneInString
    (String (to_byte (224 + q2))
       (String (to_byte (128 + q1)) (String (to_byte (128 + q0)) rest)))
  = (q2 * 4096 + q1 * 64 + q0, 3%nat).
Proof.
  intros H2 H1 H0 Hlo Hhi. unfold Utf8.DecodeRuneInString.
  rewrite !byte_val_to_byte_small by lia.
  rewrite first_3 by lia. rewrite decode3. unfold_utf8.
  cbn [Nat.ltb Nat.leb String.length].
  repeat match goal with
    | |- context [?a =? ?b] => destruct (Z.eqb_spec a b)
    end;
    split_tests; try lia; cbn [orb]; f_equal; div_mod_lia.
Qed.

Lemma Decode_4 (q3 q2 q1 q0 : Z) (rest : string) :
  0 <= q3 <= 4 -> 0 <= q2 < 64 -> 0 <= q1 < 64 -> 0 <= q0 < 64 ->
  (q3 = 0 -> 16 <= q2) -> (q3 = 4 -> q2 < 16) ->
  Utf8.DecodeRuneInString
    (String (to_byte (240 + q3))
       (String (to_byte (128 + q2))
          (String (to_byte (128 + q1)) (String (to_byte (128 + q0)) rest))))
  = (q3 * 262144 + q2 * 4096 + q1 * 64 + q0, 4%nat).
Proof.
  intros H3 H2 H1 H0 Hlo Hhi. unfold Utf8.DecodeRuneInString.
  rewrite !byte_val_to_byte_small by lia.
  rewrite first_4 by lia. rewrite decode4. unfold_utf8.
  cbn [Nat.ltb Nat.leb String.length].
  repeat match goal with
    | |- context [?a =? ?b] => destruct (Z.eqb_spec a b)
    end;
    split_tests; try lia; cbn [orb]; f_equal; div_mod_lia.
Qed.

(** Decoding what [EncodeRune] wrote gives the rune back, whatever
    follows. *)
Lemma Decode_Encode (r : Z) (rest : string) :
  valid_rune r ->
  Utf8.DecodeRuneInString (Utf8.EncodeRune r ++ rest)
  = (r, String.length (Utf8.EncodeRune r)) /\
  (1 <= String.length (Utf8.EncodeRune r))%nat.
Proof.
  unfold_utf8. intros [Hr Hs].
  destruct (Z.le_gt_cases r 0x7F) as [H1|H1].
  { rewrite EncodeRune_1 by lia. cbn [append String.length].
    split; [|lia]. unfold Utf8.DecodeRuneInString.
    rewrite byte_val_to_byte_small by lia.
    rewrite first_ascii by lia. reflexivity. }
  destruct (Z.le_gt_cases r 0x7FF) as [H2|H2].
  { rewrite EncodeRune_2 by lia. cbn [append String.length].
    split; [|lia]. rewrite Decode_2 by div_mod_lia. f_equal. div_mod_lia. }
  destruct (Z.le_gt_cases r 0xFFFF) as [H3|H3].
  { rewrite EncodeRune_3 by lia. cbn [append String.length].
    split; [|lia]. rewrite Decode_3 by div_mod_lia. f_equal. div_mod_lia. }
  rewrite EncodeRune_4 by lia. cbn [append String.length].
  split; [|lia]. rewrite Decode_4 by div_mod_lia. f_equal. div_mod_lia.
Qed.

Lemma first_ascii_inv (b : Z) : Utf8.first b = Utf8.LeadASCII -> b < 0x80.
Proof.
  unfold Utf8.first. split_tests; intros E; try discriminate E; lia.
Qed.

Lemma valid_RuneError : valid_rune Utf8.RuneError.
Proof. unfold_utf8. lia. Qed.

Ltac split_ifs :=
  repeat match goal with
    | |- context [if ?b then _ else _] =>
        let E := fresh "E" in destruct b eqn:E
    end.

Ltac bool_facts :=
  repeat match goal with
    | H : _ || _ = false |- _ => apply orb_false_elim in H as [? ?]
    | H : (_ <? _) = false |- _ => apply Z.ltb_ge in H
    | H : (_ <? _) = true |- _ => apply Z.ltb_lt in H
    end.

(** Whatever the bytes, the decoder returns a valid rune, and for a
    non-empty string a size between one and its length. *)
Lemma Decode_valid (s : string) :
  valid_rune (fst (Utf8.DecodeRuneInString s)) /\
  (s <> "" ->
   (1 <= snd (Utf8.DecodeRuneInString s) <= String.length s)%nat).
Proof.
  destruct s as [|c0 s]; [split; [apply valid_RuneError | congruence]|].
  unfold Utf8.DecodeRuneInString.
  pose proof (byte_val_range c0) as R0.
  destruct (Utf8.first (byte_val c0)) as [| |sz lo hi] eqn:Ef.
  - apply first_ascii_inv in Ef. cbn [fst snd String.length].
    split; [unfold_utf8; lia | lia].
  - cbn [fst snd String.length]. split; [apply valid_RuneError | lia].
  - apply first_spec in Ef as (Hlo & Hhi & Hsz).
    destruct (String.length (String c0 s) <? sz)%nat;
      [cbn [fst snd String.length]; split; [apply valid_RuneError | lia]|].
    destruct s as [|c1 s];
      [cbn [fst snd String.length]; split; [apply valid_RuneError | lia]|].
    pose proof (byte_val_range c1) as R1.
    destruct ((byte_val c1 <? lo) || (hi <? byte_val c1)) eqn:E1;
      [cbn [fst snd String.length]; split; [apply valid_RuneError | lia]|].
    bool_facts.
    destruct (sz <=? 2)%nat eqn:E2.
    { rewrite decode2. cbn [fst snd String.length]. split; [|lia].
      unfold_utf8. div_mod_lia. }
    destruct s as [|c2 s];
      [cbn [fst snd String.length]; split; [apply valid_RuneError | lia]|].
    pose proof (byte_val_range c2) as R2.
    destruct ((byte_val c2 <? Utf8.locb) || (Utf8.hicb <? byte_val c2)) eqn:E3;
      [cbn [fst snd String.length]; split; [apply valid_RuneError | lia]|].
    bool_facts.
    destruct (sz <=? 3)%nat eqn:E4.
    { rewrite decode3. cbn [fst snd String.length]. split; [|lia].
      apply Nat.leb_gt in E2. apply Nat.leb_le in E4.
      destruct Hsz as [[-> _]|[(-> & Hb & Hd)|(-> & _)]]; try lia.
      unfold_utf8.
      destruct (Z.eq_dec (byte_val c0) 0xED) as [Ed|Ed];
        [specialize (Hd Ed)|clear Hd]; div_mod_lia. }
    destruct s as [|c3 s];
      [cbn [fst snd String.length]; split; [apply valid_RuneError | lia]|].
    pose proof (byte_val_range c3) as R3.
    destruct ((byte_val c3 <? Utf8.locb) || (Utf8.hicb <? byte_val c3)) eqn:E5;
      [cbn [fst snd String.length]; split; [apply valid_RuneError | lia]|].
    bool_facts.
    rewrite decode4. cbn [fst snd String.length]. split; [|lia].
    apply Nat.leb_gt in E2. apply Nat.leb_gt in E4.
    destruct Hsz as [[-> _]|[(-> & _)|(-> & Hb & Hd0 & Hd)]]; try lia.
    unfold_utf8.
    destruct (Z.eq_dec (byte_val c0) 0xF0) as [Ed0|Ed0];
      [specialize (Hd0 Ed0)|clear Hd0];
      (destruct (Z.eq_dec (byte_val c0) 0xF4) as [Ed|Ed];
       [specialize (Hd Ed)|clear Hd]); div_mod_lia.
Qed.

Lemma drop_length (n : nat) (s : string) :
  String.length (drop n s) = (String.length s - n)%nat.
Proof.
  revert s. induction n as [|n IH]; intros [|c s]; cbn; auto.
Qed.

(** The loop over a string's runes needs no more fuel than the string has
    bytes. *)
Lemma runes_loop_fuel (fuel1 : nat) :
  forall fuel2 s,
    (String.length s <= fuel1)%nat -> (String.length s <= fuel2)%nat ->
    Utf8.runes_loop fuel1 s = Utf8.runes_loop fuel2 s.
Proof.
  induction fuel1 as [|fuel1 IH]; intros fuel2 s H1 H2.
  - destruct s; [|cbn in H1; lia]. destruct fuel2; reflexivity.
  - destruct s as [|c s]; [destruct fuel2; reflexivity|].
    destruct fuel2 as [|fuel2]; [cbn in H2; lia|].
    cbn [Utf8.runes_loop].
    destruct (Decode_valid (String c s)) as [_ Hn].
    specialize (Hn ltac:(discriminate)).
    destruct (Utf8.DecodeRuneInString (String c s)) as [r size].
    cbn [snd] in Hn. f_equal.
    apply IH; rewrite drop_length; cbn [String.length] in *; lia.
Qed.

Lemma runes_loop_runes (fuel : nat) (s : string) :
  (String.length s <= fuel)%nat -> Utf8.runes_loop fuel s = Utf8.runes s.
Proof. intros H. apply runes_loop_fuel; [exact H | lia]. Qed.

Lemma runes_cons (c : ascii) (s : string) :
  Utf8.runes (String c s)
  = fst (Utf8.DecodeRuneInString (String c s))
    :: Utf8.runes (drop (snd (Utf8.DecodeRuneInString (String c s)))
                        (String c s)).
Proof.
  unfold Utf8.runes at 1. cbn [String.length Utf8.runes_loop].
  destruct (Decode_valid (String c s)) as [_ Hn].
  specialize (Hn ltac:(discriminate)).
  destruct (Utf8.DecodeRuneInString (String c s)) as [r size].
  cbn [fst snd] in *. f_equal. apply runes_loop_runes.
  rewrite drop_length. cbn [String.length] in *. lia.
Qed.

Lemma runes_valid (s : string) : Forall valid_rune (Utf8.runes s).
Proof.
  remember (String.length s) as n eqn:Hn.
  revert s Hn. induction n as [n IH] using lt_wf_ind. intros s Hn.
  destruct s as [|c s]; [constructor|].
  rewrite runes_cons.
  destruct (Decode_valid (String c s)) as [Hv Hs].
  specialize (Hs ltac:(discriminate)).
  constructor; [exact Hv|].
  apply (IH (String.length
               (drop (snd (Utf8.DecodeRuneInString (String c s)))
                     (String c s)))); [|reflexivity].
  rewrite drop_length. lia.
Qed.

Lemma runes_Encode (r : Z) (rest : string) :
  valid_rune r -> Utf8.runes (Utf8.EncodeRune r ++ rest) = r :: Utf8.runes rest.
Proof.
  intros Hr. destruct (Decode_Encode r rest Hr) as [Hd Hl].
  destruct (Utf8.EncodeRune r ++ rest)%string as [|c s] eqn:E.
  - apply (f_equal String.length) in E. rewrite length_app in E.
    cbn in E. lia.
  - rewrite runes_cons, Hd. cbn [fst snd]. rewrite <- E.
    rewrite <- (Nat.add_0_r (String.length (Utf8.EncodeRune r))).
    rewrite drop_app. reflexivity.
Qed.

Lemma concat_empty_cons (x : string) (xs : list string) :
  String.concat "" (x :: xs) = (x ++ String.concat "" xs)%string.
Proof.
  destruct xs as [|y xs]; cbn [String.concat].
  - induction x as [|c x IH]; cbn; congruence.
  - reflexivity.
Qed.

(** Decoding the encodings of valid runes gives the runes back. *)
Lemma runes_concat_Encode (rs : list Z) :
  Forall valid_rune rs ->
  Utf8.runes (String.concat "" (List.map Utf8.EncodeRune rs)) = rs.
Proof.
  induction 1 as [|r rs Hr _ IH]; [reflexivity|].
  cbn [List.map]. rewrite concat_empty_cons, runes_Encode by exact Hr.
  rewrite IH. reflexivity.
Qed.

(** A rune is below [RuneSelf] exactly when all bytes of its encoding
    are. *)
Lemma Encode_ascii (r : Z) :
  valid_rune r ->
  string_forallb (fun c => byte_val c <? Utf8.RuneSelf) (Utf8.EncodeRune r)
  = (r <? Utf8.RuneSelf).
Proof.
  unfold_utf8. intros [Hr Hs].
  destruct (Z.ltb_spec r 128) as [H1|H1].
  { rewrite EncodeRune_1 by lia. cbn [string_forallb].
    rewrite byte_val_to_byte_small by lia.
    destruct (Z.ltb_spec r 128); [reflexivity | lia]. }
  assert (Hb : forall x s,
            0 <= x < 64 ->
            string_forallb (fun c => byte_val c <? 128)
                           (String (to_byte (192 + x)) s) = false).
  { intros x s Hx. cbn [string_forallb].
    rewrite byte_val_to_byte_small by lia.
    destruct (Z.ltb_spec (192 + x) 128); [lia | reflexivity]. }
  destruct (Z.le_gt_cases r 0x7FF) as [H2|H2].
  { rewrite EncodeRune_2 by lia. apply Hb. div_mod_lia. }
  destruct (Z.le_gt_cases r 0xFFFF) as [H3|H3].
  { rewrite EncodeRune_3 by lia.
    replace (224 + r / 4096) with (192 + (32 + r / 4096)) by lia.
    apply Hb. div_mod_lia. }
  rewrite EncodeRune_4 by lia.
  replace (240 + r / 262144) with (192 + (48 + r / 262144)) by lia.
  apply Hb. div_mod_lia.
Qed.

Lemma string_forallb_app (p : ascii -> bool) (a b : string) :
  string_forallb p (a ++ b) = string_forallb p a && string_forallb p b.
Proof.
  induction a as [|c a IH]; cbn; [reflexivity|].
  rewrite IH. apply andb_assoc.
Qed.

Lemma string_existsb_app (p : ascii -> bool) (a b : string) :
  string_existsb p (a ++ b) = string_existsb p a || string_existsb p b.
Proof.
  induction a as [|c a IH]; cbn; [reflexivity|].
  rewrite IH. apply orb_assoc.
Qed.

(** ** [strings.ToLower] *)

Lemma lower_byte_spec (c : ascii) :
  byte_val (Strings.lower_byte c)
  = if (65 <=? byte_val c) && (byte_val c <=? 90)
    then byte_val c + 32 else byte_val c.
Proof.
  unfold Strings.lower_byte, Strings.is_upper_byte.
  destruct ((65 <=? byte_val c) && (byte_val c <=? 90)) eqn:E; [|reflexivity].
  apply andb_prop in E as [E1 E2]. apply Z.leb_le in E1, E2.
  change (97 - 65) with 32. apply byte_val_to_byte_small. lia.
Qed.

(** Lowering an ASCII string leaves an ASCII string with no upper-case
    letter. *)
Lemma string_map_lower_ascii (s : string) :
  string_forallb (fun c => byte_val c <? Utf8.RuneSelf) s = true ->
  string_forallb (fun c => byte_val c <? Utf8.RuneSelf)
                 (string_map Strings.lower_byte s) = true /\
  string_existsb Strings.is_upper_byte (string_map Strings.lower_byte s)
  = false.
Proof.
  unfold_utf8.
  induction s as [|c s IH]; cbn [string_forallb string_existsb string_map];
    [auto|].
  intros H. apply andb_prop in H as [Hc Hs]. apply Z.ltb_lt in Hc.
  destruct (IH Hs) as [IH1 IH2]. rewrite IH1, IH2.
  unfold Strings.is_upper_byte at 1. rewrite lower_byte_spec.
  pose proof (byte_val_range c).
  destruct ((65 <=? byte_val c) && (byte_val c <=? 90)) eqn:E.
  - apply andb_prop in E as [E1 E2]. apply Z.leb_le in E1, E2.
    split; [rewrite andb_true_r; apply Z.ltb_lt; lia|].
    rewrite orb_false_r. apply andb_false_iff. right. apply Z.leb_gt. lia.
  - split; [rewrite andb_true_r; apply Z.ltb_lt; lia|].
    rewrite orb_false_r. exact E.
Qed.

Section ToLowerFacts.

Variable lowerCaseTable : Z -> Z.

(** What the statements assume of the table [CaseRanges]: above ASCII, a
    valid rune is mapped to a valid rune, and the image is in lower case
    already. *)
Hypothesis table_valid :
  forall r, valid_rune r -> Unicode.MaxASCII < r ->
            valid_rune (lowerCaseTable r).
Hypothesis table_idempotent :
  forall r, valid_rune r -> Unicode.MaxASCII < r ->
            Unicode.ToLower lowerCaseTable (lowerCaseTable r)
            = lowerCaseTable r.

Local Notation "'low'" := (Unicode.ToLower lowerCaseTable).

Lemma low_valid (r : Z) : valid_rune r -> valid_rune (low r).
Proof.
  intros Hr. unfold Unicode.ToLower.
  destruct (Z.leb_spec r Unicode.MaxASCII) as [Ha|Ha];
    [|apply table_valid; assumption].
  unfold Unicode.MaxASCII in Ha. unfold_utf8.
  destruct ((65 <=? r) && (r <=? 90)) eqn:E; lia.
Qed.

Lemma low_idempotent (r : Z) : valid_rune r -> low (low r) = low r.
Proof.
  intros Hr.
  destruct (Z.leb_spec r Unicode.MaxASCII) as [Ha|Ha].
  - unfold Unicode.ToLower, Unicode.MaxASCII in *.
    destruct (Z.leb_spec r 127) as [_|?]; [|lia].
    destruct ((65 <=? r) && (r <=? 90)) eqn:E.
    + apply andb_prop in E as [E1 E2]. apply Z.leb_le in E1, E2.
      destruct (Z.leb_spec (r + (97 - 65)) 127) as [_|?]; [|lia].
      destruct (Z.leb_spec (r + (97 - 65)) 90) as [?|_]; [lia|].
      rewrite andb_false_r. reflexivity.
    + destruct (Z.leb_spec r 127) as [_|?]; [|lia]. rewrite E. reflexivity.
  - assert (E : Unicode.ToLower lowerCaseTable r = lowerCaseTable r).
    { unfold Unicode.ToLower.
      destruct (Z.leb_spec r Unicode.MaxASCII); [lia | reflexivity]. }
    rewrite E. apply table_idempotent; assumption.
Qed.

(** A rune that is its own lower case is no ASCII upper-case letter. *)
Lemma low_fixed_not_upper (r : Z) :
  low r = r -> (65 <=? r) && (r <=? 90) = false.
Proof.
  unfold Unicode.ToLower, Unicode.MaxASCII. intros H.
  destruct ((65 <=? r) && (r <=? 90)) eqn:E; [|reflexivity].
  apply andb_prop in E as [E1 E2]. apply Z.leb_le in E1, E2.
  destruct (Z.leb_spec r 127); lia.
Qed.

Lemma Map_low_runes (rs : list Z) :
  Forall valid_rune rs ->
  String.concat ""
    (List.map (fun c => let r := low c in
                        if 0 <=? r then Utf8.EncodeRune r else "") rs)
  = String.concat "" (List.map Utf8.EncodeRune (List.map low rs)).
Proof.
  induction 1 as [|r rs Hr _ IH]; [reflexivity|].
  rewrite !map_cons, !concat_empty_cons, IH. f_equal.
  pose proof (low_valid r Hr) as [Hv _]. cbv zeta.
  destruct (Z.leb_spec 0 (low r)); [reflexivity | lia].
Qed.

Lemma Map_low (s : string) :
  Strings.Map low s
  = String.concat "" (List.map Utf8.EncodeRune (List.map low (Utf8.runes s))).
Proof. unfold Strings.Map. apply Map_low_runes, runes_valid. Qed.

Lemma Forall_map_low (rs : list Z) :
  Forall valid_rune rs -> Forall valid_rune (List.map low rs).
Proof.
  induction 1; constructor; [apply low_valid; assumption | assumption].
Qed.

Lemma runes_Map_low (s : string) :
  Utf8.runes (Strings.Map low s) = List.map low (Utf8.runes s).
Proof.
  rewrite Map_low. apply runes_concat_Encode, Forall_map_low, runes_valid.
Qed.

Lemma map_low_idempotent (rs : list Z) :
  Forall valid_rune rs -> List.map low (List.map low rs) = List.map low rs.
Proof.
  induction 1 as [|r rs Hr _ IH]; [reflexivity|].
  cbn [List.map]. rewrite IH, low_idempotent by exact Hr. reflexivity.
Qed.

Lemma Map_low_idempotent (s : string) :
  Strings.Map low (Strings.Map low s) = Strings.Map low s.
Proof.
  rewrite (Map_low (Strings.Map low s)), runes_Map_low.
  rewrite map_low_idempotent by apply runes_valid.
  symmetry. apply Map_low.
Qed.

(** An ASCII-only image of [Map] holds no upper-case letter. *)
Lemma encoded_ascii_no_upper (rs : list Z) :
  Forall (fun r => valid_rune r /\ low r = r) rs ->
  string_forallb (fun c => byte_val c <? Utf8.RuneSelf)
                 (String.concat "" (List.map Utf8.EncodeRune rs)) = true ->
  string_existsb Strings.is_upper_byte
                 (String.concat "" (List.map Utf8.EncodeRune rs)) = false.
Proof.
  induction 1 as [|r rs [Hr Hfix] _ IH]; [reflexivity|].
  cbn [List.map]. rewrite concat_empty_cons.
  rewrite string_forallb_app, string_existsb_app. intros H.
  apply andb_prop in H as [Ha Hrest]. rewrite (IH Hrest), orb_false_r.
  rewrite Encode_ascii in Ha by exact Hr. apply Z.ltb_lt in Ha.
  unfold_utf8. rewrite EncodeRune_1 by lia.
  cbn [string_existsb]. rewrite orb_false_r.
  unfold Strings.is_upper_byte. rewrite byte_val_to_byte_small by lia.
  apply low_fixed_not_upper, Hfix.
Qed.

Lemma Forall_low_fixed (rs : list Z) :
  Forall valid_rune rs ->
  Forall (fun r => valid_rune r /\ low r = r) (List.map low rs).
Proof.
  induction 1 as [|r rs Hr _ IH]; constructor; [|exact IH].
  split; [apply low_valid | apply low_idempotent]; exact Hr.
Qed.

(** Lowering a string twice is lowering it once. *)
Lemma ToLower_idempotent (s : string) :
  Strings.ToLower lowerCaseTable (Strings.ToLower lowerCaseTable s)
  = Strings.ToLower lowerCaseTable s.
Proof.
  unfold Strings.ToLower at 2 3.
  destruct (string_forallb (fun c => byte_val c <? Utf8.RuneSelf) s) eqn:Ea.
  - destruct (string_existsb Strings.is_upper_byte s) eqn:Eu; cbn [negb].
    + destruct (string_map_lower_ascii s Ea) as [H1 H2].
      unfold Strings.ToLower. rewrite H1, H2. reflexivity.
    + unfold Strings.ToLower. rewrite Ea, Eu. reflexivity.
  - unfold Strings.ToLower.
    destruct (string_forallb (fun c => byte_val c <? Utf8.RuneSelf)
                             (Strings.Map low s)) eqn:Eb.
    + rewrite Map_low in Eb |- *.
      rewrite (encoded_ascii_no_upper _
                 (Forall_low_fixed _ (runes_valid s)) Eb).
      reflexivity.
    + apply Map_low_idempotent.
Qed.

(** The type selected for a flag is the type selected for its lower
    case. *)
Lemma selectMode_ToLower (t : string) :
  selectMode lowerCaseTable (Strings.ToLower lowerCaseTable t)
  = selectMode lowerCaseTable t.
Proof. unfold selectMode. rewrite ToLower_idempotent. reflexivity. Qed.

End ToLowerFacts.

Lemma selectMode_cases (lowerCaseTable : Z -> Z) (t : string) :
  (selectMode lowerCaseTable t = ModeAudit
   <-> Strings.ToLower lowerCaseTable t = "audit") /\
  (selectMode lowerCaseTable t = ModeError
   <-> Strings.ToLower lowerCaseTable t = "error") /\
  (selectMode lowerCaseTable t = ModeInvalid
   <-> Strings.ToLower lowerCaseTable t <> "audit" /\
       Strings.ToLower lowerCaseTable t <> "error").
Proof.
  unfold selectMode.
  destruct (String.eqb_spec (Strings.ToLower lowerCaseTable t) "audit")
    as [Ea|Ea];
    [rewrite Ea; repeat split; intros; try discriminate; tauto|].
  destruct (String.eqb_spec (Strings.ToLower lowerCaseTable t) "error")
    as [Ee|Ee];
    repeat split; intros; try discriminate; try tauto; congruence.
Qed.

(** A type that is neither [audit] nor [error] ends [logTrace] with the
    report of the invalid type, before any connection is made. *)
Lemma logTrace_invalid_type (StatusText : Z -> string)
    (lowerCaseTable : Z -> Z) (inv : Invocation) (ds : list action) :
  (0 <? NArg inv) = false ->
  selectMode lowerCaseTable (typeFlag inv) = ModeInvalid ->
  logTrace StatusText lowerCaseTable inv ds
  = (Exited 1,
     [Stderr "Error: invalid log type --type: %q" (ArgQuoted (typeFlag inv));
      OsExit 1], ds).
Proof.
  intros Hn Hm. unfold logTrace, call. unfold bind at 1.
  rewrite Hn, Hm. reflexivity.
Qed.

Lemma sampleCaseTable_valid (r : Z) :
  valid_rune r -> Unicode.MaxASCII < r -> valid_rune (sampleCaseTable r).
Proof.
  unfold sampleCaseTable, Unicode.MaxASCII. unfold_utf8.
  intros H Ha. split_tests; lia.
Qed.

Lemma sampleCaseTable_idempotent (r : Z) :
  valid_rune r -> Unicode.MaxASCII < r ->
  Unicode.ToLower sampleCaseTable (sampleCaseTable r) = sampleCaseTable r.
Proof.
  unfold Unicode.ToLower, sampleCaseTable, Unicode.MaxASCII.
  intros H Ha. split_tests; cbn [andb]; lia.
Qed.

(** The same outside ASCII: [AUD] followed by U+0130 and [T] lowers to
    [audit]. *)
Example dotted_capital_i_selects_audit :
  let t := ("AUD" ++ Utf8.EncodeRune 0x130 ++ "T")%string in
  Strings.ToLower sampleCaseTable t = "audit" /\
  selectMode sampleCaseTable t = ModeAudit.
Proof. vm_compute. split; reflexivity. Qed.

(** * Further properties *)

(** ** [logTrace], path by path *)

Section LogTracePaths.

Variable StatusText : Z -> string.
Variable lowerCaseTable : Z -> Z.

Lemma logTrace_too_many (inv : Invocation) (ds : list action) :
  (0 <? NArg inv) = true ->
  logTrace StatusText lowerCaseTable inv ds
  = (Exited 1, [Stderr "Error: too many arguments" NoArg; OsExit 1], ds).
Proof.
  intros Hn. unfold logTrace, call. unfold bind at 1. rewrite Hn. reflexivity.
Qed.

Lemma logTrace_connect_audit (inv : Invocation) (err : string)
    (ds : list action) :
  (0 <? NArg inv) = false ->
  selectMode lowerCaseTable (typeFlag inv) = ModeAudit ->
  auditLog inv = inl err ->
  logTrace StatusText lowerCaseTable inv ds
  = (Exited 1,
     [Stderr "Error: failed to connect to audit log: %v" (ArgError (Some err));
      OsExit 1], ds).
Proof.
  intros Hn Hm Ha. unfold logTrace, call. unfold bind at 1.
  rewrite Hn, Hm, Ha. reflexivity.
Qed.

Lemma logTrace_connect_error (inv : Invocation) (err : string)
    (ds : list action) :
  (0 <? NArg inv) = false ->
  selectMode lowerCaseTable (typeFlag inv) = ModeError ->
  errorLog inv = inl err ->
  logTrace StatusText lowerCaseTable inv ds
  = (Exited 1,
     [Stderr "Error: failed to connect to error log: %v" (ArgError (Some err));
      OsExit 1], ds).
Proof.
  intros Hn Hm Ha. unfold logTrace, call. unfold bind at 1.
  rewrite Hn, Hm, Ha. reflexivity.
Qed.

Lemma init_fails_audit (term : Terminal) (err : string)
    (stream : Stream AuditEvent) (t : Xterm.Table) (ds : list action) :
  auditTable = Some t -> InitErr term = Some err ->
  traceAuditLogWithUI StatusText term stream ds
  = (Exited 1,
     [TableNew t; Stderr "Error: %v" (ArgError (Some err)); OsExit 1], ds).
Proof.
  intros Ht Hi. unfold traceAuditLogWithUI, call, bind.
  rewrite Ht, Hi. reflexivity.
Qed.

Lemma init_fails_error (term : Terminal) (err : string)
    (stream : Stream ErrorEvent) (t : Xterm.Table) (ds : list action) :
  errorTable = Some t -> InitErr term = Some err ->
  traceErrorLogWithUI term stream ds
  = (Exited 1,
     [TableNew t; Stderr "Error: %v" (ArgError (Some err)); OsExit 1], ds).
Proof.
  intros Ht Hi. unfold traceErrorLogWithUI, call, bind.
  rewrite Ht, Hi. reflexivity.
Qed.

(** A connected audit session. *)
Lemma logTrace_session_audit (inv : Invocation) (stream : Stream AuditEvent)
    (ds : list action) :
  (0 <? NArg inv) = false ->
  selectMode lowerCaseTable (typeFlag inv) = ModeAudit ->
  auditLog inv = inr stream ->
  exists t,
    auditTable = Some t /\
    logTrace StatusText lowerCaseTable inv ds
    = (sessionCalls (plainMode inv) (terminal inv) (signalled inv) t
         (List.map (fun d => auditRow StatusText (event d)) (delivered stream))
         (List.map bytes (delivered stream)) (CloseErr stream) (Err stream)
         "Error: audit log stream closed with: %v"
         "Error: audit log closed with: %v", ds).
Proof.
  intros Hn Hm Ha. destruct auditTable_defined as [t Ht]. exists t.
  split; [exact Ht|]. unfold sessionCalls, plainMode.
  destruct (negb (stdoutIsTerm inv) || jsonOutput inv) eqn:Hp.
  - rewrite (logTrace_plain_audit StatusText lowerCaseTable inv stream ds
               Hn Hm Ha Hp).
    unfold plainCalls. rewrite map_map. reflexivity.
  - unfold logTrace, call. unfold bind at 1. rewrite Hn, Hm, Ha.
    cbn [ret]. unfold bind at 1. cbn [defer]. rewrite Hp.
    destruct (terminal inv) as [[e|] evs]; cbn [InitErr polled].
    + rewrite (init_fails_audit (mkTerminal (Some e) evs) e stream t
                 [StreamClose] Ht eq_refl).
      reflexivity.
    + destruct (traceAuditLogWithUI_calls StatusText evs stream [StreamClose])
        as (t' & Ht' & ->).
      assert (t' = t) as -> by congruence.
      destruct (Err stream); reflexivity.
Qed.

(** A connected error session. *)
Lemma logTrace_session_error (inv : Invocation) (stream : Stream ErrorEvent)
    (ds : list action) :
  (0 <? NArg inv) = false ->
  selectMode lowerCaseTable (typeFlag inv) = ModeError ->
  errorLog inv = inr stream ->
  exists t,
    errorTable = Some t /\
    logTrace StatusText lowerCaseTable inv ds
    = (sessionCalls (plainMode inv) (terminal inv) (signalled inv) t
         (List.map errorRowOf (delivered stream))
         (List.map bytes (delivered stream)) (CloseErr stream) (Err stream)
         "Error: error log stream closed with: %v"
         "Error: error log closed with: %v", ds).
Proof.
  intros Hn Hm Ha. destruct errorTable_defined as [t Ht]. exists t.
  split; [exact Ht|]. unfold sessionCalls, plainMode.
  destruct (negb (stdoutIsTerm inv) || jsonOutput inv) eqn:Hp.
  - rewrite (logTrace_plain_error StatusText lowerCaseTable inv stream ds
               Hn Hm Ha Hp).
    unfold plainCalls. rewrite map_map. reflexivity.
  - unfold logTrace, call. unfold bind at 1. rewrite Hn, Hm, Ha.
    cbn [ret]. unfold bind at 1. cbn [defer]. rewrite Hp.
    unfold bind at 1. cbn [ret].
    destruct (terminal inv) as [[e|] evs]; cbn [InitErr polled].
    + rewrite (init_fails_error (mkTerminal (Some e) evs) e stream t
                 [StreamClose] Ht eq_refl).
      reflexivity.
    + destruct (traceErrorLogWithUI_calls evs stream [StreamClose])
        as (t' & Ht' & ->).
      assert (t' = t) as -> by congruence.
      destruct (Err stream); reflexivity.
Qed.

End LogTracePaths.

Section LogTraceSummary.

Variable StatusText : Z -> string.
Variable lowerCaseTable : Z -> Z.

(** Every invocation either never connects, and then [logTrace] only
    reports and exits with status 1, or runs a session on the stream it
    connected to. *)
Lemma logTrace_paths (inv : Invocation) (ds : list action) :
  (connected lowerCaseTable inv = None /\
   exists format arg,
     logTrace StatusText lowerCaseTable inv ds
     = (Exited 1, [Stderr format arg; OsExit 1], ds)) \/
  (exists lines err closeErr t rows lf pf,
     connected lowerCaseTable inv = Some (lines, err, closeErr) /\
     List.length rows = List.length lines /\
     logTrace StatusText lowerCaseTable inv ds
     = (sessionCalls (plainMode inv) (terminal inv) (signalled inv) t rows
                     lines closeErr err lf pf, ds)).
Proof.
  unfold connected.
  destruct (0 <? NArg inv) eqn:Hn.
  { left. split; [reflexivity|]. do 2 eexists.
    apply logTrace_too_many. exact Hn. }
  destruct (selectMode lowerCaseTable (typeFlag inv)) eqn:Hm.
  - destruct (auditLog inv) as [e|stream] eqn:Ha.
    + left. split; [reflexivity|]. do 2 eexists.
      apply (logTrace_connect_audit _ _ inv e ds Hn Hm Ha).
    + right.
      destruct (logTrace_session_audit StatusText lowerCaseTable inv stream ds
                  Hn Hm Ha) as (t & _ & E).
      do 7 eexists. split; [reflexivity|]. split; [|exact E].
      rewrite !length_map. reflexivity.
  - destruct (errorLog inv) as [e|stream] eqn:Ha.
    + left. split; [reflexivity|]. do 2 eexists.
      apply (logTrace_connect_error _ _ inv e ds Hn Hm Ha).
    + right.
      destruct (logTrace_session_error StatusText lowerCaseTable inv stream ds
                  Hn Hm Ha) as (t & _ & E).
      do 7 eexists. split; [reflexivity|]. split; [|exact E].
      rewrite !length_map. reflexivity.
  - left. split; [reflexivity|]. do 2 eexists.
    apply logTrace_invalid_type; assumption.
Qed.

End LogTraceSummary.

(** ** The type of log, in any case *)

Lemma byte_val_inj (a b : ascii) : byte_val a = byte_val b -> a = b.
Proof.
  intros H. rewrite <- (to_byte_byte_val a), <- (to_byte_byte_val b), H.
  reflexivity.
Qed.

Lemma same_letter_lower (a b : ascii) :
  same_letter a b = true -> Strings.lower_byte a = Strings.lower_byte b.
Proof.
  unfold same_letter. intros H. apply orb_prop in H as [H|H].
  - apply Ascii.eqb_eq in H. subst b. reflexivity.
  - apply andb_prop in H as [H Hd]. apply andb_prop in H as [Ha Hb].
    apply Z.eqb_eq in Hd. unfold is_letter_byte in Ha, Hb.
    apply byte_val_inj. rewrite !lower_byte_spec.
    pose proof (byte_val_range a). pose proof (byte_val_range b).
    destruct (Z.leb_spec 65 (byte_val a)), (Z.leb_spec (byte_val a) 90),
      (Z.leb_spec 97 (byte_val a)), (Z.leb_spec (byte_val a) 122),
      (Z.leb_spec 65 (byte_val b)), (Z.leb_spec (byte_val b) 90),
      (Z.leb_spec 97 (byte_val b)), (Z.leb_spec (byte_val b) 122);
      cbn [andb orb] in *; try discriminate; lia.
Qed.

Lemma same_letter_ascii (a b : ascii) :
  same_letter a b = true ->
  (byte_val b <? Utf8.RuneSelf) = true -> (byte_val a <? Utf8.RuneSelf) = true.
Proof.
  unfold same_letter, Utf8.RuneSelf. intros H Hb.
  apply orb_prop in H as [H|H].
  - apply Ascii.eqb_eq in H. subst b. exact Hb.
  - apply andb_prop in H as [H _]. apply andb_prop in H as [Ha _].
    unfold is_letter_byte in Ha. apply Z.ltb_lt.
    destruct (Z.leb_spec 65 (byte_val a)), (Z.leb_spec (byte_val a) 90),
      (Z.leb_spec 97 (byte_val a)), (Z.leb_spec (byte_val a) 122);
      cbn [andb orb] in *; try discriminate; lia.
Qed.

Lemma same_spelling_lower (s : string) :
  forall t,
    same_spelling s t = true -> is_ascii t = true ->
    is_ascii s = true /\
    string_map Strings.lower_byte s = string_map Strings.lower_byte t.
Proof.
  unfold is_ascii.
  induction s as [|a s IH]; intros [|b t] H Ht; try discriminate H.
  - split; reflexivity.
  - cbn [same_spelling] in H. apply andb_prop in H as [Hab Hst].
    cbn [string_forallb] in Ht |- *. apply andb_prop in Ht as [Hb Ht].
    destruct (IH t Hst Ht) as [IH1 IH2].
    rewrite (same_letter_ascii a b Hab Hb), IH1.
    split; [reflexivity|].
    cbn [string_map]. rewrite (same_letter_lower a b Hab), IH2. reflexivity.
Qed.

Lemma string_map_lower_fixed (s : string) :
  string_existsb Strings.is_upper_byte s = false ->
  string_map Strings.lower_byte s = s.
Proof.
  induction s as [|c s IH]; [reflexivity|].
  cbn [string_existsb string_map]. intros H.
  apply orb_false_elim in H as [Hc Hs].
  rewrite (IH Hs). unfold Strings.lower_byte. rewrite Hc. reflexivity.
Qed.

(** On ASCII, [ToLower] lowers byte by byte. *)
Lemma ToLower_ascii (lowerCaseTable : Z -> Z) (s : string) :
  is_ascii s = true ->
  Strings.ToLower lowerCaseTable s = string_map Strings.lower_byte s.
Proof.
  unfold is_ascii, Strings.ToLower. intros ->.
  destruct (string_existsb Strings.is_upper_byte s) eqn:Eu; cbn [negb];
    [reflexivity|].
  symmetry. apply string_map_lower_fixed, Eu.
Qed.

Lemma ToLower_same_spelling (lowerCaseTable : Z -> Z) (s t : string) :
  same_spelling s t = true -> is_ascii t = true ->
  Strings.ToLower lowerCaseTable s = Strings.ToLower lowerCaseTable t.
Proof.
  intros H Ht. destruct (same_spelling_lower s t H Ht) as [Hs E].
  rewrite !ToLower_ascii by assumption. exact E.
Qed.

Section TypeFlag.

Variable StatusText : Z -> string.
Variable lowerCaseTable : Z -> Z.

(** What [logTrace] does for each type of log, when no argument is left
    over. *)
Lemma logTrace_by_mode (inv : Invocation) (ds : list action) :
  NArg inv = 0 ->
  match selectMode lowerCaseTable (typeFlag inv) with
  | ModeAudit =>
      opensAuditLog StatusText inv
        (fst (logTrace StatusText lowerCaseTable inv ds))
  | ModeError =>
      opensErrorLog inv (fst (logTrace StatusText lowerCaseTable inv ds))
  | ModeInvalid =>
      fst (logTrace StatusText lowerCaseTable inv ds)
      = (Exited 1,
         [Stderr "Error: invalid log type --type: %q"
                 (ArgQuoted (typeFlag inv)); OsExit 1])
  end /\
  snd (logTrace StatusText lowerCaseTable inv ds) = ds.
Proof.
  intros Hn0.
  assert (Hn : (0 <? NArg inv) = false) by (rewrite Hn0; reflexivity).
  destruct (selectMode lowerCaseTable (typeFlag inv)) eqn:Hm.
  - unfold opensAuditLog. destruct (auditLog inv) as [e|stream] eqn:Ha.
    + rewrite (logTrace_connect_audit _ _ inv e ds Hn Hm Ha).
      split; reflexivity.
    + destruct (logTrace_session_audit StatusText lowerCaseTable inv stream
                  ds Hn Hm Ha) as (t & Ht & ->).
      split; [|reflexivity]. exists t. split; [exact Ht | reflexivity].
  - unfold opensErrorLog. destruct (errorLog inv) as [e|stream] eqn:Ha.
    + rewrite (logTrace_connect_error _ _ inv e ds Hn Hm Ha).
      split; reflexivity.
    + destruct (logTrace_session_error StatusText lowerCaseTable inv stream
                  ds Hn Hm Ha) as (t & Ht & ->).
      split; [|reflexivity]. exists t. split; [exact Ht | reflexivity].
  - rewrite (logTrace_invalid_type StatusText lowerCaseTable inv ds Hn Hm).
    split; reflexivity.
Qed.

(** Two values of [--type] that select the same log, other than none,
    make [logTrace] do the same. *)
Lemma logTrace_same_mode (inv : Invocation) (t : string) (ds : list action) :
  selectMode lowerCaseTable t = selectMode lowerCaseTable (typeFlag inv) ->
  selectMode lowerCaseTable (typeFlag inv) <> ModeInvalid ->
  logTrace StatusText lowerCaseTable (withType t inv) ds
  = logTrace StatusText lowerCaseTable inv ds.
Proof.
  intros E Hv. unfold logTrace, withType.
  cbn [typeFlag NArg auditLog errorLog stdoutIsTerm jsonOutput terminal
       signalled].
  rewrite E.
  destruct (selectMode lowerCaseTable (typeFlag inv));
    [reflexivity | reflexivity | contradiction].
Qed.

End TypeFlag.

(** C10: the type flag is matched without regard to case, and the match
    decides which log [logTrace] opens.  For a case table that maps valid
    runes to valid runes already in lower case: the type selected for a
    flag is the type selected for its lower-case form, and [logTrace]
    does for the flag what it does for its lower-case form; the audit log
    is selected exactly when the lower-case form is [audit] and the error
    log exactly when it is [error]; a flag that differs from an ASCII
    word in the case of letters only has the lower-case form of that
    word, so every spelling of [audit], [AUDIT] among them, selects the
    audit log, and [logTrace] does for it what it does for the word.
    With no argument left over, [logTrace] then connects to the audit
    log (reporting a failed connection, or running the session on the
    audit stream), likewise for [error], and for any other value reports
    the invalid type, quoted as given, and exits with status 1. *)
Theorem type_flag_case_insensitive (StatusText : Z -> string)
    (lowerCaseTable : Z -> Z)
    (table_valid :
       forall r, valid_rune r -> Unicode.MaxASCII < r ->
                 valid_rune (lowerCaseTable r))
    (table_idempotent :
       forall r, valid_rune r -> Unicode.MaxASCII < r ->
                 Unicode.ToLower lowerCaseTable (lowerCaseTable r)
                 = lowerCaseTable r)
    (inv : Invocation) (ds : list action) :
  let t := typeFlag inv in
  let lower := Strings.ToLower lowerCaseTable t in
  let does i := logTrace StatusText lowerCaseTable i ds in
  (selectMode lowerCaseTable t = selectMode lowerCaseTable lower /\
   (selectMode lowerCaseTable t <> ModeInvalid ->
    does (withType lower inv) = does inv)) /\
  ((selectMode lowerCaseTable t = ModeAudit <-> lower = "audit") /\
   (selectMode lowerCaseTable t = ModeError <-> lower = "error") /\
   selectMode lowerCaseTable "AUDIT" = ModeAudit) /\
  (forall u,
     same_spelling t u = true -> is_ascii u = true ->
     lower = Strings.ToLower lowerCaseTable u /\
     selectMode lowerCaseTable t = selectMode lowerCaseTable u /\
     (selectMode lowerCaseTable t <> ModeInvalid ->
      does (withType u inv) = does inv)) /\
  (same_spelling t "audit" = true -> lower = "audit") /\
  (same_spelling t "error" = true -> lower = "error") /\
  (NArg inv = 0 ->
   (lower = "audit" -> opensAuditLog StatusText inv (fst (does inv))) /\
   (lower = "error" -> opensErrorLog inv (fst (does inv))) /\
   (lower <> "audit" -> lower <> "error" ->
    fst (does inv)
    = (Exited 1,
       [Stderr "Error: invalid log type --type: %q" (ArgQuoted t);
        OsExit 1]))).
Proof.
  intros t lower does.
  destruct (selectMode_cases lowerCaseTable t) as (Ha & He & Hi).
  pose proof (selectMode_ToLower lowerCaseTable table_valid table_idempotent t)
    as Hlow.
  fold lower in Ha, He, Hi, Hlow.
  assert (Hsame : forall u,
            same_spelling t u = true -> is_ascii u = true ->
            lower = Strings.ToLower lowerCaseTable u).
  { intros u Hu Hascii. exact (ToLower_same_spelling lowerCaseTable t u Hu Hascii). }
  split; [split|].
  - symmetry. exact Hlow.
  - intros Hv. apply logTrace_same_mode; [exact Hlow | exact Hv].
  - split; [split; [exact Ha | split; [exact He | reflexivity]]|].
    split; [|split; [|split]].
    + intros u Hu Hascii. pose proof (Hsame u Hu Hascii) as E.
      assert (Em : selectMode lowerCaseTable t = selectMode lowerCaseTable u).
      { unfold selectMode. fold lower. rewrite E. reflexivity. }
      split; [exact E|]. split; [exact Em|].
      intros Hv. apply logTrace_same_mode; [symmetry; exact Em | exact Hv].
    + intros Hu. rewrite (Hsame "audit" Hu eq_refl). reflexivity.
    + intros Hu. rewrite (Hsame "error" Hu eq_refl). reflexivity.
    + intros Hn.
      destruct (logTrace_by_mode StatusText lowerCaseTable inv ds Hn)
        as [Hmode _].
      fold t in Hmode. fold (does inv) in Hmode.
      split; [|split].
      * intros E. apply Ha in E. rewrite E in Hmode. exact Hmode.
      * intros E. apply He in E. rewrite E in Hmode. exact Hmode.
      * intros Hna Hne. assert (E : selectMode lowerCaseTable t = ModeInvalid)
          by (apply Hi; split; assumption).
        rewrite E in Hmode. exact Hmode.
Qed.

Lemma type_flag_case_insensitive_witness :
  let inv :=
    mkInvocation "AuDiT" false false 0 true (inl "connection refused")
                 (inl "unused") (mkTerminal None []) false in
  NArg inv = 0 /\
  same_spelling (typeFlag inv) "audit" = true /\
  fst (logTrace (fun _ => "OK") sampleCaseTable inv [])
  = (Exited 1,
     [Stderr "Error: failed to connect to audit log: %v"
             (ArgError (Some "connection refused")); OsExit 1]).
Proof.
  intros inv. split; [reflexivity|]. split; [reflexivity|].
  destruct (type_flag_case_insensitive (fun _ => "OK") sampleCaseTable
              sampleCaseTable_valid sampleCaseTable_idempotent inv [])
    as (_ & _ & _ & Haudit & _ & Hopen).
  destruct (Hopen eq_refl) as (H & _).
  exact (H (Haudit eq_refl)).
Defined.

Lemma uiCalls_uiBody (t : Xterm.Table) (lb : list action)
    (rows : list Xterm.Row) (ff : string) (err : option string) :
  uiCalls t lb rows ff err
  = TableNew t :: uiBody lb rows ff err
    ++ match err with Some _ => [OsExit 1] | None => [] end.
Proof.
  unfold uiCalls, uiBody. destruct err; cbn [app];
    rewrite <- ?app_assoc, ?app_nil_r; reflexivity.
Qed.

(** The calls of the UI, one by one. *)
Lemma uiCalls_In (t : Xterm.Table) (lb : list action)
    (rows : list Xterm.Row) (ff : string) (err : option string) (a : action) :
  In a (uiCalls t lb rows ff err) <->
  a = TableNew t \/ a = UiInit \/ a = Go Listener lb \/ a = TableDraw \/
  (exists r, a = TableAddRow r /\ In r rows) \/
  (exists e, err = Some e /\
             (a = Stderr ff (ArgError (Some e)) \/ a = OsExit 1)) \/
  (err = None /\ a = UiClose).
Proof.
  unfold uiCalls. rewrite !in_app_iff, in_flat_map. cbn [In]. split.
  - intros [H|[(r & Hr & H)|H]].
    + intuition (subst; auto 10).
    + destruct H as [H|[H|[]]]; subst; eauto 10.
    + destruct err as [e|]; cbn [In] in H;
        destruct H as [H|[H|[]]]; subst; eauto 12.
  - intros [H|[H|[H|[H|[(r & H & Hr)|[(e & He & [H|H])|(He & H)]]]]]];
      subst; cbn [In]; auto 10.
    right. left. exists r. split; [exact Hr | left; reflexivity].
Qed.

Section Release.

Variable StatusText : Z -> string.
Variable lowerCaseTable : Z -> Z.

Lemma returns_normally_connected (inv : Invocation) :
  returns_normally lowerCaseTable inv
  = match connected lowerCaseTable inv with
    | Some (_, err, _) =>
        negb (plainMode inv)
        && match InitErr (terminal inv) with Some _ => false | None => true end
        && match err with Some _ => false | None => true end
    | None => false
    end.
Proof.
  unfold returns_normally, connected, plainMode.
  destruct (0 <? NArg inv); [reflexivity|]. cbn [negb andb].
  destruct (selectMode lowerCaseTable (typeFlag inv)).
  - destruct (auditLog inv); [rewrite !andb_false_r|]; reflexivity.
  - destruct (errorLog inv); [rewrite !andb_false_r|]; reflexivity.
  - rewrite !andb_false_r. reflexivity.
Qed.

(** X1: with no interrupt, [logTrace] itself closes the stream, and the
    terminal, exactly when it returns: on each of its fatal paths
    [stdlog.Fatalf] leaves the process before a deferred [stream.Close()]
    or [ui.Close()] runs, and when it returns both have run. *)
Theorem releases_iff_returns (inv : Invocation) :
  signalled inv = false ->
  let l := calls (logTrace StatusText lowerCaseTable inv) in
  (In StreamClose l <-> returns_normally lowerCaseTable inv = true) /\
  (In UiClose l <-> returns_normally lowerCaseTable inv = true) /\
  (outcome (logTrace StatusText lowerCaseTable inv) = Return tt
   <-> returns_normally lowerCaseTable inv = true).
Proof.
  intros _ l. subst l. unfold calls, outcome.
  rewrite returns_normally_connected.
  destruct (logTrace_paths StatusText lowerCaseTable inv [])
    as [(Hc & f & a & E)
       |(lines & err & ce & t & rows & lf & pf & Hc & _ & E)];
    rewrite E, Hc; cbn [fst snd].
  - repeat split; intros H; try discriminate H;
      destruct H as [H|[H|[]]]; discriminate H.
  - unfold sessionCalls.
    destruct (plainMode inv); cbn [negb andb fst snd].
    + repeat split; intros H; try discriminate H.
      * destruct H as [H|H]; [discriminate H|].
        apply in_app_or in H as [H|[H|[H|[]]]]; try discriminate H.
        apply in_map_iff in H as (x & H & _). discriminate H.
      * destruct H as [H|H]; [discriminate H|].
        apply in_app_or in H as [H|[H|[H|[]]]]; try discriminate H.
        apply in_map_iff in H as (x & H & _). discriminate H.
    + destruct (InitErr (terminal inv)) as [e|]; cbn [fst snd andb].
      * repeat split; intros H; try discriminate H;
          destruct H as [H|[H|[H|[]]]]; discriminate H.
      * destruct err as [e|]; cbn [fst snd].
        -- repeat split; intros H; try discriminate H; exfalso;
             apply uiCalls_In in H;
             destruct H as [H|[H|[H|[H|[(r & H & _)|[(e' & _ & [H|H])
                                                    |(H & _)]]]]]];
             discriminate H.
        -- repeat split; intros _; try reflexivity.
           ++ apply in_or_app. right. left. reflexivity.
           ++ apply in_or_app. left. apply uiCalls_In. auto 10.
Qed.

End Release.

Lemma releases_iff_returns_witness :
  let inv :=
    mkInvocation "audit" false false 0 true
      (inr (mkStream
              [mkDelivery (mkAuditEvent (10, 2, 3) "id" "/v1/key" 200 1500000)
                          "{}" (10, 2, 3)] None None))
      (inl "unused") (mkTerminal None []) false in
  signalled inv = false /\
  In UiClose (calls (logTrace (fun _ => "OK") sampleCaseTable inv)).
Proof.
  intros inv. split; [reflexivity|].
  destruct (releases_iff_returns (fun _ => "OK") sampleCaseTable inv eq_refl)
    as (_ & H & _).
  apply H. reflexivity.
Defined.

Lemma stdoutLines_app (l l' : list action) :
  stdoutLines (l ++ l') = stdoutLines l ++ stdoutLines l'.
Proof.
  induction l as [|a l IH]; [reflexivity|].
  destruct a; cbn; rewrite ?IH; reflexivity.
Qed.

Lemma stdoutLines_Stdout (lines : list string) :
  stdoutLines (List.map Stdout lines) = lines.
Proof. induction lines as [|x lines IH]; cbn; congruence. Qed.

Lemma stdoutLines_none (l : list action) :
  (forall line, ~ In (Stdout line) l) -> stdoutLines l = [].
Proof.
  induction l as [|a l IH]; intros H; [reflexivity|].
  destruct a; cbn; try (apply IH; intros line Hin; apply (H line);
                        right; exact Hin).
  exfalso. apply (H line). left. reflexivity.
Qed.

Section Surfaces.

Variable StatusText : Z -> string.
Variable lowerCaseTable : Z -> Z.

(** X2: the terminal is touched only by a session that reaches the UI:
    [ui.Init] succeeds, the listener is started and the table is drawn
    exactly when the arguments are accepted, the stream is connected, the
    output is interactive and the terminal initialises.  In particular no
    terminal is opened on a connection error, an invalid type or with
    [--json]. *)
Theorem ui_started_iff (inv : Invocation) :
  let l := calls (logTrace StatusText lowerCaseTable inv) in
  (In UiInit l <-> ui_starts lowerCaseTable inv = true) /\
  (In TableDraw l <-> ui_starts lowerCaseTable inv = true) /\
  ((exists body, In (Go Listener body) l)
   <-> ui_starts lowerCaseTable inv = true).
Proof.
  intros l. subst l. unfold calls, ui_starts.
  destruct (logTrace_paths StatusText lowerCaseTable inv [])
    as [(Hc & f & a & E)
       |(lines & err & ce & t & rows & lf & pf & Hc & _ & E)];
    rewrite E, Hc; cbn [fst snd].
  - repeat split; intros H; try discriminate H;
      try destruct H as [body H]; destruct H as [H|[H|[]]]; discriminate H.
  - unfold sessionCalls.
    destruct (plainMode inv); cbn [negb andb fst snd].
    + repeat split; intros H; try discriminate H;
        try destruct H as [body H];
        (destruct H as [H|H]; [discriminate H|]);
        (apply in_app_or in H as [H|[H|[H|[]]]]; try discriminate H);
        apply in_map_iff in H as (x & H & _); discriminate H.
    + destruct (InitErr (terminal inv)) as [e|]; cbn [fst snd].
      * repeat split; intros H; try discriminate H;
          try destruct H as [body H];
          destruct H as [H|[H|[H|[]]]]; discriminate H.
      * assert (Hin : forall a,
                  In a (uiCalls t (listener lf ce (polled (terminal inv)))
                                rows lf err) ->
                  In a (snd (match err with
                             | Some _ =>
                                 (Exited (A := unit) 1,
                                  uiCalls t
                                    (listener lf ce (polled (terminal inv)))
                                    rows lf err)
                             | None =>
                                 (Return tt,
                                  uiCalls t
                                    (listener lf ce (polled (terminal inv)))
                                    rows lf err ++ [StreamClose])
                             end))).
        { intros a Ha. destruct err; cbn [snd]; [exact Ha|].
          apply in_or_app. left. exact Ha. }
        repeat split; intros _; try reflexivity;
          try eexists; apply Hin, uiCalls_In; auto 10.
Qed.

(** X3: without the terminal UI, standard output carries the events and
    nothing else: [fmt.Println] writes one line per delivered event, the
    event's bytes, in arrival order (none when no stream is connected),
    the terminal is not initialised and the table is never drawn. *)
Theorem stdout_is_the_event_stream (inv : Invocation) :
  plainMode inv = true ->
  let l := calls (logTrace StatusText lowerCaseTable inv) in
  stdoutLines l
  = match connected lowerCaseTable inv with
    | Some (lines, _, _) => lines
    | None => []
    end /\
  ~ In TableDraw l /\ ~ In UiInit l.
Proof.
  intros Hp l. subst l. unfold calls.
  destruct (logTrace_paths StatusText lowerCaseTable inv [])
    as [(Hc & f & a & E)
       |(lines & err & ce & t & rows & lf & pf & Hc & _ & E)];
    rewrite E, Hc; cbn [fst snd].
  - split; [reflexivity|].
    split; intros [H|[H|[]]]; discriminate H.
  - unfold sessionCalls. rewrite Hp. cbn [fst snd]. split.
    + cbn [stdoutLines]. rewrite stdoutLines_app, stdoutLines_Stdout.
      cbn. apply app_nil_r.
    + split; (intros [H|H]; [discriminate H|]);
        (apply in_app_or in H as [H|[H|[H|[]]]]; try discriminate H);
        apply in_map_iff in H as (x & H & _); discriminate H.
Qed.

(** X4: when [logTrace] returns, and no interrupt has ended the process
    before, the deferred calls have run in the
    reverse of the order they were deferred in, across the two functions:
    the terminal is initialised once, at the start; [ui.Close()] is called
    once, after every row has been added and drawn; the table is drawn one
    more time after it; and [stream.Close()] comes last. *)
Theorem deferred_calls_run_in_reverse (inv : Invocation) :
  signalled inv = false ->
  returns_normally lowerCaseTable inv = true ->
  exists t rows body,
    calls (logTrace StatusText lowerCaseTable inv)
    = [TableNew t; UiInit; Go Listener body; TableDraw]
      ++ flat_map (fun r => [TableAddRow r; TableDraw]) rows
      ++ [UiClose; TableDraw; StreamClose] /\
    match connected lowerCaseTable inv with
    | Some (lines, _, _) => List.length rows = List.length lines
    | None => False
    end.
Proof.
  intros _. rewrite returns_normally_connected. unfold calls.
  destruct (logTrace_paths StatusText lowerCaseTable inv [])
    as [(Hc & f & a & E)
       |(lines & err & ce & t & rows & lf & pf & Hc & Hlen & E)];
    rewrite E, Hc; cbn [fst snd]; [discriminate|].
  unfold sessionCalls.
  destruct (plainMode inv); [discriminate|].
  destruct (InitErr (terminal inv)); [discriminate|].
  destruct err; [discriminate|]. intros _.
  exists t, rows, (listener lf ce (polled (terminal inv))).
  split; [|exact Hlen]. cbn [snd]. unfold uiCalls.
  rewrite <- !app_assoc. reflexivity.
Qed.

End Surfaces.

Lemma stdout_is_the_event_stream_witness :
  let inv :=
    mkInvocation "error" true false 0 true (inl "unused")
      (inr (mkStream
              [mkDelivery (mkErrorEvent "disk full") "{1}" (10, 2, 3);
               mkDelivery (mkErrorEvent "again") "{2}" (10, 2, 4)]
              None None))
      (mkTerminal None []) false in
  plainMode inv = true /\
  stdoutLines (calls (logTrace (fun _ => "OK") sampleCaseTable inv))
  = ["{1}"; "{2}"].
Proof.
  intros inv. split; [reflexivity|].
  destruct (stdout_is_the_event_stream (fun _ => "OK") sampleCaseTable inv
              eq_refl) as (E & _).
  rewrite E. reflexivity.
Defined.

Lemma deferred_calls_run_in_reverse_witness :
  let inv :=
    mkInvocation "AUDIT" false true 0 true
      (inr (mkStream
              [mkDelivery (mkAuditEvent (10, 2, 3) "id" "/v1/key" 200 1500000)
                          "{}" (10, 2, 3)] None None))
      (inl "unused") (mkTerminal None [mkUiEvent ResizeEvent "<Resize>"])
      false in
  signalled inv = false /\
  returns_normally sampleCaseTable inv = true /\
  last (calls (logTrace (fun _ => "OK") sampleCaseTable inv)) UiInit
  = StreamClose.
Proof.
  intros inv.
  assert (H : returns_normally sampleCaseTable inv = true) by reflexivity.
  split; [reflexivity|]. split; [exact H|].
  destruct (deferred_calls_run_in_reverse (fun _ => "OK") sampleCaseTable
              inv eq_refl H) as (t & rows & body & E & _).
  rewrite E.
  rewrite (app_assoc _ _ [UiClose; TableDraw; StreamClose]).
  change [UiClose; TableDraw; StreamClose]
    with ([UiClose; TableDraw] ++ [StreamClose]).
  rewrite app_assoc. apply last_last.
Defined.

(** ** The listener, the rows and the clock *)

(** X5: the listener goroutine, event by event: it draws the table once
    for each resize event that arrives before the first <C-c> or <Escape>;
    on that key it closes the stream, reports the error of [Close] if
    there is one, and ends, so it closes the stream at most once and
    ignores every later event; other events are skipped. *)
Theorem listener_draws_until_cancelled (format : string)
    (closeErr : option string) (events : list UiEvent) :
  listener format closeErr events
  = List.map (fun _ => TableDraw)
             (List.filter is_resize (before_cancel events))
    ++ (if existsb is_cancel events
        then StreamClose :: closeReport format closeErr
        else []).
Proof.
  induction events as [|ev events IH]; [reflexivity|].
  cbn [listener before_cancel existsb]. unfold is_cancel at 1 2.
  destruct (is_resize ev) eqn:Hr; cbn [negb andb orb].
  - cbn [List.filter]. rewrite Hr. cbn [List.map app]. rewrite IH.
    reflexivity.
  - destruct (String.eqb (ID ev) "<C-c>" || String.eqb (ID ev) "<Escape>");
      cbn [orb List.filter List.map app].
    + reflexivity.
    + rewrite Hr. exact IH.
Qed.

Lemma auditTable_columns (t : Xterm.Table) :
  auditTable = Some t -> List.length (Xterm.header t) = 5%nat.
Proof. intros H. vm_compute in H. injection H as <-. reflexivity. Qed.

Lemma errorTable_columns (t : Xterm.Table) :
  errorTable = Some t -> List.length (Xterm.header t) = 2%nat.
Proof. intros H. vm_compute in H. injection H as <-. reflexivity. Qed.

Lemma auditRow_cells (StatusText : Z -> string) (ev : AuditEvent) :
  List.length (auditRow StatusText ev) = 5%nat.
Proof.
  unfold auditRow. destruct (TimeClock ev) as [[hh mm] ss]. reflexivity.
Qed.

Lemma errorRowOf_cells (d : delivery ErrorEvent) :
  List.length (errorRowOf d) = 2%nat.
Proof.
  unfold errorRowOf.
  destruct (errorRow_defined (clock d) (event d)) as (tm & msg & ->).
  reflexivity.
Qed.

Lemma sessionCalls_table (plain : bool) (term : Terminal) (sig : bool)
    (t : Xterm.Table) (rows : list Xterm.Row) (lines : list string)
    (closeErr err : option string) (lf pf : string) :
  let l := snd (sessionCalls plain term sig t rows lines closeErr err lf pf) in
  (forall t', In (TableNew t') l -> t' = t) /\
  (forall r, In (TableAddRow r) l -> In r rows).
Proof.
  unfold sessionCalls. destruct plain; cbn [snd].
  - split; intros x [H|H]; try discriminate H;
      (apply in_app_or in H as [H|[H|[H|[]]]]; try discriminate H);
      apply in_map_iff in H as (y & H & _); discriminate H.
  - destruct (InitErr term) as [e|]; cbn [snd].
    + split; intros x [H|[H|[H|[]]]]; try discriminate H.
      injection H as <-. reflexivity.
    + assert (Hin : forall a,
                In a (snd (match err with
                           | Some _ =>
                               (Exited (A := unit) 1,
                                uiCalls t (listener lf closeErr (polled term))
                                        rows lf err)
                           | None =>
                               (Return tt,
                                uiCalls t (listener lf closeErr (polled term))
                                        rows lf err ++ [StreamClose])
                           end)) ->
                a = StreamClose \/
                In a (uiCalls t (listener lf closeErr (polled term))
                              rows lf err)).
      { intros a Ha. destruct err; cbn [snd] in Ha; [right; exact Ha|].
        apply in_app_or in Ha as [Ha|[Ha|[]]]; auto. }
      split; intros x Hx; apply Hin in Hx as [Hx|Hx]; try discriminate Hx;
        apply uiCalls_In in Hx;
        destruct Hx as [H|[H|[H|[H|[(r & H & Hr)|[(e' & _ & [H|H])
                                                 |(_ & H)]]]]]];
        try discriminate H.
      * injection H as <-. reflexivity.
      * injection H as <-. exact Hr.
Qed.

Section RowsAndColumns.

Variable StatusText : Z -> string.
Variable lowerCaseTable : Z -> Z.

(** X6: every row fits the table: whatever the invocation, a row that
    [logTrace] adds has exactly one cell for each column of the table the
    session created, five in an audit session and two in an error
    session. *)
Theorem rows_fit_the_columns (inv : Invocation) (t : Xterm.Table)
    (r : Xterm.Row) :
  In (TableNew t) (calls (logTrace StatusText lowerCaseTable inv)) ->
  In (TableAddRow r) (calls (logTrace StatusText lowerCaseTable inv)) ->
  List.length r = List.length (Xterm.header t) /\
  List.length r
  = match selectMode lowerCaseTable (typeFlag inv) with
    | ModeAudit => 5%nat
    | _ => 2%nat
    end.
Proof.
  unfold calls.
  destruct (0 <? NArg inv) eqn:Hn.
  { rewrite logTrace_too_many by exact Hn. cbn [fst snd].
    intros [H|[H|[]]]; discriminate H. }
  destruct (selectMode lowerCaseTable (typeFlag inv)) eqn:Hm.
  - destruct (auditLog inv) as [e|stream] eqn:Ha.
    + rewrite (logTrace_connect_audit _ _ inv e [] Hn Hm Ha). cbn [fst snd].
      intros [H|[H|[]]]; discriminate H.
    + destruct (logTrace_session_audit StatusText lowerCaseTable inv stream []
                  Hn Hm Ha) as (t0 & Ht0 & ->).
      cbn [fst]. intros Ht Hr.
      apply sessionCalls_table in Ht. subst t.
      apply sessionCalls_table in Hr.
      apply in_map_iff in Hr as (d & <- & _).
      rewrite (auditTable_columns _ Ht0), auditRow_cells. split; reflexivity.
  - destruct (errorLog inv) as [e|stream] eqn:Ha.
    + rewrite (logTrace_connect_error _ _ inv e [] Hn Hm Ha). cbn [fst snd].
      intros [H|[H|[]]]; discriminate H.
    + destruct (logTrace_session_error StatusText lowerCaseTable inv stream []
                  Hn Hm Ha) as (t0 & Ht0 & ->).
      cbn [fst]. intros Ht Hr.
      apply sessionCalls_table in Ht. subst t.
      apply sessionCalls_table in Hr.
      apply in_map_iff in Hr as (d & <- & _).
      rewrite (errorTable_columns _ Ht0), errorRowOf_cells. split; reflexivity.
  - rewrite (logTrace_invalid_type StatusText lowerCaseTable inv [])
      by assumption.
    cbn [fst snd]. intros [H|[H|[]]]; discriminate H.
Qed.

End RowsAndColumns.

(** ** The texts of the time cells *)

(** X7: the time cell of a row is HH:MM:SS, always eight bytes: each
    field of a clock reading is written with exactly two decimal digits,
    a leading zero included, and the fields are separated by colons. *)
Theorem clock_cell_is_HH_MM_SS (hh mm ss : Z) :
  0 <= hh < 24 -> 0 <= mm < 60 -> 0 <= ss < 60 ->
  Fmt.clock hh mm ss
  = (two_digits hh ++ ":" ++ two_digits mm ++ ":" ++ two_digits ss)%string /\
  String.length (Fmt.clock hh mm ss) = 8%nat.
Proof.
  intros Hh Hm Hs. unfold Fmt.clock.
  rewrite !d02_two_digits by lia. split; reflexivity.
Qed.

Lemma clock_cell_is_HH_MM_SS_witness :
  Fmt.clock 9 5 0 = "09:05:00".
Proof.
  destruct (clock_cell_is_HH_MM_SS 9 5 0) as [E _]; [lia | lia | lia |].
  rewrite E. reflexivity.
Defined.

Lemma fmtFrac_loop_zeros (n : nat) :
  forall m v buf,
    Duration.fmtFrac_loop (n + m) (10 ^ Z.of_nat n * v) false buf
    = Duration.fmtFrac_loop m v false buf.
Proof.
  induction n as [|n IH]; intros m v buf.
  - cbn [Nat.add]. change (10 ^ Z.of_nat 0) with 1. rewrite Z.mul_1_l.
    reflexivity.
  - cbn [Nat.add Duration.fmtFrac_loop].
    rewrite Nat2Z.inj_succ, Z.pow_succ_r by lia.
    replace (10 * 10 ^ Z.of_nat n * v) with ((10 ^ Z.of_nat n * v) * 10)
      by lia.
    rewrite Z.mod_mul, Z.div_mul by lia.
    cbn [Z.eqb negb orb]. apply IH.
Qed.

Lemma fmtFrac_hundredths (unit_ : string) (k : Z) :
  0 <= k ->
  Duration.fmtFrac unit_ k 2 = ((hundredths (k mod 100) ++ unit_)%string, k / 100).
Proof.
  intros Hk. unfold Duration.fmtFrac, Duration.fmtFrac_loop, hundredths.
  assert (E0 : (k mod 100) mod 10 = k mod 10)
    by (Z.to_euclidean_division_equations; lia).
  assert (E1 : (k mod 100) / 10 = (k / 10) mod 10)
    by (Z.to_euclidean_division_equations; lia).
  assert (E2 : k / 10 / 10 = k / 100)
    by (Z.to_euclidean_division_equations; lia).
  rewrite E0, E1, E2.
  destruct (Z.eqb_spec (k mod 10) 0) as [H0|H0];
    destruct (Z.eqb_spec (k / 10 mod 10) 0) as [H1|H1];
    destruct (Z.eqb_spec (k mod 100) 0) as [H2|H2];
    cbn [negb orb]; try reflexivity;
    exfalso; Z.to_euclidean_division_equations; lia.
Qed.

Lemma fmtFrac_scaled (unit_ : string) (n : nat) (k : Z) :
  0 <= k ->
  Duration.fmtFrac unit_ (10 ^ Z.of_nat n * k) (n + 2)
  = ((hundredths (k mod 100) ++ unit_)%string, k / 100).
Proof.
  intros Hk. rewrite <- (fmtFrac_hundredths unit_ k Hk).
  unfold Duration.fmtFrac. rewrite fmtFrac_loop_zeros. reflexivity.
Qed.

Lemma respTruncated_div (d : Z) :
  0 <= d < 60 * Duration.Second ->
  respTruncated d = respResolution d * (d / respResolution d).
Proof.
  intros Hd. rewrite respTruncated_quot.
  - rewrite Z.quot_div_nonneg; [reflexivity | lia | apply respResolution_pos].
  - unfold Int64.in_range, Int64.min_int, Int64.max_int.
    unfold_units. lia.
Qed.

(** X8: what the response cell shows of a response time below a minute,
    as the comment at the switch promises (1.05s, 345.76ms): whole
    microseconds below a millisecond (and 0s below a microsecond),
    milliseconds with at most two decimals below a second, seconds with at
    most two decimals from there; the decimals are cut, not rounded, and
    trailing zeros are dropped. *)
Theorem response_cell_has_two_decimals (d : Duration.t) :
  0 <= d < 60 * Duration.Second ->
  respTimeText d
  = if d <? Duration.Microsecond then "0s"
    else if d <? Duration.Millisecond then
      Duration.fmtInt (Duration.micro_sign ++ "s") (d / 1000)
    else if d <? Duration.Second then
      Duration.fmtInt (hundredths (d / 10000 mod 100) ++ "ms") (d / 1000000)
    else
      Duration.fmtInt (hundredths (d / 10000000 mod 100) ++ "s")
                      (d / 1000000000).
Proof.
  intros Hd. unfold respTimeText. rewrite (respTruncated_div d Hd).
  destruct (respResolution_cases d) as (Hs & Hms & Hus).
  destruct (Z.ltb_spec d Duration.Microsecond) as [H1|H1].
  { rewrite Hus by (unfold_units; lia).
    replace (d / Duration.Microsecond) with 0
      by (unfold_units; Z.to_euclidean_division_equations; lia).
    reflexivity. }
  destruct (Z.ltb_spec d Duration.Millisecond) as [H2|H2].
  { rewrite Hus by exact H2.
    change Duration.Microsecond with (10 ^ Z.of_nat 3) in *.
    change Duration.Millisecond with 1000000 in *.
    change (10 ^ Z.of_nat 3) with 1000 in H1.
    assert (Hk : 1 <= d / 1000 < 1000)
      by (Z.to_euclidean_division_equations; lia).
    change (d / 10 ^ Z.of_nat 3) with (d / 1000).
    set (k := d / 1000) in *.
    unfold Duration.String_.
    change (10 ^ Z.of_nat 3) with 1000.
    destruct (Z.ltb_spec (1000 * k) 0); [lia|].
    destruct (Z.ltb_spec (1000 * k) Duration.Second);
      [|unfold_units; lia].
    destruct (Z.eqb_spec (1000 * k) 0); [lia|].
    destruct (Z.ltb_spec (1000 * k) Duration.Microsecond);
      [unfold_units; lia|].
    destruct (Z.ltb_spec (1000 * k) Duration.Millisecond);
      [|unfold_units; lia].
    unfold Duration.fmtFrac.
    change 1000 with (10 ^ Z.of_nat 3) at 1.
    rewrite (fmtFrac_loop_zeros 3 0 k). reflexivity. }
  destruct (Z.ltb_spec d Duration.Second) as [H3|H3].
  { rewrite (Hms (conj H2 H3)).
    change Duration.Millisecond with 1000000 in *.
    change Duration.Second with 1000000000 in *.
    change (10 * Duration.Microsecond) with 10000.
    assert (Hk : 100 <= d / 10000 < 100000)
      by (Z.to_euclidean_division_equations; lia).
    assert (Hq : d / 10000 / 100 = d / 1000000)
      by (Z.to_euclidean_division_equations; lia).
    set (k := d / 10000) in *.
    unfold Duration.String_.
    destruct (Z.ltb_spec (10000 * k) 0); [lia|].
    destruct (Z.ltb_spec (10000 * k) Duration.Second);
      [|unfold_units; lia].
    destruct (Z.eqb_spec (10000 * k) 0); [lia|].
    destruct (Z.ltb_spec (10000 * k) Duration.Microsecond);
      [unfold_units; lia|].
    destruct (Z.ltb_spec (10000 * k) Duration.Millisecond);
      [unfold_units; lia|].
    cbv beta iota.
    pose proof (fmtFrac_scaled "ms" 4 k ltac:(lia)) as Hf.
    change (10 ^ Z.of_nat 4) with 10000 in Hf.
    change (4 + 2)%nat with 6%nat in Hf.
    rewrite Hf, Hq. reflexivity. }
  rewrite (Hs H3).
  change Duration.Second with 1000000000 in *.
  change (10 * Duration.Millisecond) with 10000000.
  assert (Hk : 100 <= d / 10000000 < 6000)
    by (Z.to_euclidean_division_equations; lia).
  assert (Hq : d / 10000000 / 100 = d / 1000000000)
    by (Z.to_euclidean_division_equations; lia).
  assert (Hv : 1 <= d / 1000000000 < 60)
    by (Z.to_euclidean_division_equations; lia).
  set (k := d / 10000000) in *.
  unfold Duration.String_.
  destruct (Z.ltb_spec (10000000 * k) 0); [lia|].
  destruct (Z.ltb_spec (10000000 * k) Duration.Second);
    [unfold_units; lia|].
  pose proof (fmtFrac_scaled "s" 7 k ltac:(lia)) as Hf.
  change (10 ^ Z.of_nat 7) with 10000000 in Hf.
  change (7 + 2)%nat with 9%nat in Hf.
  rewrite Hf, Hq.
  rewrite (Z.mod_small _ 60) by lia.
  rewrite (Z.div_small _ 60) by lia.
  reflexivity.
Qed.

Lemma response_cell_has_two_decimals_witness :
  respTimeText 345768000 = "345.76ms".
Proof.
  rewrite (response_cell_has_two_decimals 345768000); [reflexivity|].
  unfold Duration.Second, Duration.Millisecond, Duration.Microsecond,
    Duration.Nanosecond. lia.
Defined.

Lemma rows_fit_the_columns_witness :
  let ev := mkAuditEvent (10, 2, 3) "id" "/v1/key" 200 1500000 in
  let inv :=
    mkInvocation "audit" false false 0 true
      (inr (mkStream [mkDelivery ev "{}" (10, 2, 3)] None None))
      (inl "unused") (mkTerminal None []) false in
  let l := calls (logTrace (fun _ => "OK") sampleCaseTable inv) in
  exists t,
    In (TableNew t) l /\
    In (TableAddRow (auditRow (fun _ => "OK") ev)) l /\
    List.length (auditRow (fun _ => "OK") ev) = List.length (Xterm.header t).
Proof.
  intros ev inv l.
  destruct auditTable_defined as [t Ht]. exists t.
  assert (H1 : In (TableNew t) l).
  { subst l. unfold calls.
    destruct (logTrace_session_audit (fun _ => "OK") sampleCaseTable inv
                (mkStream [mkDelivery ev "{}" (10, 2, 3)] None None) []
                eq_refl eq_refl eq_refl) as (t0 & Ht0 & ->).
    assert (t0 = t) as -> by congruence.
    left. reflexivity. }
  assert (H2 : In (TableAddRow (auditRow (fun _ => "OK") ev)) l).
  { subst l. unfold calls.
    destruct (logTrace_session_audit (fun _ => "OK") sampleCaseTable inv
                (mkStream [mkDelivery ev "{}" (10, 2, 3)] None None) []
                eq_refl eq_refl eq_refl) as (t0 & Ht0 & ->).
    do 4 right. left. reflexivity. }
  split; [exact H1|]. split; [exact H2|].
  exact (proj1 (rows_fit_the_columns (fun _ => "OK") sampleCaseTable inv t
                  (auditRow (fun _ => "OK") ev) H1 H2)).
Defined.

(** ** The command line *)

Lemma Parse_not_flag {Vars} (formal : list (Flag.flag Vars)) (a : string)
    (rest : list string) (vars : Vars) :
  flag_like a = false ->
  Flag.Parse formal (a :: rest) vars = Flag.Parsed vars (a :: rest).
Proof.
  intros Ha. destruct a as [|c0 [|c1 s2]]; try reflexivity.
  cbn [flag_like] in Ha. cbn [Flag.Parse]. rewrite Ha. reflexivity.
Qed.

Section CommandLineFacts.

Variable StatusText : Z -> string.
Variable lowerCaseTable : Z -> Z.
Variable helpStatus : Z.

(** X9: [log] runs the command its first argument names: [trace] goes
    to [logTrace] with the arguments from the command on, so the flags
    after the command are [logTrace]'s to parse; any other word is
    reported, quoted, with exit status 1; and with no argument at all
    [log] prints its usage and exits with status 2. *)
Theorem log_runs_the_named_command (name cmd : string) (rest : list string)
    (env : Environment) :
  flag_like cmd = false ->
  log StatusText lowerCaseTable helpStatus (name :: cmd :: rest) env
  = (if String.eqb cmd "trace"
     then logTraceArgs StatusText lowerCaseTable helpStatus (cmd :: rest) env
     else Launched
            (Fatalf "Error: %q is not a kes log command. See 'kes log --help'"
                    (ArgQuoted cmd))) /\
  log StatusText lowerCaseTable helpStatus [name] env = UsageExit logCmdUsage.
Proof.
  intros Hc. split; [|reflexivity].
  unfold log. rewrite (Parse_not_flag _ _ _ _ Hc). reflexivity.
Qed.

(** X10: [log] defines no flag of its own: whatever flag stands before
    the command, [-k] and [--json] included, the flag package refuses it
    and ends the process after the usage of [log], and no command runs. *)
Theorem log_refuses_flags_before_the_command (name a : string)
    (rest : list string) (env : Environment) :
  flag_like a = true -> a <> "--" ->
  exists f,
    log StatusText lowerCaseTable helpStatus (name :: a :: rest) env
    = FlagExit f logCmdUsage (Flag.exitStatus helpStatus f) /\
    (f = Flag.BadSyntax a \/ f = Flag.Help \/ exists n, f = Flag.NotDefined n).
Proof.
  intros Ha Hne. destruct a as [|c0 [|c1 s2]]; try discriminate Ha.
  cbn [flag_like] in Ha. unfold log. cbn [Flag.Parse]. rewrite Ha.
  cbn [negb].
  destruct (Ascii.eqb c1 "-" && (String.length (String c0 (String c1 s2)) =? 2)%nat)
    eqn:Hmm.
  { exfalso. apply Hne. apply andb_prop in Hmm as [H1 H2].
    apply Ascii.eqb_eq in H1, Ha. subst c0 c1.
    destruct s2; [reflexivity | discriminate H2]. }
  match goal with
  | |- context [if ?b then Flag.Failed (Flag.BadSyntax _) else _] =>
      destruct b
  end.
  { eexists. split; [reflexivity|]. left. reflexivity. }
  destruct (Flag.splitValue (if Ascii.eqb c1 "-" then s2 else String c1 s2))
    as [n v].
  cbn [Flag.lookup].
  destruct (String.eqb n "help" || String.eqb n "h").
  - eexists. split; [reflexivity|]. right. left. reflexivity.
  - eexists. split; [reflexivity|]. right. right. eexists. reflexivity.
Qed.

End CommandLineFacts.

Lemma log_runs_the_named_command_witness :
  log (fun _ => "OK") sampleCaseTable 0 ["log"; "trace"; "--json"] offline
  = logTraceArgs (fun _ => "OK") sampleCaseTable 0 ["trace"; "--json"] offline.
Proof.
  exact (proj1 (log_runs_the_named_command (fun _ => "OK") sampleCaseTable 0
                  "log" "trace" ["--json"] offline eq_refl)).
Defined.

Lemma log_refuses_flags_before_the_command_witness :
  exists f,
    log (fun _ => "OK") sampleCaseTable 0 ["log"; "-k"; "trace"] offline
    = FlagExit f logCmdUsage (Flag.exitStatus 0 f).
Proof.
  destruct (log_refuses_flags_before_the_command (fun _ => "OK")
              sampleCaseTable 0 "log" "-k" ["trace"] offline eq_refl
              ltac:(discriminate)) as (f & E & _).
  exists f. exact E.
Defined.

Section TraceFlags.

Variable StatusText : Z -> string.
Variable lowerCaseTable : Z -> Z.
Variable helpStatus : Z.

(** X11: the log type reaches [logTrace] as written, in each spelling the
    flag package accepts: with one dash or two, and with the value after
    [=] or as the next argument, where it is taken as it stands even when
    it looks like a flag.  The other two variables keep their defaults
    and no argument is left over. *)
Theorem type_flag_in_each_spelling (name T : string) (env : Environment) :
  let started :=
    Launched (logTrace StatusText lowerCaseTable
                (invocationOf (mkTraceVars T false false) env)) in
  logTraceArgs StatusText lowerCaseTable helpStatus
    [name; ("--type=" ++ T)%string] env = started /\
  logTraceArgs StatusText lowerCaseTable helpStatus
    [name; ("-type=" ++ T)%string] env = started /\
  logTraceArgs StatusText lowerCaseTable helpStatus
    [name; "--type"; T] env = started /\
  logTraceArgs StatusText lowerCaseTable helpStatus
    [name; "-type"; T] env = started.
Proof. repeat split. Qed.

(** X12: [-k] and [--insecure] are one switch: in either spelling, with
    one dash or two, the flag sets the same variable to true and leaves
    the other two alone, and the arguments after it are parsed as they
    would be without it. *)
Theorem k_and_insecure_are_one_switch (rest : list string)
    (vars : traceVars) :
  let after :=
    Flag.Parse traceFlags rest
               (mkTraceVars (varType vars) (varJson vars) true) in
  Flag.Parse traceFlags ("-k" :: rest) vars = after /\
  Flag.Parse traceFlags ("--k" :: rest) vars = after /\
  Flag.Parse traceFlags ("-insecure" :: rest) vars = after /\
  Flag.Parse traceFlags ("--insecure" :: rest) vars = after.
Proof. repeat split. Qed.

(** X13: [logTrace] takes no positional argument: from the first
    argument that is no flag on, nothing is parsed (a [--help] behind it
    is not seen), and [logTrace] reports too many arguments and exits
    with status 1 before it connects to the server. *)
Theorem positional_argument_is_fatal (name a : string) (rest : list string)
    (env : Environment) :
  flag_like a = false ->
  exists m,
    logTraceArgs StatusText lowerCaseTable helpStatus (name :: a :: rest) env
    = Launched m /\
    forall ds,
      m ds = (Exited 1, [Stderr "Error: too many arguments" NoArg; OsExit 1],
              ds).
Proof.
  intros Ha. unfold logTraceArgs. rewrite (Parse_not_flag _ _ _ _ Ha).
  eexists. split; [reflexivity|]. intros ds.
  apply logTrace_too_many. cbn [NArg List.length].
  apply Z.ltb_lt. lia.
Qed.

(** X14: a request for help is answered by the flag package with the
    usage of the command whose arguments it stands in, and ends the
    process there: no command is run and no stream is connected, whatever
    follows. *)
Theorem help_ends_in_the_usage (name h : string) (rest : list string)
    (env : Environment) :
  In h ["-h"; "--h"; "-help"; "--help"] ->
  logTraceArgs StatusText lowerCaseTable helpStatus (name :: h :: rest) env
  = FlagExit Flag.Help traceLogCmdUsage helpStatus /\
  log StatusText lowerCaseTable helpStatus (name :: h :: rest) env
  = FlagExit Flag.Help logCmdUsage helpStatus /\
  log StatusText lowerCaseTable helpStatus (name :: "trace" :: h :: rest) env
  = FlagExit Flag.Help traceLogCmdUsage helpStatus.
Proof.
  intros [<-|[<-|[<-|[<-|[]]]]]; repeat split.
Qed.

End TraceFlags.

Lemma positional_argument_is_fatal_witness :
  exists m,
    logTraceArgs (fun _ => "OK") sampleCaseTable 0
                 ["trace"; "audit"; "--help"] offline
    = Launched m.
Proof.
  destruct (positional_argument_is_fatal (fun _ => "OK") sampleCaseTable 0
              "trace" "audit" ["--help"] offline eq_refl) as (m & E & _).
  exists m. exact E.
Defined.

Lemma help_ends_in_the_usage_witness :
  logTraceArgs (fun _ => "OK") sampleCaseTable 0 ["trace"; "--help"] offline
  = FlagExit Flag.Help traceLogCmdUsage 0.
Proof.
  exact (proj1 (help_ends_in_the_usage (fun _ => "OK") sampleCaseTable 0
                  "trace" "--help" [] offline
                  (or_intror (or_intror (or_intror (or_introl eq_refl)))))).
Defined.

(** ** The whole process *)

Lemma listener_closes (format : string) (closeErr : option string)
    (events : list UiEvent) :
  In StreamClose (listener format closeErr events) ->
  existsb is_cancel events = true.
Proof.
  induction events as [|ev events IH]; cbn [listener existsb];
    [contradiction|].
  unfold is_cancel at 1. destruct (is_resize ev); cbn [negb andb orb].
  - intros [H|H]; [discriminate H | exact (IH H)].
  - destruct (String.eqb (ID ev) "<C-c>" || String.eqb (ID ev) "<Escape>");
      cbn [orb]; [reflexivity | exact IH].
Qed.

Lemma In_program {A} (m : M A) (a : action) :
  In a (program m) -> In a (calls m) \/ exists code, a = OsExit code.
Proof.
  unfold program. intros H. apply in_app_or in H as [H|H]; [left; exact H|].
  right. destruct (outcome m); cbn [In] in H;
    try (destruct H as [<-|[]]; eexists; reflexivity); contradiction.
Qed.

Section WholeProcess.

Variable StatusText : Z -> string.
Variable lowerCaseTable : Z -> Z.

(** The goroutines [logTrace] starts. *)
Lemma logTrace_go (inv : Invocation) (w : actor) (body : list action) :
  In (Go w body) (calls (logTrace StatusText lowerCaseTable inv)) ->
  forallb quiet body = true /\
  ((w = SignalWatcher /\ plainMode inv = true /\
    (In StreamClose body -> signalled inv = true)) \/
   (w = Listener /\ ui_starts lowerCaseTable inv = true /\
    (In StreamClose body ->
     existsb is_cancel (polled (terminal inv)) = true))).
Proof.
  unfold calls, ui_starts.
  destruct (logTrace_paths StatusText lowerCaseTable inv [])
    as [(Hc & f & a & E)
       |(lines & err & ce & t & rows & lf & pf & Hc & _ & E)];
    rewrite E, Hc; cbn [fst snd].
  - intros [H|[H|[]]]; discriminate H.
  - unfold sessionCalls.
    destruct (plainMode inv); cbn [negb andb fst snd].
    + intros [H|H].
      * injection H as <- <-. split.
        { destruct (signalled inv); [|reflexivity].
          destruct ce; reflexivity. }
        left. repeat split.
        destruct (signalled inv); [reflexivity | contradiction].
      * exfalso.
        apply in_app_or in H as [H|[H|[H|[]]]]; try discriminate H.
        apply in_map_iff in H as (x & H & _). discriminate H.
    + destruct (InitErr (terminal inv)) as [e|]; cbn [fst snd].
      * intros [H|[H|[H|[]]]]; discriminate H.
      * intros H.
        assert (Hin : In (Go w body)
                         (uiCalls t (listener lf ce (polled (terminal inv)))
                                  rows lf err)).
        { destruct err; cbn [snd] in H; [exact H|].
          apply in_app_or in H as [H|[H|[]]]; [exact H | discriminate H]. }
        apply uiCalls_In in Hin.
        destruct Hin as [H0|[H0|[H0|[H0|[(r & H0 & _)|[(e' & _ & [H0|H0])
                                                      |(_ & H0)]]]]]];
          try discriminate H0.
        injection H0 as -> ->. split; [apply listener_quiet|].
        right. repeat split. apply listener_closes.
Qed.

Lemma logTrace_starts_quiet (inv : Invocation) :
  starts_quiet (program (logTrace StatusText lowerCaseTable inv)) = true.
Proof.
  unfold starts_quiet. apply forallb_forall. intros a Ha.
  apply In_program in Ha as [Ha|[code ->]]; [|reflexivity].
  destruct a; try reflexivity.
  exact (proj1 (logTrace_go inv _ _ Ha)).
Qed.

Lemma logTrace_closes (inv : Invocation) :
  In StreamClose (calls (logTrace StatusText lowerCaseTable inv)) ->
  returns_normally lowerCaseTable inv = true.
Proof.
  rewrite returns_normally_connected. unfold calls.
  destruct (logTrace_paths StatusText lowerCaseTable inv [])
    as [(Hc & f & a & E)
       |(lines & err & ce & t & rows & lf & pf & Hc & _ & E)];
    rewrite E, Hc; cbn [fst snd].
  - intros [H|[H|[]]]; discriminate H.
  - unfold sessionCalls.
    destruct (plainMode inv); cbn [negb andb fst snd].
    + intros [H|H]; [discriminate H|]. exfalso.
      apply in_app_or in H as [H|[H|[H|[]]]]; try discriminate H.
      apply in_map_iff in H as (x & H & _). discriminate H.
    + destruct (InitErr (terminal inv)) as [e|]; cbn [fst snd].
      * intros [H|[H|[H|[]]]]; discriminate H.
      * destruct err as [e|]; cbn [snd]; [|reflexivity].
        intros H. exfalso. apply uiCalls_In in H.
        destruct H as [H0|[H0|[H0|[H0|[(r & H0 & _)|[(e' & _ & [H0|H0])
                                                    |(_ & H0)]]]]]];
          discriminate H0.
Qed.

(** X15: who closes the stream, in every interleaving of the goroutines
    of every invocation: [main]'s goroutine only through the deferred
    call of a [logTrace] that returns; the listener only when a <C-c> or
    <Escape> arrived in a running UI; the goroutine of [closeOn] only in
    the mode without UI and only after a signal.  No other call to
    [stream.Close()] is ever made. *)
Theorem stream_closed_only_by (inv : Invocation) (sched : list actor)
    (c : config) (w : actor) :
  run sched (start (program (logTrace StatusText lowerCaseTable inv)))
  = Some c ->
  In (w, StreamClose) (history c) ->
  (w = Consumer /\ returns_normally lowerCaseTable inv = true) \/
  (w = Listener /\ ui_starts lowerCaseTable inv = true /\
   existsb is_cancel (polled (terminal inv)) = true) \/
  (w = SignalWatcher /\ plainMode inv = true /\ signalled inv = true).
Proof.
  intros Hr Hin.
  pose proof (reached_run _ sched (logTrace_starts_quiet inv)
                _ _ (reached_start _) Hr) as (_ & Hh & _).
  destruct (Hh _ _ Hin) as [[-> Ha]|(body0 & Hgo & Ha & _)].
  - left. split; [reflexivity|].
    apply In_program in Ha as [Ha|[code Ha]]; [|discriminate Ha].
    exact (logTrace_closes inv Ha).
  - right.
    apply In_program in Hgo as [Hgo|[code Hgo]]; [|discriminate Hgo].
    destruct (logTrace_go inv _ _ Hgo)
      as (_ & [(-> & Hp & Hs)|(-> & Hu & Hs)]).
    + right. repeat split; [exact Hp | exact (Hs Ha)].
    + left. repeat split; [exact Hu | exact (Hs Ha)].
Qed.

End WholeProcess.

Lemma stream_closed_only_by_witness :
  let inv :=
    mkInvocation "error" true false 0 true (inl "unused")
      (inr (mkStream [mkDelivery (mkErrorEvent "disk full") "{}" (10, 2, 3)]
                     None None))
      (mkTerminal None []) true in
  exists c,
    run [Consumer; SignalWatcher]
        (start (program (logTrace (fun _ => "OK") sampleCaseTable inv)))
    = Some c /\
    In (SignalWatcher, StreamClose) (history c) /\
    signalled inv = true.
Proof.
  intros inv. eexists. split; [reflexivity|].
  split; [right; left; reflexivity|].
  destruct (stream_closed_only_by (fun _ => "OK") sampleCaseTable inv
              [Consumer; SignalWatcher] _ SignalWatcher eq_refl
              (or_intror (or_introl eq_refl)))
    as [[H _]|[(H & _)|(_ & _ & H)]];
    [discriminate H | discriminate H | exact H].
Defined.

Lemma firstExit_app (l l' : list action) :
  firstExit (l ++ l')
  = match firstExit l with
    | Some code => Some code
    | None => firstExit l'
    end.
Proof.
  induction l as [|a l IH]; [reflexivity|].
  destruct a; cbn [app firstExit]; try exact IH. reflexivity.
Qed.

Lemma firstExit_none (l : list action) :
  forallb (fun a => negb (is_os_exit a)) l = true -> firstExit l = None.
Proof.
  induction l as [|a l IH]; [reflexivity|].
  cbn [forallb]. intros H. apply andb_prop in H as [Ha Hl].
  destruct a; cbn [firstExit]; try exact (IH Hl). discriminate Ha.
Qed.

Lemma firstExit_split (l : list action) (code : Z) :
  firstExit l = Some code ->
  exists pre post,
    l = pre ++ OsExit code :: post /\
    forallb (fun a => negb (is_os_exit a)) pre = true.
Proof.
  induction l as [|a l IH]; [discriminate|].
  destruct a; cbn [firstExit]; intros H;
    try (destruct (IH H) as (pre & post & -> & Hpre);
         eexists (_ :: pre), post; split; [reflexivity | exact Hpre]).
  injection H as ->. exists [], l. split; reflexivity.
Qed.

Lemma rows_no_exit (rows : list Xterm.Row) :
  forallb (fun a => negb (is_os_exit a))
          (flat_map (fun r => [TableAddRow r; TableDraw]) rows) = true.
Proof. induction rows as [|r rows IH]; [reflexivity | exact IH]. Qed.

Lemma lines_no_exit (lines : list string) :
  forallb (fun a => negb (is_os_exit a)) (List.map Stdout lines) = true.
Proof. induction lines as [|x lines IH]; [reflexivity | exact IH]. Qed.

Section ProcessStatus.

Variable StatusText : Z -> string.
Variable lowerCaseTable : Z -> Z.

Lemma logTrace_firstExit (inv : Invocation) :
  firstExit (program (logTrace StatusText lowerCaseTable inv))
  = Some (if returns_normally lowerCaseTable inv then 0 else 1).
Proof.
  rewrite returns_normally_connected. unfold program, calls, outcome.
  destruct (logTrace_paths StatusText lowerCaseTable inv [])
    as [(Hc & f & a & E)
       |(lines & err & ce & t & rows & lf & pf & Hc & _ & E)];
    rewrite E, Hc; cbn [fst snd]; [reflexivity|].
  unfold sessionCalls.
  destruct (plainMode inv); cbn [negb andb fst snd].
  - cbn [app firstExit]. rewrite app_nil_r, firstExit_app.
    rewrite (firstExit_none _ (lines_no_exit lines)). reflexivity.
  - destruct (InitErr (terminal inv)) as [e|]; cbn [fst snd]; [reflexivity|].
    destruct err as [e|]; cbn [fst snd andb exitCode]; unfold uiCalls;
      cbn [app firstExit]; rewrite ?app_nil_r, <- ?app_assoc, firstExit_app;
      rewrite (firstExit_none _ (rows_no_exit rows)); reflexivity.
Qed.

(** X16: the exit status is [main]'s alone.  With no interrupt, however
    the goroutines are interleaved, a process that has ended has the
    status 0 when [logTrace] returns and 1 otherwise, never another:
    neither the listener nor the goroutine of [closeOn] can change it,
    and [logTrace] does not panic. *)
Theorem exit_status_in_every_interleaving (inv : Invocation)
    (sched : list actor) (c : config) (code : Z) :
  signalled inv = false ->
  run sched (start (program (logTrace StatusText lowerCaseTable inv)))
  = Some c ->
  status c = Some code ->
  code = if returns_normally lowerCaseTable inv then 0 else 1.
Proof.
  intros _ Hr Hs. pose proof (logTrace_firstExit inv) as Hf.
  pose proof (reached_run _ sched (logTrace_starts_quiet StatusText
                                     lowerCaseTable inv)
                _ _ (reached_start _) Hr) as (_ & _ & pre & _ & Hpre & Hc).
  destruct Hc as [(Hn & _)|(code0 & post & Hs0 & _ & E)]; [congruence|].
  assert (code0 = code) as -> by congruence.
  rewrite E, firstExit_app in Hf.
  rewrite (firstExit_none _ Hpre) in Hf. cbn [firstExit] in Hf.
  congruence.
Qed.

End ProcessStatus.

Lemma exit_status_in_every_interleaving_witness :
  let inv :=
    mkInvocation "error" true false 0 true (inl "unused")
      (inr (mkStream [mkDelivery (mkErrorEvent "disk full") "{}" (10, 2, 3)]
                     None None))
      (mkTerminal None []) false in
  exists c,
    signalled inv = false /\
    run [Consumer; Consumer; Consumer; Consumer]
        (start (program (logTrace (fun _ => "OK") sampleCaseTable inv)))
    = Some c /\
    status c = Some 1 /\
    1 = (if returns_normally sampleCaseTable inv then 0 else 1).
Proof.
  intros inv. eexists. split; [reflexivity|]. split; [reflexivity|].
  split; [reflexivity|].
  exact (exit_status_in_every_interleaving (fun _ => "OK") sampleCaseTable
           inv [Consumer; Consumer; Consumer; Consumer] _ 1 eq_refl eq_refl
           eq_refl).
Defined.
